(** * mostro-score-web: the metrics engine of [web/js/metrics.js]

    A shallow embedding of the metrics computation module, of the tag
    lookup and the key parser of [web/js/nostr.js] and of parts of
    [web/js/ui.js] and [web/js/app.js], followed by the properties the
    specification states about them.

    Modelling conventions.
    - A JavaScript number is an IEEE 754 binary64 value.  A number that
      holds a timestamp, an amount or a count is an integer of [Z]: it
      stands for a double of magnitude at most 2^53, on which [+], [-]
      and the comparisons are exact, and so is [Math.floor (a / b)]
      (lemma [floor_div_binary64]).  The total volume is such a sum; a
      property that compares two totals or bounds the mean says so with
      an explicit bound by [MAX_SAFE_INTEGER].
    - A number that need not be an integer (the mean, the days active,
      the score before its floor) is a rational of [Q] in lowest terms,
      and every [/], [*] and [+] producing one rounds its exact result
      to the nearest binary64 value, ties to even, subnormal numbers
      included ([Binary64.round64]).  [NaN], the infinities and the sign
      of zero are not modelled: the module divides by constants only,
      and an overflow needs a magnitude of 2^1024.
    - A JavaScript string is a [string]: a sequence of code units below
      256.
    - [null] and [undefined] are both [None]: the module only tests such
      values for truthiness or with [===] against a string literal.
    - A [Map] is an association list in insertion order, a [Set] a
      duplicate-free list in insertion order, as their iteration order is
      defined.
    - [Date.now ()] reads the clock of an explicit [World].
    - The page is a tree of elements and texts; a function that changes
      an element in place returns the changed tree. *)

From Stdlib Require Import ZArith QArith Qround Qminmax Qreduction Qpower.
From Stdlib Require Import List String Ascii Bool Lia Lqa.
From Stdlib Require Import Permutation Sorted.
From Stdlib Require Import DecimalString DecimalZ.
Import ListNotations.

Local Open Scope Z_scope.

(** ** Binary64 rounding of an exact result *)

Module Binary64.

Definition pow2 (e : Z) : Q := Qpower 2 e.

(** The [k] with [2^k <= a < 2^(k+1)], for [a > 0]. *)
Definition ilog2 (a : Q) : Z :=
  let k := Z.log2 (Qnum a) - Z.log2 (Zpos (Qden a)) in
  if Qle_bool (pow2 k) a then k else k - 1.

(** The nearest integer, a tie going to the even one. *)
Definition rne (s : Q) : Z :=
  let f := Qfloor s in
  match (s - inject_Z f ?= 1 # 2)%Q with
  | Lt => f
  | Gt => f + 1
  | Eq => if Z.even f then f else f + 1
  end.

(** The exponent of the last place of a significand of 53 bits; the
    subnormal numbers share the least one. *)
Definition exponent (a : Q) : Z := Z.max (ilog2 a - 52) (-1074).

Definition round_pos (a : Q) : Q :=
  let e := exponent a in
  (inject_Z (rne (a / pow2 e)) * pow2 e)%Q.

(** The binary64 value nearest to [x], in lowest terms. *)
Definition round64 (x : Q) : Q :=
  let x := Qred x in
  match (x ?= 0)%Q with
  | Eq => 0%Q
  | Gt => Qred (round_pos x)
  | Lt => Qred (- round_pos (- x))
  end.

(** [x] is a binary64 value: a significand below [2^53] at an exponent
    of at least [-1074]. *)
Definition representable (x : Q) : Prop :=
  exists m e, -1074 <= e /\ Z.abs m < 2 ^ 53 /\ x == inject_Z m * pow2 e.

End Binary64.

(** ** The JavaScript built-ins the module uses *)

Module JS.

(** The ambient state [Date.now ()] reads: milliseconds since the
    epoch. *)
Record World := { clock_ms : Z }.

Definition Date_now (w : World) : Z := clock_ms w.

Definition MAX_SAFE_INTEGER : Z := 9007199254740991.

(** [a / b], [a * b] and [a + b] on numbers, for a divisor that is not
    zero: the exact result, rounded. *)
Definition div (a b : Q) : Q := Binary64.round64 (a / b).
Definition mul (a b : Q) : Q := Binary64.round64 (a * b).
Definition add (a b : Q) : Q := Binary64.round64 (a + b).

(** [Math.floor (a / b)] on integers: the floor of the exact quotient,
    which the rounding of [/] does not change (lemma
    [floor_div_binary64]). *)
Definition floor_div (a b : Z) : Z := Qfloor (inject_Z a / inject_Z b).

Definition Math_floor (x : Q) : Z := Qfloor x.
Definition Math_min (x y : Q) : Q := Qmin x y.
Definition Math_max (x y : Z) : Z := Z.max x y.

(** Truthiness of a value that is a string, [null] or [undefined]. *)
Definition truthy (v : option string) : bool :=
  match v with
  | Some s => negb (String.eqb s EmptyString)
  | None => false
  end.

(** [v === lit] for a string literal [lit]. *)
Definition strict_eq (v : option string) (lit : string) : bool :=
  match v with
  | Some s => String.eqb s lit
  | None => false
  end.

(** *** [Array.prototype.sort (cmp)]

    The sort is stable and orders by the sign of [cmp]; for a
    consistent comparator its result is unique, so a stable insertion
    sort stands for it. *)
Section Sort.
Context {A : Type} (cmp : A -> A -> Z).

Fixpoint insert (x : A) (l : list A) : list A :=
  match l with
  | [] => [x]
  | y :: r => if cmp x y <=? 0 then x :: y :: r else y :: insert x r
  end.

Definition sort (l : list A) : list A := fold_right insert [] l.
End Sort.

(** [arr[i]] on an array of numbers; every use below is in range. *)
Definition at_index (l : list Z) (i : Z) : Z := nth (Z.to_nat i) l 0.

Definition length {A : Type} (l : list A) : Z := Z.of_nat (List.length l).

(** *** [parseInt (s, 10)]

    Leading white space is skipped, one sign is accepted, and the
    longest prefix of decimal digits is read; the result is the Number
    value of the integer read, [None] is [NaN]. *)
Definition isStrWhiteSpaceChar (c : ascii) : bool :=
  let n := N_of_ascii c in
  (((9 <=? n) && (n <=? 13)) || (n =? 32) || (n =? 160))%N.

Fixpoint trimStart (s : string) : string :=
  match s with
  | String c r => if isStrWhiteSpaceChar c then trimStart r else s
  | EmptyString => s
  end.

Definition digit (c : ascii) : option Z :=
  let n := N_of_ascii c in
  if ((48 <=? n) && (n <=? 57))%N then Some (Z.of_N n - 48) else None.

(** Reads digits while there are some; [acc] is [None] until the first
    digit. *)
Fixpoint digits (acc : option Z) (s : string) : option Z :=
  match s with
  | String c r =>
      match digit c with
      | Some d =>
          digits (Some (match acc with Some a => 10 * a + d | None => d end)) r
      | None => acc
      end
  | EmptyString => acc
  end.

(** The Number value of an integer: the nearest double, which is an
    integer too, and the integer itself up to [2^53]. *)
Definition toNumber (n : Z) : Z := Qfloor (Binary64.round64 (inject_Z n)).

Definition parseInt (s : string) : option Z :=
  match trimStart s with
  | String "-"%char r => option_map Z.opp (option_map toNumber (digits None r))
  | String "+"%char r => option_map toNumber (digits None r)
  | t => option_map toNumber (digits None t)
  end.

(** *** [Map] with string keys *)
Section MapOps.
Context {V : Type}.

Definition Map := list (string * V).

Fixpoint Map_get (m : Map) (k : string) : option V :=
  match m with
  | [] => None
  | (k', v) :: r => if String.eqb k' k then Some v else Map_get r k
  end.

(** An existing key keeps its place in the iteration order. *)
Fixpoint Map_set (m : Map) (k : string) (v : V) : Map :=
  match m with
  | [] => [(k, v)]
  | (k', v') :: r =>
      if String.eqb k' k then (k, v) :: r else (k', v') :: Map_set r k v
  end.

Definition Map_values (m : Map) : list V := map snd m.
Definition Map_keys (m : Map) : list string := map fst m.
Definition Map_size (m : Map) : Z := length m.
End MapOps.
Arguments Map : clear implicits.

(** *** [new Set (array)] of numbers *)
Definition Set_add (s : list Z) (x : Z) : list Z :=
  if existsb (Z.eqb x) s then s else s ++ [x].

Definition Set_from (l : list Z) : list Z := fold_left Set_add l [].

End JS.

(** ** [web/js/nostr.js] *)

Module Nostr.

(** A Nostr event, with the fields the metrics module reads and the
    event id; a tag is an array of strings. *)
Record Event := {
  id : string;
  created_at : Z;
  tags : list (list string)
}.

(** [event.tags.find (t => t[0] === tagName)], then [tag[1]]. *)
Definition getTagValue (event : Event) (tagName : string) : option string :=
  match find (fun t => JS.strict_eq (nth_error t 0) tagName) (tags event) with
  | Some tag => nth_error tag 1
  | None => None
  end.

End Nostr.

(** ** [web/js/metrics.js] *)

Module Metrics.
Import Nostr.

Definition SECONDS_PER_DAY : Z := 86400.

(** *** [computeTradeStats] *)

Record TradeStats := {
  min : Z;
  max : Z;
  mean : Q;
  median : Z
}.

Definition computeTradeStats (amounts : list Z) : TradeStats :=
  if JS.length amounts =? 0 then
    {| min := 0; max := 0; mean := 0; median := 0 |}
  else
    let sorted := JS.sort (fun a b => a - b) amounts in
    let min := JS.at_index sorted 0 in
    let max := JS.at_index sorted (JS.length sorted - 1) in
    let sum :=
      fold_left (fun acc val => JS.add acc (inject_Z val)) amounts 0%Q in
    let mean := JS.div sum (inject_Z (JS.length amounts)) in
    let len := JS.length sorted in
    let median :=
      if len mod 2 =? 0 then
        JS.floor_div
          (JS.at_index sorted (len / 2 - 1) + JS.at_index sorted (len / 2)) 2
      else
        JS.at_index sorted (JS.floor_div len 2) in
    {| min := min; max := max; mean := mean; median := median |}.

(** *** [computeRollingWindows] *)

Record RollingWindows := {
  last7d : Z;
  last30d : Z;
  last90d : Z
}.

Definition computeRollingWindows (timestamps : list Z) (now : Z)
  : RollingWindows :=
  let day7 := now - 7 * SECONDS_PER_DAY in
  let day30 := now - 30 * SECONDS_PER_DAY in
  let day90 := now - 90 * SECONDS_PER_DAY in
  {| last7d := JS.length (filter (fun ts => ts >=? day7) timestamps);
     last30d := JS.length (filter (fun ts => ts >=? day30) timestamps);
     last90d := JS.length (filter (fun ts => ts >=? day90) timestamps) |}.

(** *** [computeActivityConsistency] *)

Record ActivityConsistency := {
  activeDays : Z;
  maxGap : Z
}.

(** The state of the loop over the active days. *)
Record GapWalk := {
  walk_maxGap : Z;
  walk_prevDay : Z
}.

Definition gap_step (st : GapWalk) (day : Z) : GapWalk :=
  let gap := JS.Math_max 0 (day - walk_prevDay st - 1) in
  {| walk_maxGap := JS.Math_max (walk_maxGap st) gap;
     walk_prevDay := day |}.

Definition computeActivityConsistency (timestamps : list Z) (now : Z)
  : ActivityConsistency :=
  let day30Ago := now - 30 * SECONDS_PER_DAY in
  let activeDaysSet :=
    JS.Set_from
      (map (fun ts => JS.floor_div ts SECONDS_PER_DAY)
           (filter (fun ts => ts >=? day30Ago) timestamps)) in
  let activeDaysCount := JS.length activeDaysSet in
  if JS.length activeDaysSet =? 0 then
    {| activeDays := 0; maxGap := 30 |}
  else
    let days := JS.sort (fun a b => a - b) activeDaysSet in
    let today := JS.floor_div now SECONDS_PER_DAY in
    let day30Start := JS.floor_div day30Ago SECONDS_PER_DAY in
    let st :=
      fold_left gap_step days
                {| walk_maxGap := 0; walk_prevDay := day30Start |} in
    let finalGap := JS.Math_max 0 (today - walk_prevDay st) in
    {| activeDays := activeDaysCount;
       maxGap := JS.Math_max (walk_maxGap st) finalGap |}.

(** *** [calculateScore] *)

Definition calculateScore (daysActive volumeSats successfulOrders : Q) : Z :=
  let score := 0%Q in
  let score :=
    JS.add score (JS.mul (JS.Math_min 1 (JS.div daysActive 365)) 30) in
  let btcVol := JS.div volumeSats 100000000 in
  let score := JS.add score (JS.mul (JS.Math_min 1 (JS.div btcVol 1)) 40) in
  let score :=
    JS.add score (JS.mul (JS.Math_min 1 (JS.div successfulOrders 100)) 30) in
  JS.Math_floor score.

(** *** [computeMetrics] *)

Record Report := {
  firstActivity : option Z;
  daysActive : Q;
  hasDevFeeEvents : bool;
  lastTrade : option Z;
  daysSinceLast : Z;
  trades7d : Z;
  trades30d : Z;
  trades90d : Z;
  activeDays30d : Z;
  maxInactiveGap : Z;
  successfulTrades : Z;
  totalVolumeSats : Z;
  minTrade : Z;
  maxTrade : Z;
  meanTrade : Q;
  medianTrade : Z;
  hasTradeStats : bool;
  trustScore : Z;
  totalOrderEvents : Z;
  uniqueOrders : Z;
  devFeeCount : Z
}.

(** The earliest dev fee timestamp: [sorted[0].created_at] of the copy
    sorted by [created_at], [null] for no dev fee event. *)
Definition firstDevFeeTs (devFeeEvents : list Event) : option Z :=
  if JS.length devFeeEvents >? 0 then
    let sorted :=
      JS.sort (fun a b => created_at a - created_at b) devFeeEvents in
    option_map created_at (nth_error sorted 0)
  else None.

(** The state of the loop over [orderEvents]; [firstOrderTs] is [None]
    while it is still [Infinity]. *)
Record OrderScan := {
  ordersMap : JS.Map Event;
  firstOrderTs : option Z;
  lastOrderTs : Z
}.

Definition scan_init : OrderScan :=
  {| ordersMap := []; firstOrderTs := None; lastOrderTs := 0 |}.

(** The deduplication by ['d'] tag, one iteration. *)
Definition dedup_step (m : JS.Map Event) (event : Event) : JS.Map Event :=
  let orderId := getTagValue event "d"%string in
  match orderId with
  | Some key =>
      if JS.truthy orderId then
        match JS.Map_get m key with
        | Some existing =>
            if created_at event >? created_at existing
            then JS.Map_set m key event
            else m
        | None => JS.Map_set m key event
        end
      else m
  | None => m
  end.

Definition scan_step (st : OrderScan) (event : Event) : OrderScan :=
  let eventTs := created_at event in
  let first :=
    match firstOrderTs st with
    | Some f => if eventTs <? f then Some eventTs else Some f
    | None => Some eventTs
    end in
  let last := if eventTs >? lastOrderTs st then eventTs else lastOrderTs st in
  {| ordersMap := dedup_step (ordersMap st) event;
     firstOrderTs := first;
     lastOrderTs := last |}.

Definition scan (orderEvents : list Event) : OrderScan :=
  fold_left scan_step orderEvents scan_init.

(** The deduplicator on its own: the map the first loop builds. *)
Definition dedup (orderEvents : list Event) : JS.Map Event :=
  fold_left dedup_step orderEvents [].

(** The state of the loop over [ordersMap.values ()]. *)
Record Tally := {
  successfulOrders : Z;
  tally_totalVolumeSats : Z;
  tradeAmounts : list Z;
  successfulTradeTimestamps : list Z
}.

Definition tally_init : Tally :=
  {| successfulOrders := 0; tally_totalVolumeSats := 0;
     tradeAmounts := []; successfulTradeTimestamps := [] |}.

(** One iteration.  The total is a sum of integers: it is the double the
    code adds up as long as it stays a safe integer (lemma
    [double_sum_exact]). *)
Definition tally_step (t : Tally) (event : Event) : Tally :=
  let status := getTagValue event "s"%string in
  if JS.strict_eq status "success"%string then
    let counted :=
      {| successfulOrders := successfulOrders t + 1;
         tally_totalVolumeSats := tally_totalVolumeSats t;
         tradeAmounts := tradeAmounts t;
         successfulTradeTimestamps :=
           successfulTradeTimestamps t ++ [created_at event] |} in
    let amtStr := getTagValue event "amt"%string in
    match amtStr with
    | Some str =>
        if JS.truthy amtStr then
          match JS.parseInt str with
          | Some amount =>
              if amount >? 0 then
                {| successfulOrders := successfulOrders counted;
                   tally_totalVolumeSats :=
                     tally_totalVolumeSats counted + amount;
                   tradeAmounts := tradeAmounts counted ++ [amount];
                   successfulTradeTimestamps :=
                     successfulTradeTimestamps counted |}
              else counted
          | None => counted
          end
        else counted
    | None => counted
    end
  else t.

Definition tally (orders : list Event) : Tally :=
  fold_left tally_step orders tally_init.

(** [daysActive] and [instanceStarted].  The middle branch runs only
    after some event raised [lastOrderTs] above 0, and that event also
    made [firstOrderTs] finite (lemma [scan_first_finite]); the value
    given for [Infinity] is never taken. *)
Definition longevity (now : Z) (firstDevFee : option Z) (st : OrderScan)
  : Q * option Z :=
  match firstDevFee with
  | Some first =>
      (JS.div (inject_Z (now - first)) (inject_Z SECONDS_PER_DAY),
       Some first)
  | None =>
      if lastOrderTs st >? 0 then
        match firstOrderTs st with
        | Some first =>
            (JS.div (inject_Z (lastOrderTs st - first))
                    (inject_Z SECONDS_PER_DAY), None)
        | None => (0%Q, None)
        end
      else (0%Q, None)
  end.

(** The body of [computeMetrics] after its first line. *)
Definition computeMetricsAt (now : Z) (devFeeEvents orderEvents : list Event)
  : Report :=
  let firstDevFee := firstDevFeeTs devFeeEvents in
  let st := scan orderEvents in
  let t := tally (JS.Map_values (ordersMap st)) in
  let '(daysActive, instanceStarted) := longevity now firstDevFee st in
  let tradeStats := computeTradeStats (tradeAmounts t) in
  let rollingWindows :=
    computeRollingWindows (successfulTradeTimestamps t) now in
  let activityConsistency :=
    computeActivityConsistency (successfulTradeTimestamps t) now in
  let daysSinceLast :=
    if lastOrderTs st >? 0
    then JS.floor_div (now - lastOrderTs st) SECONDS_PER_DAY
    else 0 in
  let score :=
    calculateScore daysActive (inject_Z (tally_totalVolumeSats t))
                   (inject_Z (successfulOrders t)) in
  {| firstActivity := instanceStarted;
     daysActive := daysActive;
     hasDevFeeEvents :=
       match firstDevFee with Some _ => true | None => false end;
     lastTrade := if lastOrderTs st >? 0 then Some (lastOrderTs st) else None;
     daysSinceLast := daysSinceLast;
     trades7d := last7d rollingWindows;
     trades30d := last30d rollingWindows;
     trades90d := last90d rollingWindows;
     activeDays30d := activeDays activityConsistency;
     maxInactiveGap := maxGap activityConsistency;
     successfulTrades := successfulOrders t;
     totalVolumeSats := tally_totalVolumeSats t;
     minTrade := min tradeStats;
     maxTrade := max tradeStats;
     meanTrade := mean tradeStats;
     medianTrade := median tradeStats;
     hasTradeStats := JS.length (tradeAmounts t) >? 0;
     trustScore := score;
     totalOrderEvents := JS.length orderEvents;
     uniqueOrders := JS.Map_size (ordersMap st);
     devFeeCount := JS.length devFeeEvents |}.

(** [computeMetrics (devFeeEvents, orderEvents)]: [now] is read from the
    clock. *)
Definition computeMetrics (w : JS.World) (devFeeEvents orderEvents : list Event)
  : Report :=
  let now := JS.floor_div (JS.Date_now w) 1000 in
  computeMetricsAt now devFeeEvents orderEvents.

End Metrics.

(** ** String built-ins used by [ui.js], [app.js] and [nostr.js] *)

Module JSString.

(** [s.startsWith (p)]. *)
Definition startsWith (s p : string) : bool := String.prefix p s.

(** [s.trimEnd ()], with the white space of [parseInt]. *)
Fixpoint trimEnd (s : string) : string :=
  match s with
  | EmptyString => EmptyString
  | String c r =>
      match trimEnd r with
      | EmptyString =>
          if JS.isStrWhiteSpaceChar c then EmptyString
          else String c EmptyString
      | kept => String c kept
      end
  end.

(** [s.trim ()]. *)
Definition trim (s : string) : string := trimEnd (JS.trimStart s).

(** [s.split (sep)] for a separator of one code unit: the pieces between
    the separators, the empty ones included. *)
Fixpoint split (sep : ascii) (s : string) : list string :=
  match s with
  | EmptyString => [EmptyString]
  | String c r =>
      if Ascii.eqb c sep then EmptyString :: split sep r
      else
        match split sep r with
        | piece :: pieces => String c piece :: pieces
        | [] => [String c EmptyString]
        end
  end.

(** The string of an integer in a template literal: decimal digits, with
    a minus sign for a negative one. *)
Definition Number_toString (n : Z) : string :=
  DecimalString.NilZero.string_of_int (Z.to_int n).

(** [c.toLowerCase ()] on a code unit below 256. *)
Definition lower (c : ascii) : ascii :=
  let n := N_of_ascii c in
  if (((65 <=? n) && (n <=? 90))
      || ((192 <=? n) && (n <=? 222) && negb (n =? 215)))%N
  then ascii_of_N (n + 32)
  else c.

Fixpoint toLowerCase (s : string) : string :=
  match s with
  | EmptyString => EmptyString
  | String c r => String (lower c) (toLowerCase r)
  end.

(** The character class [[0-9a-fA-F]]. *)
Definition isHexDigit (c : ascii) : bool :=
  let n := N_of_ascii c in
  (((48 <=? n) && (n <=? 57)) || ((97 <=? n) && (n <=? 102))
   || ((65 <=? n) && (n <=? 70)))%N.

Fixpoint all_chars (p : ascii -> bool) (s : string) : bool :=
  match s with
  | EmptyString => true
  | String c r => p c && all_chars p r
  end.

End JSString.

(** ** [web/js/ui.js] *)

Module UI.

Record ActivityStatus := {
  label : string;
  class : string
}.

Definition getActivityStatus (daysSinceLast : Z) : ActivityStatus :=
  if daysSinceLast >? 30 then
    {| label := "INACTIVE"; class := "badge-red" |}
  else if daysSinceLast >? 7 then
    {| label := "LOW ACTIVITY"; class := "badge-yellow" |}
  else
    {| label := "ACTIVE"; class := "badge-green" |}.

Definition getScoreClass (score : Z) : string :=
  if score >=? 70 then "score-green"
  else if score >=? 40 then "score-yellow"
  else "score-red".

Definition formatRelativeTime (timestamp now : Z) : string :=
  let diffSecs := now - timestamp in
  if diffSecs <? 0 then "in the future"
  else
    let days := JS.floor_div diffSecs 86400 in
    let hours := JS.floor_div (Z.rem diffSecs 86400) 3600 in
    if days =? 0 then
      if hours =? 0 then "less than an hour ago"
      else if hours =? 1 then "1 hour ago"
      else JSString.Number_toString hours ++ " hours ago"
    else if days =? 1 then "1 day ago"
    else if (days >=? 2) && (days <=? 6) then
      JSString.Number_toString days ++ " days ago"
    else if (days >=? 7) && (days <=? 13) then "1 week ago"
    else if (days >=? 14) && (days <=? 29) then
      JSString.Number_toString (JS.floor_div days 7) ++ " weeks ago"
    else if (days >=? 30) && (days <=? 59) then "1 month ago"
    else if (days >=? 60) && (days <=? 364) then
      JSString.Number_toString (JS.floor_div days 30) ++ " months ago"
    else
      JSString.Number_toString (JS.floor_div days 365) ++ " years ago".

(** *** The page

    The document is a tree of nodes.  A node is a text or an element
    with its id (empty when it has none), its class list and its child
    nodes. *)
#[local] Unset Elimination Schemes.
Inductive Node :=
| Text (data : string)
| Element (id : string) (classList : list string) (childNodes : list Node).
#[local] Set Elimination Schemes.

Definition classList (el : Node) : list string :=
  match el with
  | Element _ tokens _ => tokens
  | Text _ => []
  end.

Definition childNodes (el : Node) : list Node :=
  match el with
  | Element _ _ children => children
  | Text _ => []
  end.

Section Forest.
Context {A : Type}.

(** The first result among the nodes of a list. *)
Fixpoint first_of (f : Node -> option A) (nodes : list Node) : option A :=
  match nodes with
  | [] => None
  | node :: rest =>
      match f node with
      | Some a => Some a
      | None => first_of f rest
      end
  end.
End Forest.

(** Changes the first node of a list that [f] changes. *)
Fixpoint change_first (f : Node -> option Node) (nodes : list Node)
  : option (list Node) :=
  match nodes with
  | [] => None
  | node :: rest =>
      match f node with
      | Some node' => Some (node' :: rest)
      | None => option_map (cons node) (change_first f rest)
      end
  end.

(** [document.getElementById (id)], for the document rooted at [doc]:
    the first element with the id in tree order. *)
Fixpoint getElementById (doc : Node) (id : string) : option Node :=
  match doc with
  | Text _ => None
  | Element i _ children =>
      if String.eqb i id then Some doc
      else first_of (fun child => getElementById child id) children
  end.

(** The document after the element [getElementById] finds was changed in
    place by [f]; [None] when there is no such element. *)
Fixpoint change (doc : Node) (id : string) (f : Node -> Node) : option Node :=
  match doc with
  | Text _ => None
  | Element i tokens children =>
      if String.eqb i id then Some (f doc)
      else option_map (Element i tokens)
             (change_first (fun child => change child id f) children)
  end.

(** The [textContent] of a node: the texts below it, in tree order. *)
Fixpoint textContent (node : Node) : string :=
  match node with
  | Text data => data
  | Element _ _ children =>
      fold_right (fun child rest => textContent child ++ rest)%string
                 EmptyString children
  end.

(** [classList.toggle (token, force)]: adds the token when [force] holds,
    removes it otherwise. *)
Definition classList_toggle (tokens : list string) (token : string)
           (force : bool) : list string :=
  if force then
    if existsb (String.eqb token) tokens then tokens else tokens ++ [token]
  else filter (fun t => negb (String.eqb t token)) tokens.

(** [el.classList.toggle ('hidden', force)]. *)
Definition toggle_hidden (force : bool) (el : Node) : Node :=
  match el with
  | Element i tokens children =>
      Element i (classList_toggle tokens "hidden" force) children
  | Text _ => el
  end.

(** [el.textContent = text]: the children are replaced by one text, or
    by nothing when the text is empty. *)
Definition set_textContent (text : string) (el : Node) : Node :=
  match el with
  | Element i tokens _ =>
      Element i tokens
              (if String.eqb text EmptyString then [] else [Text text])
  | Text _ => Text text
  end.

(** [setVisible (id, show)] and [setText (id, text)]: an id that no element
    has is skipped. *)
Definition setVisible (doc : Node) (id : string) (show : bool) : Node :=
  match change doc id (toggle_hidden (negb show)) with
  | Some doc' => doc'
  | None => doc
  end.

Definition setText (doc : Node) (id : string) (text : string) : Node :=
  match change doc id (set_textContent text) with
  | Some doc' => doc'
  | None => doc
  end.

Definition showStatus (doc : Node) (message : string) : Node :=
  let doc := setVisible doc "status-section" true in
  let doc := setVisible doc "error-section" false in
  let doc := setVisible doc "report-section" false in
  setText doc "status-text" message.

(** [showListening (message)]; the default of [message] is the caller's
    to pass. *)
Definition showListening (doc : Node) (message : string) : Node :=
  let doc := setVisible doc "status-section" true in
  let doc := setVisible doc "error-section" false in
  setText doc "status-text" message.

Definition showError (doc : Node) (message : string) : Node :=
  let doc := setVisible doc "status-section" false in
  let doc := setVisible doc "error-section" true in
  let doc := setVisible doc "report-section" false in
  setText doc "error-message" message.

Definition hideMessages (doc : Node) : Node :=
  let doc := setVisible doc "status-section" false in
  setVisible doc "error-section" false.

End UI.

(** ** [web/js/nostr.js]: the public key *)

Module Pubkey.

(** What a call does: it returns a string or throws an [Error] with a
    message. *)
Inductive Outcome :=
| Returns (value : string)
| Throws (message : string).

Section WithNip19.

(** [nip19.decode] of nostr-tools: the type and the data of the decoded
    entity, [None] when it throws. *)
Variable nip19_decode : string -> option (string * string).

(** The test of [/^[0-9a-fA-F]{64}$/]. *)
Definition isHex64 (s : string) : bool :=
  (String.length s =? 64)%nat && JSString.all_chars JSString.isHexDigit s.

Definition parsePubkey (input : string) : Outcome :=
  let trimmed := JSString.trim input in
  let hexOrError :=
    if isHex64 trimmed then Returns (JSString.toLowerCase trimmed)
    else Throws "Invalid pubkey format. Use npub1... or 64 character hex." in
  if JSString.startsWith trimmed "npub1" then
    match nip19_decode trimmed with
    | Some (type, data) =>
        if String.eqb type "npub" then Returns data else hexOrError
    | None => Throws "Invalid npub format"
    end
  else hexOrError.

End WithNip19.

End Pubkey.

(** ** [web/js/app.js] *)

Module App.
Import Nostr Metrics.

Definition parseRelays (relaysStr : string) : list string :=
  filter (fun r => (Z.of_nat (String.length r) >? 0)
                   && JSString.startsWith r "wss://")
         (map JSString.trim (JSString.split "," relaysStr)).

Definition DEV_FEE_EVENT_KIND : Z := 8383.

(** An event as the subscription delivers it: its kind beside the fields
    of [Nostr.Event]. *)
Record Delivered := {
  kind : Z;
  event : Event
}.

(** [currentEvents]. *)
Record CurrentEvents := {
  devFeeEvents : list Event;
  orderEvents : list Event
}.

Definition noEvents : CurrentEvents :=
  {| devFeeEvents := []; orderEvents := [] |}.

(** The [type] the [onevent] handler of [subscribeMostroEvents] passes
    on. *)
Definition eventType (d : Delivered) : string :=
  if kind d =? DEV_FEE_EVENT_KIND then "devFee" else "order".

(** The [onEvent] callback of [startAnalysis], before it recomputes. *)
Definition onEvent (current : CurrentEvents) (e : Event) (type : string)
  : CurrentEvents :=
  if String.eqb type "devFee" then
    {| devFeeEvents := devFeeEvents current ++ [e];
       orderEvents := orderEvents current |}
  else
    {| devFeeEvents := devFeeEvents current;
       orderEvents := orderEvents current ++ [e] |}.

(** One delivery: the handler of the subscription calls the callback. *)
Definition deliver (current : CurrentEvents) (d : Delivered) : CurrentEvents :=
  onEvent current (event d) (eventType d).

(** [updateMetrics]: the metrics given to [renderReport], [None] when it
    returns before computing. *)
Definition updateMetrics (w : JS.World) (current : CurrentEvents)
  : option Report :=
  if (JS.length (devFeeEvents current) =? 0)
     && (JS.length (orderEvents current) =? 0)
  then None
  else Some (computeMetrics w (devFeeEvents current) (orderEvents current)).

End App.

(** * Notions the properties are stated with *)

Import Nostr Metrics.

(** The numeric sort [sort ((a, b) => a - b)]. *)
Definition ascending_sort (l : list Z) : list Z := JS.sort (fun a b => a - b) l.

(** The sum of a list of amounts. *)
Definition sum_list (l : list Z) : Z := fold_right Z.add 0 l.

(** The count the specification words: the timestamps [ts] of the list
    with [lo <= ts]; the bound is inclusive and nothing bounds [ts] from
    above. *)
Fixpoint count_from (lo : Z) (timestamps : list Z) : Z :=
  match timestamps with
  | [] => 0
  | ts :: rest =>
      (if Z_le_dec lo ts then 1 else 0) + count_from lo rest
  end.

(** The gaps before each day of an ascending list of active days: the
    days strictly between a day and the one before it, the first one
    measured from [prev]. *)
Fixpoint day_gaps (prev : Z) (days : list Z) : list Z :=
  match days with
  | [] => []
  | day :: rest => Z.max 0 (day - prev - 1) :: day_gaps day rest
  end.

(** The order identifier of an event: the value of its first ['d'] tag
    when that value is truthy. *)
Definition order_id (event : Event) : option string :=
  match getTagValue event "d"%string with
  | Some key => if String.eqb key EmptyString then None else Some key
  | None => None
  end.

(** [winner events key e]: [e] is the first event, in iteration order,
    among the events with identifier [key] that have the greatest
    [created_at]. *)
Definition winner (events : list Event) (key : string) (e : Event) : Prop :=
  exists before after,
    events = before ++ e :: after
    /\ order_id e = Some key
    /\ (forall e', In e' before -> order_id e' = Some key ->
                   created_at e' < created_at e)
    /\ (forall e', In e' after -> order_id e' = Some key ->
                   created_at e' <= created_at e).

(** Two updates of order [A] with the same timestamp. *)
Definition tie_first : Event :=
  {| id := "first"; created_at := 1700000000;
     tags := [["d"; "A"]; ["s"; "pending"]]%string |}.

Definition tie_second : Event :=
  {| id := "second"; created_at := 1700000000;
     tags := [["d"; "A"]; ["s"; "success"]; ["amt"; "5000"]]%string |}.

(** A canonical order counts as a successful trade when its ['s'] tag is
    [success]. *)
Definition is_success (event : Event) : bool :=
  JS.strict_eq (getTagValue event "s"%string) "success"%string.

(** The amount a successful order contributes: the value of its ['amt']
    tag when [parseInt] reads a positive number from it. *)
Definition included_amount (event : Event) : option Z :=
  match getTagValue event "amt"%string with
  | Some str =>
      match JS.parseInt str with
      | Some amount => if 0 <? amount then Some amount else None
      | None => None
      end
  | None => None
  end.

(** The included amounts of a list of orders, in iteration order. *)
Fixpoint included_amounts (orders : list Event) : list Z :=
  match orders with
  | [] => []
  | event :: rest =>
      match included_amount event with
      | Some amount => amount :: included_amounts rest
      | None => included_amounts rest
      end
  end.

(** A clock showing 1700000000 s, and the same clock a day later. *)
Definition clock_a : JS.World := {| JS.clock_ms := 1700000000000 |}.
Definition clock_b : JS.World := {| JS.clock_ms := 1700086400000 |}.

(** A successful order stamped with the epoch itself. *)
Definition epoch_order : Event :=
  {| id := "epoch"; created_at := 0;
     tags := [["d"; "E"]; ["s"; "success"]; ["amt"; "700"]]%string |}.

(** A dev fee event stamped one day after [clock_a]. *)
Definition future_anchor : Event :=
  {| id := "anchor"; created_at := 1700086400;
     tags := [["z"; "dev-fee-payment"]; ["y"; "mostro"]]%string |}.

(** The sum of the three terms of the score in exact arithmetic. *)
Definition exact_score (d v n : Q) : Q :=
  (Qmin 1 (d / 365) * 30 + Qmin 1 (v / 100000000) * 40
   + Qmin 1 (n / 100) * 30)%Q.

(** The sum of a list of amounts the way [reduce] adds the doubles, from
    left to right. *)
Definition double_sum (l : list Z) : Q :=
  fold_left (fun acc val => JS.add acc (inject_Z val)) l 0%Q.

(** Amounts that are not negative and add up to a safe integer: every
    partial sum is then a safe integer too. *)
Definition safe_amounts (l : list Z) : Prop :=
  (forall x, In x l -> 0 <= x) /\ sum_list l <= JS.MAX_SAFE_INTEGER.

(** One term of the score: the share of [cap] reached, at most 1, times
    the points it is worth. *)
Definition score_term (x cap weight : Q) : Q :=
  JS.mul (JS.Math_min 1 (JS.div x cap)) weight.

(** A dev fee event stamped one second after [clock_a]. *)
Definition skewed_anchor : Event :=
  {| id := "skewed"; created_at := 1700000001;
     tags := [["z"; "dev-fee-payment"]; ["y"; "mostro"]]%string |}.

(** No two different events of the list carry the same order identifier
    and the same timestamp. *)
Definition NoTies (events : list Event) : Prop :=
  forall e1 e2 key,
    In e1 events -> In e2 events ->
    order_id e1 = Some key -> order_id e2 = Some key ->
    created_at e1 = created_at e2 -> e1 = e2.

(** The elements of a document in tree order, each with its id and its
    class list. *)
Fixpoint elements (node : UI.Node) : list (string * list string) :=
  match node with
  | UI.Text _ => []
  | UI.Element i tokens children => (i, tokens) :: flat_map elements children
  end.

(** An element is shown when it is in the document and its class list
    lacks [hidden]. *)
Definition shown (doc : UI.Node) (id : string) : Prop :=
  exists el, UI.getElementById doc id = Some el
             /\ ~ In "hidden"%string (UI.classList el).

Definition hidden (doc : UI.Node) (id : string) : Prop :=
  forall el, UI.getElementById doc id = Some el ->
             In "hidden"%string (UI.classList el).

(** The element with the id, when there is one, holds no element, only
    texts. *)
Definition is_text (node : UI.Node) : Prop :=
  match node with
  | UI.Text _ => True
  | UI.Element _ _ _ => False
  end.

Definition holds_text (doc : UI.Node) (id : string) : Prop :=
  forall el, UI.getElementById doc id = Some el ->
             Forall is_text (UI.childNodes el).

(** The tree without its class lists. *)
Fixpoint skeleton (node : UI.Node) : UI.Node :=
  match node with
  | UI.Text data => UI.Text data
  | UI.Element i _ children => UI.Element i [] (map skeleton children)
  end.

(** A page with the three sections and the two message elements. *)
Definition plain_page : UI.Node :=
  UI.Element "app" []
    [UI.Element "status-section" ["card"; "hidden"]
       [UI.Element "status-text" [] [UI.Text "Idle"]];
     UI.Element "error-section" ["card"]
       [UI.Element "error-message" [] []];
     UI.Element "report-section" ["hidden"]
       [UI.Element "analyze-btn" ["btn"] [UI.Text "Analyze"]]]%string.

(** A status text that holds a marked-up dot. *)
Definition dotted_page : UI.Node :=
  UI.Element "app" []
    [UI.Element "status-section" ["hidden"]
       [UI.Element "status-text" []
          [UI.Element "dot" ["pulse"] []; UI.Text "Idle"]]]%string.

(** A string without a comma. *)
Definition comma_free (s : string) : bool :=
  JSString.all_chars (fun c => negb (Ascii.eqb c ",")) s.

(** * Properties *)

(** ** Binary64 rounding *)

Import Binary64.

(** *** Powers of two *)

Lemma pow2_pos (e : Z) : (0 < pow2 e)%Q.
Proof. apply Qpower_0_lt; reflexivity. Qed.

Lemma pow2_add (a b : Z) : pow2 (a + b) == pow2 a * pow2 b.
Proof. apply Qpower_plus; discriminate. Qed.

Lemma pow2_Z (n : Z) : 0 <= n -> pow2 n == inject_Z (2 ^ n).
Proof. intros H; unfold pow2; now rewrite Zpower_Qpower. Qed.

Lemma pow2_le (a b : Z) : a <= b -> (pow2 a <= pow2 b)%Q.
Proof. intros H; apply Qpower_le_compat_l; [exact H | discriminate]. Qed.

Lemma pow2_lt (a b : Z) : a < b -> (pow2 a < pow2 b)%Q.
Proof. intros H; apply Qpower_lt_compat_l; [exact H | reflexivity]. Qed.

Lemma pow2_lt_inv (a b : Z) : (pow2 a < pow2 b)%Q -> a < b.
Proof. intros H; eapply Qpower_lt_compat_l_inv; [exact H | reflexivity]. Qed.

(** Scaling by a power of two. *)
Lemma scale_pow2 (a : Q) (e : Z) : a / pow2 e * pow2 e == a.
Proof. field; apply Qpower_not_0; discriminate. Qed.

Lemma div_pow2 (n e : Z) : pow2 n / pow2 e == pow2 (n - e).
Proof. unfold pow2; rewrite Qpower_minus by discriminate; reflexivity. Qed.

Lemma Qdiv_le_pos (a b c : Q) : (0 < c -> a <= b -> a / c <= b / c)%Q.
Proof.
  intros Hc Hab; unfold Qdiv; apply Qmult_le_compat_r; [exact Hab|].
  apply Qlt_le_weak, Qinv_lt_0_compat, Hc.
Qed.

Lemma Qdiv_lt_pos (a b c : Q) : (0 < c -> a < b -> a / c < b / c)%Q.
Proof.
  intros Hc Hab; unfold Qdiv; apply Qmult_lt_compat_r; [|exact Hab].
  apply Qinv_lt_0_compat, Hc.
Qed.

(** *** The binary logarithm *)

Lemma ilog2_spec (a : Q) :
  (0 < a)%Q -> (pow2 (ilog2 a) <= a)%Q /\ (a < pow2 (ilog2 a + 1))%Q.
Proof.
  intros Ha; unfold ilog2.
  destruct a as [p q]; cbn [Qnum Qden].
  assert (Hp : 0 < p) by (unfold Qlt in Ha; simpl in Ha; lia).
  destruct (Z.log2_spec p Hp) as [Hp1 Hp2].
  destruct (Z.log2_spec (Z.pos q) eq_refl) as [Hq1 Hq2].
  pose proof (Z.log2_nonneg p) as Lp.
  pose proof (Z.log2_nonneg (Z.pos q)) as Lq.
  set (lp := Z.log2 p) in *; set (lq := Z.log2 (Z.pos q)) in *.
  assert (Hpq : p # q == inject_Z p / inject_Z (Z.pos q)) by apply Qmake_Qdiv.
  assert (Hqpos : (0 < inject_Z (Z.pos q))%Q) by reflexivity.
  (* the two integer bounds, in Q *)
  assert (B1 : (pow2 (lp - lq - 1) < p # q)%Q).
  { rewrite Hpq; apply Qlt_shift_div_l; [exact Hqpos|].
    apply Qlt_le_trans with (pow2 (lp - lq - 1) * pow2 (lq + 1))%Q.
    - apply Qmult_lt_l; [apply pow2_pos|].
      rewrite pow2_Z by lia; rewrite <- Zlt_Qlt.
      replace (lq + 1) with (Z.succ lq) by lia; exact Hq2.
    - rewrite <- pow2_add; replace (lp - lq - 1 + (lq + 1)) with lp by lia.
      rewrite pow2_Z by lia; rewrite <- Zle_Qle; exact Hp1. }
  assert (B2 : (p # q < pow2 (lp - lq + 1))%Q).
  { rewrite Hpq; apply Qlt_shift_div_r; [exact Hqpos|].
    apply Qlt_le_trans with (pow2 (lp - lq + 1) * pow2 lq)%Q.
    - rewrite <- pow2_add; replace (lp - lq + 1 + lq) with (Z.succ lp) by lia.
      rewrite pow2_Z by lia; rewrite <- Zlt_Qlt; exact Hp2.
    - apply Qmult_le_l; [apply pow2_pos|].
      rewrite pow2_Z by lia; rewrite <- Zle_Qle; exact Hq1. }
  destruct (Qle_bool (pow2 (lp - lq)) (p # q)) eqn:E.
  - apply Qle_bool_iff in E; split; [exact E | exact B2].
  - split.
    + apply Qlt_le_weak; exact B1.
    + replace (lp - lq - 1 + 1) with (lp - lq) by lia.
      apply Qnot_le_lt; intros H; apply Qle_bool_iff in H; congruence.
Qed.

Lemma ilog2_unique (a : Q) (k : Z) :
  (pow2 k <= a)%Q -> (a < pow2 (k + 1))%Q -> ilog2 a = k.
Proof.
  intros H1 H2.
  assert (Ha : (0 < a)%Q) by (eapply Qlt_le_trans; [apply pow2_pos | exact H1]).
  destruct (ilog2_spec a Ha) as [S1 S2].
  assert (ilog2 a < k + 1)
    by (apply pow2_lt_inv; eapply Qle_lt_trans; eassumption).
  assert (k < ilog2 a + 1)
    by (apply pow2_lt_inv; eapply Qle_lt_trans; eassumption).
  lia.
Qed.

Lemma ilog2_mono (a b : Q) : (0 < a)%Q -> (a <= b)%Q -> ilog2 a <= ilog2 b.
Proof.
  intros Ha Hab.
  assert (Hb : (0 < b)%Q) by (eapply Qlt_le_trans; eassumption).
  destruct (ilog2_spec a Ha) as [A1 _], (ilog2_spec b Hb) as [_ B2].
  assert (ilog2 a < ilog2 b + 1); [|lia].
  apply pow2_lt_inv.
  eapply Qle_lt_trans; [exact A1|]. eapply Qle_lt_trans; eassumption.
Qed.

(** *** Rounding to the nearest integer, ties to even *)

Lemma rne_bounds (s : Q) : Qfloor s <= rne s <= Qfloor s + 1.
Proof.
  unfold rne; destruct (_ ?= _)%Q; [destruct (Z.even _)|..]; lia.
Qed.

Lemma rne_comp (s t : Q) : s == t -> rne s = rne t.
Proof.
  intros H; unfold rne; rewrite (Qfloor_comp _ _ H).
  assert (E : s - inject_Z (Qfloor t) == t - inject_Z (Qfloor t))
    by (now rewrite H).
  now rewrite (Qcompare_comp _ _ E _ _ (Qeq_refl _)).
Qed.

Lemma rne_Z (n : Z) : rne (inject_Z n) = n.
Proof.
  unfold rne; rewrite Qfloor_Z.
  assert (E : inject_Z n - inject_Z n == 0) by ring.
  now rewrite (Qcompare_comp _ _ E _ _ (Qeq_refl _)).
Qed.

Lemma rne_ge_Z (s : Q) (n : Z) : (inject_Z n <= s)%Q -> n <= rne s.
Proof.
  intros H; pose proof (rne_bounds s).
  apply Qfloor_resp_le in H; rewrite Qfloor_Z in H; lia.
Qed.

Lemma rne_le_Z (s : Q) (n : Z) : (s <= inject_Z n)%Q -> rne s <= n.
Proof.
  intros H.
  pose proof (Qfloor_le s) as Hf.
  assert (Hfn : Qfloor s <= n)
    by (apply Qfloor_resp_le in H; now rewrite Qfloor_Z in H).
  unfold rne.
  destruct (Qcompare_spec (s - inject_Z (Qfloor s)) (1 # 2)) as [E|E|E];
    [destruct (Z.even (Qfloor s))| |]; try lia;
    assert (Hlt : (inject_Z (Qfloor s) < inject_Z n)%Q) by lra;
    rewrite <- Zlt_Qlt in Hlt; lia.
Qed.

Lemma rne_mono (s t : Q) : (s <= t)%Q -> rne s <= rne t.
Proof.
  intros H.
  pose proof (Qfloor_resp_le _ _ H) as Hf.
  pose proof (rne_bounds s); pose proof (rne_bounds t).
  destruct (Z.eq_dec (Qfloor s) (Qfloor t)) as [Heq|]; [|lia].
  unfold rne; rewrite <- Heq.
  destruct (Qcompare_spec (s - inject_Z (Qfloor s)) (1 # 2)) as [Es|Es|Es];
    destruct (Qcompare_spec (t - inject_Z (Qfloor s)) (1 # 2)) as [Et|Et|Et];
    try destruct (Z.even (Qfloor s)); try lia; exfalso; lra.
Qed.

Lemma rne_nonneg (s : Q) : (0 <= s)%Q -> 0 <= rne s.
Proof. intros H; apply rne_ge_Z; exact H. Qed.

(** *** Rounding a positive number *)

Lemma exponent_min (a : Q) : -1074 <= exponent a.
Proof. unfold exponent; lia. Qed.

Lemma exponent_mono (a b : Q) :
  (0 < a)%Q -> (a <= b)%Q -> exponent a <= exponent b.
Proof.
  intros Ha Hab; unfold exponent.
  pose proof (ilog2_mono a b Ha Hab); lia.
Qed.

(** The scaled value is below [2^53]. *)
Lemma scaled_lt (a : Q) :
  (0 < a)%Q -> (a / pow2 (exponent a) < inject_Z (2 ^ 53))%Q.
Proof.
  intros Ha; destruct (ilog2_spec a Ha) as [_ Hhi].
  apply Qlt_shift_div_r; [apply pow2_pos|].
  eapply Qlt_le_trans; [exact Hhi|].
  apply Qle_trans with (pow2 (53 + exponent a));
    [apply pow2_le; unfold exponent; lia|].
  rewrite pow2_add, (pow2_Z 53) by lia; apply Qle_refl.
Qed.

Lemma round_pos_nonneg (a : Q) : (0 < a)%Q -> (0 <= round_pos a)%Q.
Proof.
  intros Ha; unfold round_pos.
  apply Qmult_le_0_compat; [|apply Qlt_le_weak, pow2_pos].
  change 0%Q with (inject_Z 0); rewrite <- Zle_Qle; apply rne_nonneg.
  apply Qle_shift_div_l; [apply pow2_pos | lra].
Qed.

(** Rounding at exponent [e] does not cross a multiple of [2^e]. *)
Lemma round_at_le (a : Q) (e k : Z) :
  0 <= k -> (a <= pow2 (e + k))%Q ->
  (inject_Z (rne (a / pow2 e)) * pow2 e <= pow2 (e + k))%Q.
Proof.
  intros Hk Ha.
  rewrite pow2_add, (Qmult_comm (pow2 e)).
  apply Qmult_le_compat_r; [|apply Qlt_le_weak, pow2_pos].
  rewrite (pow2_Z k Hk), <- Zle_Qle; apply rne_le_Z.
  rewrite <- (pow2_Z k Hk).
  apply Qle_shift_div_r; [apply pow2_pos|].
  now rewrite <- pow2_add, Z.add_comm.
Qed.

Lemma round_at_ge (a : Q) (e k : Z) :
  0 <= k -> (pow2 (e + k) <= a)%Q ->
  (pow2 (e + k) <= inject_Z (rne (a / pow2 e)) * pow2 e)%Q.
Proof.
  intros Hk Ha.
  rewrite pow2_add, (Qmult_comm (pow2 e)).
  apply Qmult_le_compat_r; [|apply Qlt_le_weak, pow2_pos].
  rewrite (pow2_Z k Hk), <- Zle_Qle; apply rne_ge_Z.
  rewrite <- (pow2_Z k Hk).
  apply Qle_shift_div_l; [apply pow2_pos|].
  now rewrite <- pow2_add, Z.add_comm.
Qed.

Lemma round_pos_mono (a b : Q) :
  (0 < a)%Q -> (a <= b)%Q -> (round_pos a <= round_pos b)%Q.
Proof.
  intros Ha Hab.
  assert (Hb : (0 < b)%Q) by (eapply Qlt_le_trans; eassumption).
  pose proof (exponent_mono a b Ha Hab) as He.
  destruct (Z.eq_dec (exponent a) (exponent b)) as [Heq|Hne].
  - unfold round_pos; rewrite Heq.
    apply Qmult_le_compat_r; [|apply Qlt_le_weak, pow2_pos].
    rewrite <- Zle_Qle; apply rne_mono.
    apply Qdiv_le_pos; [apply pow2_pos | exact Hab].
  - assert (Hlt : exponent a < exponent b) by lia.
    destruct (ilog2_spec a Ha) as [_ Ahi], (ilog2_spec b Hb) as [Blo _].
    assert (Hb52 : exponent b = ilog2 b - 52)
      by (pose proof (exponent_min a); unfold exponent in *; lia).
    assert (Ha52 : ilog2 a - 52 <= exponent a) by (unfold exponent; lia).
    set (k := exponent b + 52 - exponent a).
    apply Qle_trans with (pow2 (exponent b + 52)).
    + replace (exponent b + 52) with (exponent a + k) by (unfold k; lia).
      apply round_at_le; [unfold k; lia|].
      apply Qlt_le_weak; eapply Qlt_le_trans; [exact Ahi|].
      apply pow2_le; unfold k; lia.
    + apply round_at_ge; [lia|].
      eapply Qle_trans; [|exact Blo]. apply pow2_le; lia.
Qed.

(** *** [round64] *)

Lemma round64_comp (x y : Q) : x == y -> round64 x = round64 y.
Proof. intros H; unfold round64; now rewrite (Qred_complete _ _ H). Qed.

Lemma round64_pos (x : Q) : (0 < x)%Q -> round64 x == round_pos (Qred x).
Proof.
  intros H; unfold round64; cbv zeta.
  assert (Hx : (0 < Qred x)%Q) by (now rewrite Qred_correct).
  destruct (Qcompare_spec (Qred x) 0) as [E|E|E]; try lra.
  apply Qred_correct.
Qed.

Lemma round64_neg (x : Q) :
  (x < 0)%Q -> round64 x == - round_pos (- Qred x).
Proof.
  intros H; unfold round64; cbv zeta.
  assert (Hx : (Qred x < 0)%Q) by (now rewrite Qred_correct).
  destruct (Qcompare_spec (Qred x) 0) as [E|E|E]; try lra.
  apply Qred_correct.
Qed.

Lemma round64_zero (x : Q) : x == 0 -> round64 x = 0%Q.
Proof. intros H; rewrite (round64_comp _ _ H); reflexivity. Qed.

Lemma round64_nonneg (x : Q) : (0 <= x)%Q -> (0 <= round64 x)%Q.
Proof.
  intros H; destruct (Qlt_le_dec 0 x) as [Hpos|Hle].
  - rewrite round64_pos by exact Hpos.
    apply round_pos_nonneg; now rewrite Qred_correct.
  - rewrite (round64_zero x) by lra; lra.
Qed.

Lemma round64_nonpos (x : Q) : (x <= 0)%Q -> (round64 x <= 0)%Q.
Proof.
  intros H; destruct (Qlt_le_dec x 0) as [Hneg|Hle].
  - rewrite round64_neg by exact Hneg.
    assert (0 <= round_pos (- Qred x))%Q; [|lra].
    apply round_pos_nonneg; rewrite Qred_correct; lra.
  - rewrite (round64_zero x) by lra; lra.
Qed.

(** Rounding is monotone. *)
Lemma round64_mono (x y : Q) : (x <= y)%Q -> (round64 x <= round64 y)%Q.
Proof.
  intros H.
  destruct (Qlt_le_dec 0 x) as [Hx|Hx].
  - assert (Hy : (0 < y)%Q) by lra.
    rewrite !round64_pos by assumption.
    apply round_pos_mono; rewrite !Qred_correct; assumption.
  - destruct (Qlt_le_dec 0 y) as [Hy|Hy].
    + pose proof (round64_nonpos x Hx).
      pose proof (round64_nonneg y (Qlt_le_weak _ _ Hy)); lra.
    + destruct (Qlt_le_dec y 0) as [Hy'|Hy'].
      * assert (Hx' : (x < 0)%Q) by lra.
        rewrite !round64_neg by assumption.
        assert (round_pos (- Qred y) <= round_pos (- Qred x))%Q; [|lra].
        apply round_pos_mono; rewrite !Qred_correct; lra.
      * rewrite (round64_zero y) by lra. now apply round64_nonpos.
Qed.

(** *** The numbers that need no rounding *)

Lemma round_pos_exact (a : Q) (m e : Z) :
  -1074 <= e -> 0 < m < 2 ^ 53 -> a == inject_Z m * pow2 e ->
  round_pos a == a.
Proof.
  intros He Hm Ha.
  assert (Hm0 : (0 < inject_Z m)%Q)
    by (change 0%Q with (inject_Z 0); rewrite <- Zlt_Qlt; lia).
  assert (Hpos : (0 < a)%Q).
  { rewrite Ha; apply Qmult_lt_0_compat; [exact Hm0 | apply pow2_pos]. }
  destruct (ilog2_spec a Hpos) as [Hlo _].
  assert (Hhi : (a < pow2 (e + 53))%Q).
  { rewrite Ha, pow2_add, (Qmult_comm (pow2 e)).
    apply Qmult_lt_compat_r; [apply pow2_pos|].
    rewrite (pow2_Z 53) by lia; rewrite <- Zlt_Qlt; lia. }
  assert (Hlog : ilog2 a < e + 53)
    by (apply pow2_lt_inv; eapply Qle_lt_trans; eassumption).
  assert (Hexp : exponent a <= e) by (unfold exponent; lia).
  unfold round_pos.
  set (ea := exponent a) in *.
  assert (Hscaled : a / pow2 ea == inject_Z (m * 2 ^ (e - ea))).
  { rewrite Ha, inject_Z_mult, <- (pow2_Z (e - ea)) by lia.
    rewrite <- div_pow2; field.
    apply Qpower_not_0; discriminate. }
  rewrite (rne_comp _ _ Hscaled), rne_Z, <- Hscaled.
  apply scale_pow2.
Qed.

Lemma Qred_inject_Z (z : Z) : Qred (inject_Z z) = inject_Z z.
Proof.
  unfold Qred, inject_Z.
  pose proof (Z.ggcd_gcd z 1) as Hg.
  pose proof (Z.ggcd_correct_divisors z 1) as Hd.
  destruct (Z.ggcd z 1) as [g [a b]]; simpl in *.
  rewrite Z.gcd_1_r in Hg; subst g.
  destruct Hd as [Ha Hb].
  assert (Ea : a = z) by lia; assert (Eb : b = 1) by lia.
  rewrite Ea, Eb; reflexivity.
Qed.

Lemma Qred_involutive (q : Q) : Qred (Qred q) = Qred q.
Proof.
  apply Qred_complete, Qred_correct.
Qed.

Lemma round64_exact (x : Q) : representable x -> round64 x = Qred x.
Proof.
  intros (m & e & He & Hm & Hx).
  destruct (Z.lt_trichotomy m 0) as [Hneg|[->|Hpos]].
  - assert (Hx0 : (x < 0)%Q).
    { rewrite Hx.
      assert (0 < inject_Z (- m) * pow2 e)%Q.
      { apply Qmult_lt_0_compat; [|apply pow2_pos].
        change 0%Q with (inject_Z 0); rewrite <- Zlt_Qlt; lia. }
      rewrite inject_Z_opp in H; lra. }
    unfold round64; cbv zeta.
    assert (Hr : (Qred x < 0)%Q) by (now rewrite Qred_correct).
    destruct (Qcompare_spec (Qred x) 0) as [E|E|E]; try lra.
    apply Qred_complete.
    rewrite (round_pos_exact (- Qred x) (- m) e); try lia.
    + rewrite Qred_correct; ring.
    + rewrite Qred_correct, Hx, inject_Z_opp; ring.
  - assert (Hx0 : x == 0) by (rewrite Hx; ring).
    rewrite (round64_zero x Hx0).
    now rewrite (Qred_complete _ _ Hx0).
  - assert (Hx0 : (0 < x)%Q).
    { rewrite Hx; apply Qmult_lt_0_compat; [|apply pow2_pos].
      change 0%Q with (inject_Z 0); rewrite <- Zlt_Qlt; lia. }
    unfold round64; cbv zeta.
    assert (Hr : (0 < Qred x)%Q) by (now rewrite Qred_correct).
    destruct (Qcompare_spec (Qred x) 0) as [E|E|E]; try lra.
    apply Qred_complete.
    rewrite (round_pos_exact (Qred x) m e); try lia.
    + apply Qred_correct.
    + now rewrite Qred_correct.
Qed.

Lemma round_pos_representable (a : Q) :
  (0 < a)%Q -> representable (round_pos a).
Proof.
  intros Ha; unfold round_pos.
  pose proof (exponent_min a) as He.
  pose proof (scaled_lt a Ha) as Hlt.
  assert (H0 : 0 <= rne (a / pow2 (exponent a))).
  { apply rne_nonneg, Qle_shift_div_l; [apply pow2_pos | lra]. }
  assert (Hle : rne (a / pow2 (exponent a)) <= 2 ^ 53)
    by (apply rne_le_Z, Qlt_le_weak, Hlt).
  set (m := rne (a / pow2 (exponent a))) in *.
  destruct (Z.eq_dec m (2 ^ 53)) as [->|Hne].
  - exists (2 ^ 52), (exponent a + 1).
    split; [lia | split; [reflexivity|]].
    rewrite pow2_add.
    assert (E : inject_Z (2 ^ 53) == inject_Z (2 ^ 52) * pow2 1)
      by reflexivity.
    rewrite E; ring.
  - exists m, (exponent a).
    split; [lia | split; [lia | reflexivity]].
Qed.

Lemma representable_opp (x : Q) : representable x -> representable (- x).
Proof.
  intros (m & e & He & Hm & Hx); exists (- m), e.
  split; [lia | split; [lia|]].
  rewrite Hx, inject_Z_opp; ring.
Qed.

Lemma representable_comp (x y : Q) :
  x == y -> representable x -> representable y.
Proof.
  intros Hxy (m & e & He & Hm & Hx); exists m, e.
  split; [exact He | split; [exact Hm|]].
  now rewrite <- Hxy.
Qed.

Lemma round64_representable (x : Q) : representable (round64 x).
Proof.
  destruct (Q_dec x 0) as [[Hneg|Hpos]|Hz].
  - eapply representable_comp; [symmetry; apply round64_neg, Hneg|].
    apply representable_opp, round_pos_representable.
    rewrite Qred_correct; lra.
  - eapply representable_comp; [symmetry; apply round64_pos, Hpos|].
    apply round_pos_representable; now rewrite Qred_correct.
  - rewrite (round64_zero x Hz).
    exists 0, 0.
    split; [lia | split; reflexivity].
Qed.

Lemma round64_reduced (x : Q) : Qred (round64 x) = round64 x.
Proof.
  unfold round64; cbv zeta.
  destruct (Qred x ?= 0)%Q; [reflexivity | |]; apply Qred_involutive.
Qed.

(** Rounding twice is rounding once. *)
Lemma round64_idempotent (x : Q) : round64 (round64 x) = round64 x.
Proof.
  rewrite (round64_exact _ (round64_representable x)).
  apply round64_reduced.
Qed.

(** The integers up to [2^53] are exact. *)
Lemma representable_Z (z : Z) : Z.abs z <= 2 ^ 53 -> representable (inject_Z z).
Proof.
  intros Hz.
  destruct (Z.eq_dec (Z.abs z) (2 ^ 53)) as [Heq|Hne].
  - exists (Z.sgn z * 2 ^ 52), 1.
    split; [lia | split].
    + destruct z; simpl in *; lia.
    + assert (E : inject_Z z == inject_Z (Z.sgn z * 2 ^ 52 * 2)).
      { f_equal. destruct z; simpl in *; try lia;
          injection Heq as ->; reflexivity. }
      rewrite E, !inject_Z_mult; reflexivity.
  - exists z, 0.
    split; [lia | split; [lia|]].
    change (pow2 0) with 1%Q; ring.
Qed.

Lemma round64_Z (z : Z) :
  Z.abs z <= 2 ^ 53 -> round64 (inject_Z z) = inject_Z z.
Proof.
  intros Hz; rewrite (round64_exact _ (representable_Z z Hz)).
  apply Qred_inject_Z.
Qed.

(** Rounding does not cross a number that needs no rounding. *)
Lemma round64_le (x c : Q) :
  representable c -> (x <= c)%Q -> (round64 x <= c)%Q.
Proof.
  intros Hc Hx; apply round64_mono in Hx.
  now rewrite (round64_exact c Hc), Qred_correct in Hx.
Qed.

Lemma round64_ge (x c : Q) :
  representable c -> (c <= x)%Q -> (c <= round64 x)%Q.
Proof.
  intros Hc Hx; apply round64_mono in Hx.
  now rewrite (round64_exact c Hc), Qred_correct in Hx.
Qed.

(** *** The rounding error *)

Lemma rne_error (s : Q) :
  (s - (1 # 2) <= inject_Z (rne s) /\ inject_Z (rne s) <= s + (1 # 2))%Q.
Proof.
  unfold rne; cbv zeta.
  pose proof (Qfloor_le s) as Hlo.
  pose proof (Qlt_floor s) as Hhi.
  rewrite inject_Z_plus in Hhi; change (inject_Z 1) with 1%Q in Hhi.
  destruct (Qcompare_spec (s - inject_Z (Qfloor s)) (1 # 2)) as [E|E|E].
  - destruct (Z.even (Qfloor s));
      rewrite ?inject_Z_plus; change (inject_Z 1) with 1%Q; lra.
  - lra.
  - rewrite inject_Z_plus; change (inject_Z 1) with 1%Q; lra.
Qed.

Lemma pow2_half (e : Z) : pow2 (e - 1) == pow2 e * (1 # 2).
Proof.
  unfold Z.sub; rewrite pow2_add; reflexivity.
Qed.

Lemma round_pos_error (a : Q) :
  (a - pow2 (exponent a - 1) <= round_pos a
   /\ round_pos a <= a + pow2 (exponent a - 1))%Q.
Proof.
  unfold round_pos; cbv zeta.
  rewrite pow2_half.
  pose proof (pow2_pos (exponent a)) as Hp.
  pose proof (scale_pow2 a (exponent a)) as Hs.
  destruct (rne_error (a / pow2 (exponent a))) as [Hlo Hhi].
  set (s := (a / pow2 (exponent a))%Q) in *.
  set (p := pow2 (exponent a)) in *.
  assert (H1 : ((s - (1 # 2)) * p <= inject_Z (rne s) * p)%Q)
    by (apply Qmult_le_compat_r; lra).
  assert (H2 : (inject_Z (rne s) * p <= (s + (1 # 2)) * p)%Q)
    by (apply Qmult_le_compat_r; lra).
  assert (E1 : ((s - (1 # 2)) * p == a - p * (1 # 2))%Q)
    by (rewrite <- Hs; ring).
  assert (E2 : ((s + (1 # 2)) * p == a + p * (1 # 2))%Q)
    by (rewrite <- Hs; ring).
  rewrite E1 in H1; rewrite E2 in H2; split; assumption.
Qed.

(** Below [2^(E+53)] a number rounds to a double at most [2^(E-1)]
    away. *)
Lemma round64_error (x : Q) (E : Z) :
  -1074 <= E -> (0 <= x)%Q -> (x < pow2 (E + 53))%Q ->
  (x - pow2 (E - 1) <= round64 x /\ round64 x <= x + pow2 (E - 1))%Q.
Proof.
  intros HE H0 Hlt.
  pose proof (pow2_pos (E - 1)) as HpE.
  destruct (Qle_lt_or_eq _ _ H0) as [Hpos|Hzero].
  - rewrite (round64_pos x Hpos).
    assert (Hr : (0 < Qred x)%Q) by (now rewrite Qred_correct).
    destruct (ilog2_spec _ Hr) as [Hlog _].
    assert (ilog2 (Qred x) < E + 53).
    { apply pow2_lt_inv; eapply Qle_lt_trans; [exact Hlog|].
      now rewrite Qred_correct. }
    assert (Hexp : exponent (Qred x) - 1 <= E - 1) by (unfold exponent; lia).
    apply pow2_le in Hexp.
    destruct (round_pos_error (Qred x)) as [Hlo Hhi].
    pose proof (Qred_correct x) as Hx.
    set (r := round_pos (Qred x)) in *.
    set (p := pow2 (exponent (Qred x) - 1)) in *.
    set (y := Qred x) in *.
    split; lra.
  - rewrite (round64_zero x) by (now symmetry).
    rewrite <- Hzero; split; lra.
Qed.

(** Up to 128 the error is at most [2^-47]. *)
Lemma round64_error_128 (x : Q) :
  (0 <= x)%Q -> (x < 128)%Q ->
  (x - pow2 (- (47)) <= round64 x /\ round64 x <= x + pow2 (- (47)))%Q.
Proof.
  intros H0 H128; apply (round64_error x (- (46))); [lia | exact H0|].
  exact H128.
Qed.

(** ** Numbers *)

Lemma floor_div_Zdiv (a b : Z) : JS.floor_div a b = a / b.
Proof.
  unfold JS.floor_div; symmetry; apply Zdiv_Qdiv.
Qed.

(** Two quotients that are numerically equal are the same value. *)
Lemma div_canonical (a b c d : Q) : a / b == c / d -> JS.div a b = JS.div c d.
Proof. intros H; unfold JS.div; now apply round64_comp. Qed.

Lemma div_mono (a b c : Q) :
  (0 < c)%Q -> (a <= b)%Q -> (JS.div a c <= JS.div b c)%Q.
Proof.
  intros Hc Hab; apply round64_mono, Qdiv_le_pos; assumption.
Qed.

Lemma mul_mono (a b c : Q) :
  (0 <= c)%Q -> (a <= b)%Q -> (JS.mul a c <= JS.mul b c)%Q.
Proof.
  intros Hc Hab; apply round64_mono, Qmult_le_compat_r; assumption.
Qed.

Lemma add_mono (a b c d : Q) :
  (a <= b)%Q -> (c <= d)%Q -> (JS.add a c <= JS.add b d)%Q.
Proof.
  intros Hab Hcd; apply round64_mono; lra.
Qed.

Lemma div_nonneg (a c : Q) : (0 < c)%Q -> (0 <= a)%Q -> (0 <= JS.div a c)%Q.
Proof.
  intros Hc Ha; apply round64_nonneg, Qle_shift_div_l; lra.
Qed.

(** Adding to 0 and dividing by 1 return a double as it is. *)
Lemma add_zero_l (x : Q) : JS.add 0 (round64 x) = round64 x.
Proof.
  unfold JS.add.
  rewrite (round64_comp (0 + round64 x) (round64 x)) by ring.
  apply round64_idempotent.
Qed.

Lemma div_one (x : Q) : JS.div (round64 x) 1 = round64 x.
Proof.
  unfold JS.div.
  rewrite (round64_comp (round64 x / 1) (round64 x)) by (field).
  apply round64_idempotent.
Qed.

Lemma add_zero_mul (a b : Q) : JS.add 0 (JS.mul a b) = JS.mul a b.
Proof. apply add_zero_l. Qed.

Lemma div_div_one (a b : Q) : JS.div (JS.div a b) 1 = JS.div a b.
Proof. apply div_one. Qed.

(** A product and a sum that an integer of the safe range bounds. *)
Lemma mul_le_Z (a b : Q) (z : Z) :
  Z.abs z <= 2 ^ 53 -> (a * b <= inject_Z z)%Q -> (JS.mul a b <= inject_Z z)%Q.
Proof.
  intros Hz H; apply round64_le; [now apply representable_Z | exact H].
Qed.

Lemma add_le_Z (a b : Q) (z : Z) :
  Z.abs z <= 2 ^ 53 -> (a + b <= inject_Z z)%Q -> (JS.add a b <= inject_Z z)%Q.
Proof.
  intros Hz H; apply round64_le; [now apply representable_Z | exact H].
Qed.

Lemma Qfloor_unique (x : Q) (q : Z) :
  (inject_Z q <= x)%Q -> (x < inject_Z (q + 1))%Q -> Qfloor x = q.
Proof.
  intros Hlo Hhi.
  assert (q <= Qfloor x).
  { rewrite <- (Qfloor_Z q). now apply Qfloor_resp_le. }
  assert (Qfloor x < q + 1).
  { rewrite Zlt_Qlt. eapply Qle_lt_trans; [apply Qfloor_le | exact Hhi]. }
  lia.
Qed.

Lemma pow2_inv (k : Z) : pow2 k * pow2 (- k) == 1.
Proof.
  rewrite <- pow2_add, Z.add_opp_diag_r; reflexivity.
Qed.

(** [Math.floor (a / b)] on integers in the safe range: rounding the
    quotient to a double does not move it across an integer. *)
Lemma floor_div_binary64 (a b : Z) :
  0 < b -> 2 * Z.abs a + 2 * b < 2 ^ 53 ->
  Qfloor (JS.div (inject_Z a) (inject_Z b)) = JS.floor_div a b.
Proof.
  intros Hb Hsafe; rewrite floor_div_Zdiv; unfold JS.div.
  set (q := a / b).
  pose proof (Z.div_mod a b ltac:(lia)) as Hdm.
  pose proof (Z.mod_pos_bound a b Hb) as Hr.
  fold q in Hdm.
  set (r := a mod b) in *.
  assert (Hbq : (0 < inject_Z b)%Q)
    by (change 0%Q with (inject_Z 0); now rewrite <- Zlt_Qlt).
  assert (Hx : inject_Z a / inject_Z b
               == inject_Z q + inject_Z r / inject_Z b).
  { rewrite Hdm at 1. rewrite inject_Z_plus, inject_Z_mult. field. lra. }
  set (k := Z.log2_up b).
  assert (Hk0 : 0 <= k) by apply Z.log2_up_nonneg.
  assert (Hk : b <= 2 ^ k < 2 * b).
  { destruct (Z.eq_dec b 1) as [->|Hb1]; [vm_compute; split; congruence|].
    pose proof (Z.log2_up_spec b ltac:(lia)) as [Hlo Hhi]; fold k in Hlo, Hhi.
    split; [exact Hhi|].
    replace k with (Z.succ (Z.pred k)) by lia.
    rewrite Z.pow_succ_r; [lia|].
    destruct (Z.eq_dec k 0) as [E|E]; [|lia].
    rewrite E in Hhi; simpl in Hhi; lia. }
  assert (Hqa : Z.abs q <= Z.abs a) by (unfold q; nia).
  assert (Hq1 : Z.abs (q + 1) * b <= Z.abs a + b) by nia.
  set (m := (q + 1) * 2 ^ k - 1).
  assert (Hm : Z.abs m < 2 ^ 53).
  { unfold m.
    destruct (Z.eq_dec (q + 1) 0) as [E|E]; [rewrite E; reflexivity|].
    assert (Z.abs (q + 1) * 2 ^ k <= 2 * Z.abs a + 2 * b - 1) by nia.
    assert (Z.abs ((q + 1) * 2 ^ k) = Z.abs (q + 1) * 2 ^ k)
      by (rewrite Z.abs_mul; f_equal; lia).
    lia. }
  set (c := (inject_Z m * pow2 (- k))%Q).
  assert (Hc : representable c).
  { exists m, (- k); split; [|split; [exact Hm | reflexivity]].
    assert (k < 54); [|lia].
    apply (Z.pow_lt_mono_r_iff 2); lia. }
  assert (Hcv : c == inject_Z (q + 1) - pow2 (- k)).
  { unfold c, m.
    unfold Z.sub; rewrite inject_Z_plus, inject_Z_mult, <- (pow2_Z k Hk0).
    transitivity (inject_Z (q + 1) * (pow2 k * pow2 (- k))
                  + inject_Z (- (1)) * pow2 (- k))%Q; [ring|].
    rewrite pow2_inv.
    change (inject_Z (- (1))) with (- (1))%Q; ring. }
  assert (Hinv : (pow2 (- k) <= 1 / inject_Z b)%Q).
  { apply Qle_shift_div_l; [exact Hbq|].
    apply Qle_trans with (pow2 (- k) * pow2 k)%Q.
    - apply Qmult_le_l; [apply pow2_pos|].
      rewrite (pow2_Z k Hk0), <- Zle_Qle; lia.
    - rewrite Qmult_comm, pow2_inv; lra. }
  assert (Hrb : (inject_Z r / inject_Z b <= 1 - 1 / inject_Z b)%Q).
  { assert (E : (1 - 1 / inject_Z b == inject_Z (b - 1) / inject_Z b)%Q).
    { unfold Z.sub; rewrite inject_Z_plus.
      change (inject_Z (- (1))) with (- (1))%Q; field; lra. }
    rewrite E; apply Qdiv_le_pos; [exact Hbq|].
    rewrite <- Zle_Qle; lia. }
  assert (Hr0 : (0 <= inject_Z r / inject_Z b)%Q).
  { apply Qle_shift_div_l; [exact Hbq|].
    rewrite Qmult_0_l; change 0%Q with (inject_Z 0); rewrite <- Zle_Qle; lia. }
  apply Qfloor_unique.
  - apply round64_ge; [apply representable_Z; lia | rewrite Hx; lra].
  - apply Qle_lt_trans with c.
    + apply round64_le; [exact Hc|].
      rewrite Hx, Hcv, inject_Z_plus.
      change (inject_Z 1) with 1%Q; lra.
    + rewrite Hcv. pose proof (pow2_pos (- k)); lra.
Qed.

(** Reading a safe integer gives that integer; past [2^53] the Number
    value need not be the integer read. *)
Lemma toNumber_safe (n : Z) : Z.abs n <= 2 ^ 53 -> JS.toNumber n = n.
Proof.
  intros H; unfold JS.toNumber; rewrite (round64_Z n H); apply Qfloor_Z.
Qed.

Lemma parseInt_past_safe :
  JS.parseInt "9007199254740993" = Some 9007199254740992.
Proof. vm_compute; reflexivity. Qed.

Lemma length_zero_iff {A : Type} (l : list A) : JS.length l = 0 <-> l = [].
Proof.
  unfold JS.length; split; [|intros ->; reflexivity].
  destruct l; [reflexivity | simpl; lia].
Qed.

(** ** [Array.prototype.sort] *)

Section SortFacts.
Context {A : Type} (key : A -> Z).

Lemma insert_Permutation (x : A) (l : list A) :
  Permutation (JS.insert (fun a b => key a - key b) x l) (x :: l).
Proof.
  induction l as [|y l IH]; simpl; [reflexivity|].
  destruct (key x - key y <=? 0); [reflexivity|].
  rewrite IH; apply perm_swap.
Qed.

Lemma sort_Permutation (l : list A) : Permutation (JS.sort (fun a b => key a - key b) l) l.
Proof.
  induction l as [|x l IH]; simpl; [reflexivity|].
  rewrite insert_Permutation; now constructor.
Qed.

Lemma insert_StronglySorted (x : A) (l : list A) :
  StronglySorted (fun a b => key a <= key b) l -> StronglySorted (fun a b => key a <= key b) (JS.insert (fun a b => key a - key b) x l).
Proof.
  induction 1 as [|y l Hs IH Hall]; simpl.
  - repeat constructor.
  - destruct (Z.leb_spec (key x - key y) 0) as [Hle|Hgt].
    + constructor; [now constructor|].
      constructor; [lia|].
      eapply Forall_impl; [|exact Hall].
      simpl; intros; lia.
    + constructor; [exact IH|].
      eapply Permutation_Forall;
        [symmetry; apply insert_Permutation|].
      constructor; [lia | exact Hall].
Qed.

Lemma sort_StronglySorted (l : list A) :
  StronglySorted (fun a b => key a <= key b) (JS.sort (fun a b => key a - key b) l).
Proof.
  induction l as [|x l IH]; simpl; [constructor|].
  now apply insert_StronglySorted.
Qed.
End SortFacts.

Lemma ascending_sort_Permutation (l : list Z) : Permutation (ascending_sort l) l.
Proof. exact (sort_Permutation (fun x => x) l). Qed.

Lemma ascending_sort_StronglySorted (l : list Z) :
  StronglySorted Z.le (ascending_sort l).
Proof. exact (sort_StronglySorted (fun x => x) l). Qed.

(** An ascending list is determined by its elements. *)
Lemma ascending_unique (s1 s2 : list Z) :
  StronglySorted Z.le s1 -> StronglySorted Z.le s2 -> Permutation s1 s2 ->
  s1 = s2.
Proof.
  intros H1; revert s2; induction H1 as [|x s1 Hs1 IH Hall1];
    intros s2 H2 Hp.
  - now apply Permutation_nil in Hp.
  - destruct H2 as [|y s2 Hs2 Hall2].
    + symmetry in Hp; now apply Permutation_nil in Hp.
    + assert (Hxy : x = y).
      { assert (Hx : In x (y :: s2))
          by (eapply Permutation_in; [exact Hp | now left]).
        assert (Hy : In y (x :: s1))
          by (eapply Permutation_in; [symmetry; exact Hp | now left]).
        rewrite Forall_forall in Hall1, Hall2.
        destruct Hx as [Hx|Hx]; [now symmetry|].
        destruct Hy as [Hy|Hy]; [assumption|].
        specialize (Hall1 _ Hy); specialize (Hall2 _ Hx); lia. }
      subst y; f_equal; apply IH; [exact Hs2|].
      now apply Permutation_cons_inv in Hp.
Qed.


Lemma ascending_nth_le (s : list Z) :
  StronglySorted Z.le s ->
  forall i j, (i <= j < List.length s)%nat -> nth i s 0 <= nth j s 0.
Proof.
  induction 1 as [|x s Hs IH Hall]; intros i j Hij; simpl in Hij; [lia|].
  destruct i as [|i], j as [|j]; simpl; try lia.
  - rewrite Forall_forall in Hall; apply Hall, nth_In; lia.
  - apply IH; lia.
Qed.

(** ** Rolling windows *)

Lemma filter_count_from (lo : Z) (l : list Z) :
  JS.length (filter (fun ts => ts >=? lo) l) = count_from lo l.
Proof.
  unfold JS.length; induction l as [|t l IH]; [reflexivity|].
  cbn [filter count_from]; rewrite <- IH, Z.geb_leb.
  destruct (Z.leb_spec lo t), (Z_le_dec lo t);
    cbn [List.length]; rewrite ?Nat2Z.inj_succ; lia.
Qed.

Lemma count_from_antitone (lo hi : Z) (l : list Z) :
  lo <= hi -> count_from hi l <= count_from lo l.
Proof.
  intros Hle; induction l as [|t l IH]; simpl; [lia|].
  destruct (Z_le_dec hi t), (Z_le_dec lo t); lia.
Qed.

(** C6: the three window counts are the numbers of timestamps at or
    after [now - W * 86400] for [W] = 7, 30, 90, they satisfy
    [trades7d <= trades30d <= trades90d], a timestamp exactly on the lower
    bound counts and one second earlier does not, and a timestamp at or
    after [now] counts in every window. *)
Theorem rolling_windows_monotone (timestamps : list Z) (now : Z) :
  let r := computeRollingWindows timestamps now in
  last7d r = count_from (now - 7 * 86400) timestamps
  /\ last30d r = count_from (now - 30 * 86400) timestamps
  /\ last90d r = count_from (now - 90 * 86400) timestamps
  /\ last7d r <= last30d r <= last90d r
  /\ (forall W, count_from (now - W * 86400) [now - W * 86400] = 1
             /\ count_from (now - W * 86400) [now - W * 86400 - 1] = 0)
  /\ (forall ahead : nat,
        computeRollingWindows (now + Z.of_nat ahead :: timestamps) now
        = {| last7d := last7d r + 1;
             last30d := last30d r + 1;
             last90d := last90d r + 1 |}).
Proof.
  cbv zeta; unfold computeRollingWindows, SECONDS_PER_DAY; cbn [last7d last30d last90d].
  rewrite !filter_count_from.
  repeat split.
  - apply count_from_antitone; lia.
  - apply count_from_antitone; lia.
  - simpl; destruct (Z_le_dec _ _); lia.
  - simpl; destruct (Z_le_dec _ _); lia.
  - intros ahead. rewrite !filter_count_from. cbn [count_from].
    repeat match goal with
           | |- context [Z_le_dec ?a ?b] => destruct (Z_le_dec a b); [|lia]
           end.
    f_equal; lia.
Qed.

(** ** Trust score *)

Lemma Qmin_one_bounds (x : Q) : (0 <= x -> 0 <= Qmin 1 x /\ Qmin 1 x <= 1)%Q.
Proof.
  intros Hx; split.
  - apply Q.min_glb; [lra | exact Hx].
  - apply Q.le_min_l.
Qed.

Lemma Qmin_one_mono (x y : Q) : (x <= y -> Qmin 1 x <= Qmin 1 y)%Q.
Proof. intros H; now apply Q.min_le_compat_l. Qed.

(** The score is the floor of the three terms added from left to right:
    adding the first term to 0 and dividing by 1 change nothing. *)
Lemma score_sum (d v n : Q) :
  calculateScore d v n
  = Qfloor (JS.add (JS.add (score_term d 365 30) (score_term v 100000000 40))
                   (score_term n 100 30)).
Proof.
  unfold calculateScore, score_term, JS.Math_floor.
  now rewrite add_zero_mul, div_div_one.
Qed.

Lemma score_term_mono (x y cap weight : Q) :
  (0 < cap)%Q -> (0 <= weight)%Q -> (x <= y)%Q ->
  (score_term x cap weight <= score_term y cap weight)%Q.
Proof.
  intros Hc Hw Hxy; unfold score_term, JS.Math_min.
  apply mul_mono; [exact Hw|].
  apply Qmin_one_mono, div_mono; assumption.
Qed.

Lemma score_term_le (x cap : Q) (weight : Z) :
  0 <= weight <= 2 ^ 53 ->
  (score_term x cap (inject_Z weight) <= inject_Z weight)%Q.
Proof.
  intros Hw; unfold score_term, JS.Math_min.
  apply mul_le_Z; [lia|].
  pose proof (Q.le_min_l 1 (JS.div x cap)) as Hmin.
  assert (Hq : (0 <= inject_Z weight)%Q)
    by (change 0%Q with (inject_Z 0); rewrite <- Zle_Qle; lia).
  apply Qle_trans with (1 * inject_Z weight)%Q; [|lra].
  now apply Qmult_le_compat_r.
Qed.

Lemma score_term_nonneg (x cap weight : Q) :
  (0 < cap)%Q -> (0 <= weight)%Q -> (0 <= x)%Q ->
  (0 <= score_term x cap weight)%Q.
Proof.
  intros Hc Hw Hx; unfold score_term, JS.Math_min, JS.mul.
  apply round64_nonneg, Qmult_le_0_compat; [|exact Hw].
  apply Qmin_one_bounds, div_nonneg; assumption.
Qed.

(** The score is at most the floor of the sum of any bounds of its
    terms. *)
Lemma score_le_terms (d v n a b c : Q) :
  (score_term d 365 30 <= a)%Q ->
  (score_term v 100000000 40 <= b)%Q ->
  (score_term n 100 30 <= c)%Q ->
  calculateScore d v n <= Qfloor (JS.add (JS.add a b) c).
Proof.
  intros Ha Hb Hc; rewrite score_sum.
  apply Qfloor_resp_le, add_mono; [apply add_mono|]; assumption.
Qed.

Lemma score_mono (d d' v v' n n' : Q) :
  (d <= d')%Q -> (v <= v')%Q -> (n <= n')%Q ->
  calculateScore d v n <= calculateScore d' v' n'.
Proof.
  intros Hd Hv Hn; rewrite (score_sum d' v' n').
  apply score_le_terms; apply score_term_mono; trivial; lra.
Qed.

Lemma score_le_100 (d v n : Q) : calculateScore d v n <= 100.
Proof.
  change 100 with (Qfloor (JS.add (JS.add 30 40) 30)).
  apply score_le_terms.
  - apply (score_term_le d 365 30); lia.
  - apply (score_term_le v 100000000 40); lia.
  - apply (score_term_le n 100 30); lia.
Qed.

Lemma score_nonneg (d v n : Q) :
  (0 <= d)%Q -> (0 <= v)%Q -> (0 <= n)%Q -> 0 <= calculateScore d v n.
Proof.
  intros Hd Hv Hn; rewrite score_sum.
  pose proof (score_term_nonneg d 365 30 ltac:(lra) ltac:(lra) Hd).
  pose proof (score_term_nonneg v 100000000 40 ltac:(lra) ltac:(lra) Hv).
  pose proof (score_term_nonneg n 100 30 ltac:(lra) ltac:(lra) Hn).
  apply (Qfloor_resp_le 0), round64_nonneg.
  assert (0 <= JS.add (score_term d 365 30) (score_term v 100000000 40))%Q
    by (apply round64_nonneg; lra).
  lra.
Qed.

(** C4: for non-negative inputs the score is the floor of the sum of the
    three capped linear terms, each [/], [*] and [+] being the one of
    binary64 numbers, and lies between 0 and 100; the floor is taken
    once, of the sum; [score (365, 1e8, 100) = 100] and
    [score (0, 0, 0) = 0]. *)
Theorem calculateScore_spec (daysActive volumeSats successfulTrades : Q) :
  (0 <= daysActive)%Q -> (0 <= volumeSats)%Q -> (0 <= successfulTrades)%Q ->
  calculateScore daysActive volumeSats successfulTrades
  = Qfloor (JS.add (JS.add (JS.mul (Qmin 1 (JS.div daysActive 365)) 30)
                           (JS.mul (Qmin 1 (JS.div volumeSats 100000000)) 40))
                   (JS.mul (Qmin 1 (JS.div successfulTrades 100)) 30))
  /\ 0 <= calculateScore daysActive volumeSats successfulTrades <= 100
  /\ calculateScore 365 100000000 100 = 100
  /\ calculateScore 0 0 0 = 0
  /\ (calculateScore 0 2000000 3 = 1
      /\ Qfloor (JS.mul (Qmin 1 (JS.div 0 365)) 30)
         + Qfloor (JS.mul (Qmin 1 (JS.div 2000000 100000000)) 40)
         + Qfloor (JS.mul (Qmin 1 (JS.div 3 100)) 30) = 0).
Proof.
  intros Hd Hv Hn.
  split; [apply score_sum|].
  split; [split; [now apply score_nonneg | apply score_le_100]|].
  repeat split; vm_compute; reflexivity.
Qed.

Lemma calculateScore_spec_witness :
  (0 <= 200)%Q /\ (0 <= 50000000)%Q /\ (0 <= 10)%Q
  /\ 0 <= calculateScore 200 50000000 10 <= 100.
Proof.
  assert (Hd : (0 <= 200)%Q) by (vm_compute; discriminate).
  assert (Hv : (0 <= 50000000)%Q) by (vm_compute; discriminate).
  assert (Hn : (0 <= 10)%Q) by (vm_compute; discriminate).
  split; [exact Hd|]. split; [exact Hv|]. split; [exact Hn|].
  exact (proj1 (proj2 (calculateScore_spec 200 50000000 10 Hd Hv Hn))).
Defined.

(** ** Trade statistics *)

Lemma sum_list_nonneg (l : list Z) :
  (forall x, In x l -> 0 <= x) -> 0 <= sum_list l.
Proof.
  induction l as [|x l IH]; intros Hl; simpl; [lia|].
  pose proof (Hl x (or_introl eq_refl)).
  assert (0 <= sum_list l) by (apply IH; intros y Hy; apply Hl; now right).
  unfold sum_list in *; lia.
Qed.

(** Doubles add exactly as long as the sum stays in the safe range. *)
Lemma add_Z (a b : Z) :
  Z.abs (a + b) <= 2 ^ 53 ->
  JS.add (inject_Z a) (inject_Z b) = inject_Z (a + b).
Proof.
  intros H; unfold JS.add.
  rewrite (round64_comp _ (inject_Z (a + b))) by (now rewrite inject_Z_plus).
  now apply round64_Z.
Qed.

Lemma fold_left_add_sum (l : list Z) (acc : Z) :
  0 <= acc -> (forall x, In x l -> 0 <= x) -> acc + sum_list l <= 2 ^ 53 ->
  fold_left (fun acc val => JS.add acc (inject_Z val)) l (inject_Z acc)
  = inject_Z (acc + sum_list l).
Proof.
  revert acc; induction l as [|x l IH]; intros acc Hacc Hl Hsum.
  - simpl; f_equal; lia.
  - pose proof (Hl x (or_introl eq_refl)) as Hx.
    assert (Hl' : forall y, In y l -> 0 <= y)
      by (intros y Hy; apply Hl; now right).
    pose proof (sum_list_nonneg l Hl') as Hrest.
    cbn [fold_left sum_list fold_right] in *; fold (sum_list l) in *.
    rewrite add_Z by lia.
    rewrite IH; [f_equal; lia | lia | exact Hl' | lia].
Qed.

Lemma double_sum_exact (l : list Z) :
  safe_amounts l -> double_sum l = inject_Z (sum_list l).
Proof.
  intros [Hl Hsum]; unfold double_sum, JS.MAX_SAFE_INTEGER in *.
  change 0%Q with (inject_Z 0).
  rewrite fold_left_add_sum; [reflexivity | lia | exact Hl | simpl; lia].
Qed.

Lemma at_index_nth (l : list Z) (i : nat) :
  JS.at_index l (Z.of_nat i) = nth i l 0.
Proof. unfold JS.at_index; now rewrite Nat2Z.id. Qed.



(** ** Activity consistency *)

Lemma Set_add_In (s : list Z) (x y : Z) :
  In y (JS.Set_add s x) <-> In y s \/ y = x.
Proof.
  unfold JS.Set_add; destruct (existsb (Z.eqb x) s) eqn:E.
  - split; [now left|]. intros [H| ->]; [exact H|].
    apply existsb_exists in E as (z & Hz & Heq).
    apply Z.eqb_eq in Heq; now subst.
  - rewrite in_app_iff; simpl; intuition congruence.
Qed.

Lemma Set_add_NoDup (s : list Z) (x : Z) : NoDup s -> NoDup (JS.Set_add s x).
Proof.
  intros Hnd; unfold JS.Set_add; destruct (existsb (Z.eqb x) s) eqn:E;
    [exact Hnd|].
  apply NoDup_app; [exact Hnd | repeat constructor; intros [] |].
  intros y Hy [<-|[]].
  assert (existsb (Z.eqb x) s = true); [|congruence].
  apply existsb_exists; exists x; split; [exact Hy | apply Z.eqb_refl].
Qed.

Lemma Set_fold_spec (l acc : list Z) :
  NoDup acc ->
  NoDup (fold_left JS.Set_add l acc)
  /\ forall y, In y (fold_left JS.Set_add l acc) <-> In y acc \/ In y l.
Proof.
  revert acc; induction l as [|x l IH]; intros acc Hnd; simpl.
  - split; [exact Hnd | intuition].
  - destruct (IH _ (Set_add_NoDup acc x Hnd)) as [H1 H2].
    split; [exact H1|].
    intros y; rewrite H2, Set_add_In; intuition.
Qed.

Lemma Set_from_NoDup (l : list Z) : NoDup (JS.Set_from l).
Proof. apply Set_fold_spec; constructor. Qed.

Lemma Set_from_In (l : list Z) (y : Z) : In y (JS.Set_from l) <-> In y l.
Proof.
  unfold JS.Set_from.
  destruct (Set_fold_spec l [] (NoDup_nil _)) as [_ H].
  rewrite H; simpl; intuition.
Qed.

Lemma Sorted_lt_StronglySorted (l : list Z) :
  Sorted Z.lt l -> StronglySorted Z.lt l.
Proof. apply Sorted_StronglySorted; intros x y z; apply Z.lt_trans. Qed.

Lemma StronglySorted_lt_NoDup (l : list Z) : StronglySorted Z.lt l -> NoDup l.
Proof.
  induction 1 as [|x l Hs IH Hall]; constructor; [|exact IH].
  intros Hin; rewrite Forall_forall in Hall; specialize (Hall _ Hin); lia.
Qed.

Lemma StronglySorted_lt_le (l : list Z) :
  StronglySorted Z.lt l -> StronglySorted Z.le l.
Proof.
  induction 1 as [|x l Hs IH Hall]; constructor; [exact IH|].
  eapply Forall_impl; [|exact Hall]; simpl; intros; lia.
Qed.

(** The sorted array of a [Set] is the strictly ascending list of the
    distinct elements. *)
Lemma sorted_set_unique (l days : list Z) :
  Sorted Z.lt days -> (forall d, In d days <-> In d l) ->
  ascending_sort (JS.Set_from l) = days.
Proof.
  intros Hs Hin.
  apply Sorted_lt_StronglySorted in Hs.
  apply ascending_unique.
  - apply ascending_sort_StronglySorted.
  - now apply StronglySorted_lt_le.
  - rewrite ascending_sort_Permutation.
    apply NoDup_Permutation.
    + apply Set_from_NoDup.
    + now apply StronglySorted_lt_NoDup.
    + intros d; now rewrite Set_from_In, Hin.
Qed.

Lemma last_cons (l : list Z) (x d : Z) : last (x :: l) d = last l x.
Proof.
  revert x d; induction l as [|y l IH]; intros x d; [reflexivity|].
  change (last (x :: y :: l) d) with (last (y :: l) d).
  now rewrite !IH.
Qed.

Lemma gap_walk (days : list Z) (st : GapWalk) :
  let st' := fold_left gap_step days st in
  let gaps := day_gaps (walk_prevDay st) days in
  walk_prevDay st' = last days (walk_prevDay st)
  /\ walk_maxGap st <= walk_maxGap st'
  /\ (forall g, In g gaps -> g <= walk_maxGap st')
  /\ (walk_maxGap st' = walk_maxGap st \/ In (walk_maxGap st') gaps).
Proof.
  revert st; induction days as [|day days IH]; intros st; cbn zeta.
  - simpl; repeat split; [lia | intros g [] | now left].
  - cbn [fold_left day_gaps].
    destruct (IH (gap_step st day)) as (Hprev & Hmono & Hub & Hin).
    cbn [gap_step walk_prevDay walk_maxGap] in Hprev, Hmono, Hub, Hin.
    unfold JS.Math_max in Hmono, Hin.
    set (st' := fold_left gap_step days (gap_step st day)) in *.
    repeat split.
    + rewrite Hprev; symmetry; apply last_cons.
    + lia.
    + intros g [<-|Hg]; [lia | now apply Hub].
    + destruct Hin as [Heq|Hin]; [|right; now right].
      rewrite Heq.
      destruct (Z.max_spec (walk_maxGap st) (Z.max 0 (day - walk_prevDay st - 1)))
        as [[_ ->]|[_ ->]]; [right; now left | now left].
Qed.

(** C7: with [days] the strictly ascending list of the calendar days
    [floor (ts / 86400)] of the timestamps at or after [now - 30 * 86400]:
    when there is none the result is [activeDays = 0], [maxGap = 30];
    otherwise [activeDays] is the number of those days and [maxGap] is the
    largest of the gaps before each day, [day - previousDay - 1] clamped at
    0 with the first one measured from the day of [now - 30 * 86400], and
    of the final gap from the last active day to [floor (now / 86400)]. *)
Theorem computeActivityConsistency_spec (timestamps : list Z) (now : Z)
        (days : list Z) :
  Sorted Z.lt days ->
  (forall d, In d days <->
             exists ts, In ts timestamps /\ now - 30 * 86400 <= ts
                        /\ d = ts / 86400) ->
  let r := computeActivityConsistency timestamps now in
  let day30Start := (now - 30 * 86400) / 86400 in
  let today := now / 86400 in
  let gaps :=
    day_gaps day30Start days ++ [Z.max 0 (today - last days day30Start)] in
  (days = [] -> activeDays r = 0 /\ maxGap r = 30)
  /\ (days <> [] ->
      activeDays r = JS.length days
      /\ In (maxGap r) gaps
      /\ forall g, In g gaps -> g <= maxGap r).
Proof.
  intros Hsorted Hdays r day30Start today gaps.
  set (buckets :=
         map (fun ts => JS.floor_div ts SECONDS_PER_DAY)
             (filter (fun ts => ts >=? now - 30 * SECONDS_PER_DAY) timestamps)).
  assert (Hb : forall d, In d days <-> In d buckets).
  { intros d; rewrite Hdays; unfold buckets.
    rewrite in_map_iff; unfold SECONDS_PER_DAY.
    split.
    - intros (ts & Hin & Hge & ->); exists ts.
      rewrite floor_div_Zdiv, filter_In, Z.geb_le; auto.
    - intros (ts & <- & Hin); rewrite filter_In, Z.geb_le in Hin.
      exists ts; rewrite floor_div_Zdiv; tauto. }
  pose proof (sorted_set_unique buckets days Hsorted Hb) as Hsort.
  assert (Hlen : JS.length (JS.Set_from buckets) = JS.length days).
  { unfold JS.length; f_equal; rewrite <- Hsort.
    symmetry; apply Permutation_length, ascending_sort_Permutation. }
  assert (Hr : r = if JS.length days =? 0
                   then {| activeDays := 0; maxGap := 30 |}
                   else
                     let st := fold_left gap_step days
                                 {| walk_maxGap := 0;
                                    walk_prevDay := day30Start |} in
                     {| activeDays := JS.length days;
                        maxGap := Z.max (walk_maxGap st)
                                        (Z.max 0 (today - walk_prevDay st)) |}).
  { unfold r, computeActivityConsistency; fold buckets.
    fold (ascending_sort (JS.Set_from buckets)).
    rewrite Hsort, Hlen, !floor_div_Zdiv.
    reflexivity. }
  split.
  - intros ->; rewrite Hr; simpl; split; reflexivity.
  - intros Hne; rewrite Hr.
    destruct (Z.eqb_spec (JS.length days) 0) as [H0|_];
      [apply length_zero_iff in H0; contradiction|].
    cbn zeta; cbn [activeDays maxGap].
    split; [reflexivity|].
    destruct (gap_walk days {| walk_maxGap := 0; walk_prevDay := day30Start |})
      as (Hprev & Hmono & Hub & Hin).
    cbn [walk_maxGap walk_prevDay] in Hprev, Hmono, Hub, Hin.
    set (st := fold_left gap_step days _) in *.
    rewrite Hprev; unfold gaps.
    set (final := Z.max 0 (today - last days day30Start)).
    split.
    + rewrite in_app_iff; simpl.
      destruct (Z.max_spec (walk_maxGap st) final) as [[_ ->]|[Hle ->]];
        [right; now left|].
      destruct Hin as [H0|Hin]; [|now left].
      right; left; unfold final in *; lia.
    + intros g; rewrite in_app_iff; simpl.
      intros [Hg|[<-|[]]]; [specialize (Hub _ Hg)|]; lia.
Qed.

Lemma computeActivityConsistency_spec_witness :
  let now := 2592000 + 86400 * 10 in
  let timestamps := [now - 86400 * 5; now - 86400 * 5 + 3; now; 17] in
  Sorted Z.lt [35; 40]
  /\ activeDays (computeActivityConsistency timestamps now) = 2
  /\ maxGap (computeActivityConsistency timestamps now) = 24.
Proof.
  intros now timestamps.
  assert (Hs : Sorted Z.lt [35; 40]) by (repeat constructor).
  assert (Hd : forall d, In d [35; 40] <->
             exists ts, In ts timestamps /\ now - 30 * 86400 <= ts
                        /\ d = ts / 86400).
  { intros d; split.
    - intros [<-|[<-|[]]].
      + exists (now - 86400 * 5); repeat split;
          [now left | discriminate].
      + exists now; repeat split; [right; right; now left | discriminate].
    - intros (ts & [<-|[<-|[<-|[<-|[]]]]] & Hge & ->); vm_compute in Hge |- *;
        auto; now contradiction Hge. }
  destruct (computeActivityConsistency_spec timestamps now [35; 40] Hs Hd)
    as [_ H].
  destruct H as (Ha & _ & _); [discriminate|].
  split; [exact Hs|]. split; [exact Ha|].
  vm_compute; reflexivity.
Defined.

(** ** [Map] *)

Section MapFacts.
Context {V : Type}.
Implicit Types (m : JS.Map V) (k : string) (v : V).

Lemma Map_get_set_same m k v : JS.Map_get (JS.Map_set m k v) k = Some v.
Proof.
  induction m as [|[k' v'] m IH]; simpl.
  - now rewrite String.eqb_refl.
  - destruct (String.eqb_spec k' k) as [->|Hne]; simpl.
    + now rewrite String.eqb_refl.
    + destruct (String.eqb_spec k' k); [contradiction | exact IH].
Qed.

Lemma Map_get_set_other m k k' v :
  k' <> k -> JS.Map_get (JS.Map_set m k v) k' = JS.Map_get m k'.
Proof.
  intros Hne; induction m as [|[k0 v0] m IH]; simpl.
  - destruct (String.eqb_spec k k'); [congruence | reflexivity].
  - destruct (String.eqb_spec k0 k) as [->|Hk]; simpl.
    + destruct (String.eqb_spec k k'); [congruence | reflexivity].
    + destruct (String.eqb_spec k0 k'); [reflexivity | exact IH].
Qed.

Lemma Map_get_None m k : JS.Map_get m k = None <-> ~ In k (JS.Map_keys m).
Proof.
  induction m as [|[k' v'] m IH]; simpl; [tauto|].
  destruct (String.eqb_spec k' k) as [->|Hne].
  - split; [discriminate | intros H; exfalso; apply H; now left].
  - rewrite IH; tauto.
Qed.

Lemma Map_get_In m k v : JS.Map_get m k = Some v -> In (k, v) m.
Proof.
  induction m as [|[k' v'] m IH]; simpl; [discriminate|].
  destruct (String.eqb_spec k' k) as [->|Hne].
  - intros [= ->]; now left.
  - intros H; right; now apply IH.
Qed.

Lemma Map_In_get m k v :
  NoDup (JS.Map_keys m) -> In (k, v) m -> JS.Map_get m k = Some v.
Proof.
  induction m as [|[k' v'] m IH]; simpl; [intros _ []|].
  intros Hnd; apply NoDup_cons_iff in Hnd as [Hnotin Hnd].
  intros [[= -> ->]|Hin].
  - now rewrite String.eqb_refl.
  - destruct (String.eqb_spec k' k) as [->|Hne]; [|now apply IH].
    exfalso; apply Hnotin; change k with (fst (k, v)); now apply in_map.
Qed.

(** A new key goes to the end. *)
Lemma Map_set_absent m k v :
  JS.Map_get m k = None -> JS.Map_set m k v = m ++ [(k, v)].
Proof.
  induction m as [|[k' v'] m IH]; simpl; [reflexivity|].
  destruct (String.eqb_spec k' k); [discriminate|].
  intros H; now rewrite IH.
Qed.

(** A key that is present keeps its place. *)
Lemma Map_set_present m k v v0 :
  JS.Map_get m k = Some v0 -> JS.Map_keys (JS.Map_set m k v) = JS.Map_keys m.
Proof.
  induction m as [|[k' v'] m IH]; simpl; [discriminate|].
  destruct (String.eqb_spec k' k) as [->|Hne]; simpl; [reflexivity|].
  intros H; now rewrite IH.
Qed.

Lemma Map_keys_app m1 m2 :
  JS.Map_keys (m1 ++ m2) = JS.Map_keys m1 ++ JS.Map_keys m2.
Proof. apply map_app. Qed.
End MapFacts.

(** ** Deduplication *)

Lemma dedup_step_cases (m : JS.Map Event) (e : Event) :
  dedup_step m e
  = match order_id e with
    | Some key =>
        match JS.Map_get m key with
        | Some existing =>
            if created_at e >? created_at existing
            then JS.Map_set m key e
            else m
        | None => JS.Map_set m key e
        end
    | None => m
    end.
Proof.
  unfold dedup_step, order_id, JS.truthy.
  destruct (getTagValue e "d") as [key|]; [|reflexivity].
  destruct (String.eqb key ""); reflexivity.
Qed.

Lemma dedup_snoc (events : list Event) (e : Event) :
  dedup (events ++ [e]) = dedup_step (dedup events) e.
Proof. unfold dedup; now rewrite fold_left_app. Qed.

Lemma winner_snoc (events : list Event) (key : string) (w e : Event) :
  winner events key w ->
  (order_id e = Some key -> created_at e <= created_at w) ->
  winner (events ++ [e]) key w.
Proof.
  intros (before & after & -> & Hid & Hb & Ha) Hle.
  exists before, (after ++ [e]); repeat split; trivial.
  - now rewrite <- app_assoc.
  - intros e' Hin Hid'; apply in_app_iff in Hin as [Hin|[<-|[]]]; auto.
Qed.

Lemma winner_bound (events : list Event) (key : string) (w : Event) :
  winner events key w ->
  forall e, In e events -> order_id e = Some key ->
            created_at e <= created_at w.
Proof.
  intros (before & after & -> & Hid & Hb & Ha) e Hin Hide.
  apply in_app_iff in Hin as [Hin|[<-|Hin]];
    [apply Z.lt_le_incl; auto | lia | auto].
Qed.

Lemma winner_last (events : list Event) (key : string) (e : Event) :
  order_id e = Some key ->
  (forall e', In e' events -> order_id e' = Some key ->
              created_at e' < created_at e) ->
  winner (events ++ [e]) key e.
Proof.
  intros Hid Hlt; exists events, []; repeat split; trivial.
  intros e' [].
Qed.

(** What the first loop maintains about [ordersMap]. *)
Lemma dedup_invariant (events : list Event) :
  NoDup (JS.Map_keys (dedup events))
  /\ (forall key, In key (JS.Map_keys (dedup events)) <->
                  exists e, In e events /\ order_id e = Some key)
  /\ (forall key e, JS.Map_get (dedup events) key = Some e ->
                    winner events key e).
Proof.
  induction events as [|e events (Hnd & Hkeys & Hwin)] using rev_ind.
  - repeat split; simpl; [constructor | intros [] | intros (e & [] & _) |
                          discriminate].
  - rewrite dedup_snoc, dedup_step_cases.
    set (m := dedup events) in *.
    assert (Hseen : forall key,
              (exists e0, In e0 (events ++ [e]) /\ order_id e0 = Some key) <->
              In key (JS.Map_keys m) \/ order_id e = Some key).
    { intros key; rewrite Hkeys; split.
      - intros (e0 & Hin & Hid); apply in_app_iff in Hin as [Hin|[<-|[]]];
          [left; eauto | now right].
      - intros [(e0 & Hin & Hid)|Hid];
          [exists e0 | exists e]; rewrite in_app_iff; simpl; auto. }
    destruct (order_id e) as [k0|] eqn:Hid.
    2:{ repeat split; trivial.
        - rewrite Hseen; now left.
        - rewrite Hseen; intros [H|H]; [exact H | discriminate].
        - intros key w Hget; apply winner_snoc; [auto | congruence]. }
    assert (Hset_keys : forall key,
              In key (JS.Map_keys (JS.Map_set m k0 e)) <->
              In key (JS.Map_keys m) \/ Some k0 = Some key).
    { intros key; destruct (JS.Map_get m k0) as [ex|] eqn:Hget.
      - rewrite (Map_set_present _ _ _ _ Hget).
        split; [now left | intros [H|[= <-]]; [exact H|]].
        apply Map_get_In in Hget.
        change k0 with (fst (k0, ex)); now apply in_map.
      - rewrite (Map_set_absent _ _ _ Hget), Map_keys_app, in_app_iff; simpl.
        split; intros [H|H]; auto.
        + destruct H as [<-|[]]; now right.
        + injection H as <-; right; now left. }
    assert (Hset_nd : NoDup (JS.Map_keys (JS.Map_set m k0 e))).
    { destruct (JS.Map_get m k0) as [ex|] eqn:Hget.
      - now rewrite (Map_set_present _ _ _ _ Hget).
      - rewrite (Map_set_absent _ _ _ Hget), Map_keys_app; simpl.
        apply NoDup_app; [exact Hnd | repeat constructor; intros [] |].
        intros key Hin [<-|[]]; now apply Map_get_None in Hget. }
    assert (Hset_win : (forall ex, JS.Map_get m k0 = Some ex ->
                                   created_at ex < created_at e) ->
              forall key w, JS.Map_get (JS.Map_set m k0 e) key = Some w ->
                            winner (events ++ [e]) key w).
    { intros Hgt key w.
      destruct (string_dec key k0) as [->|Hne].
      - rewrite Map_get_set_same; intros [= <-].
        apply winner_last; [exact Hid|].
        intros e' Hin Hid'.
        destruct (JS.Map_get m k0) as [ex|] eqn:Hget.
        + pose proof (winner_bound _ _ _ (Hwin _ _ Hget) _ Hin Hid').
          specialize (Hgt _ eq_refl); lia.
        + apply Map_get_None in Hget; exfalso; apply Hget, Hkeys; eauto.
      - rewrite Map_get_set_other by exact Hne.
        intros Hget; apply winner_snoc; [auto | congruence]. }
    destruct (JS.Map_get m k0) as [ex|] eqn:Hget.
    + destruct (Z.gtb_spec (created_at e) (created_at ex)) as [Hgt|Hle].
      * repeat split; trivial.
        -- rewrite Hset_keys, Hseen; tauto.
        -- rewrite Hset_keys, Hseen; tauto.
        -- apply Hset_win; intros ex' [= <-]; lia.
      * repeat split; trivial.
        -- rewrite Hseen; now left.
        -- rewrite Hseen; intros [H|[= <-]]; [exact H|].
           apply Map_get_In in Hget.
           change k0 with (fst (k0, ex)); now apply in_map.
        -- intros key w Hgetw; apply winner_snoc; [auto|].
           intros Hk; rewrite Hid in Hk; injection Hk as <-.
           rewrite Hget in Hgetw; injection Hgetw as <-; lia.
    + repeat split; trivial.
      * rewrite Hset_keys, Hseen; tauto.
      * rewrite Hset_keys, Hseen; tauto.
      * apply Hset_win; discriminate.
Qed.

(** With equal timestamps the event iterated first stays in the map: the
    second update of order [A] does not replace the first. *)
Lemma dedup_tie_keeps_first :
  order_id tie_first = Some "A"%string
  /\ order_id tie_second = Some "A"%string
  /\ created_at tie_first = created_at tie_second
  /\ JS.Map_get (dedup [tie_first; tie_second]) "A" = Some tie_first
  /\ JS.Map_get (dedup [tie_first; tie_second]) "A" <> Some tie_second.
Proof. repeat split; vm_compute; congruence. Qed.

(** C2 (amended): the map holds one record per distinct truthy ['d']
    value seen; every event with that identifier has a [created_at] at
    most that of the record; the record is the first event in iteration
    order among those with the greatest [created_at], so on equal
    timestamps the one iterated earlier is kept; and a stored record is
    replaced exactly when the incoming timestamp is strictly greater. *)
Theorem dedup_canonical (events : list Event) :
  let m := dedup events in
  NoDup (JS.Map_keys m)
  /\ (forall key, In key (JS.Map_keys m) <->
                  exists e, In e events /\ order_id e = Some key)
  /\ (forall key e, In e events -> order_id e = Some key ->
        exists record, JS.Map_get m key = Some record
                       /\ created_at e <= created_at record)
  /\ (forall key record, JS.Map_get m key = Some record ->
                         winner events key record)
  /\ (forall (m0 : JS.Map Event) incoming key stored,
        order_id incoming = Some key -> JS.Map_get m0 key = Some stored ->
        JS.Map_get (dedup_step m0 incoming) key
        = Some (if created_at stored <? created_at incoming
                then incoming else stored)).
Proof.
  destruct (dedup_invariant events) as (Hnd & Hkeys & Hwin); cbv zeta.
  repeat split; trivial; try apply Hkeys.
  - intros key e Hin Hid.
    destruct (JS.Map_get (dedup events) key) as [record|] eqn:Hget.
    + exists record; split; [reflexivity|].
      eapply winner_bound; eauto.
    + apply Map_get_None in Hget; exfalso; apply Hget, Hkeys; eauto.
  - intros m0 incoming key stored Hid Hget.
    rewrite dedup_step_cases, Hid, Hget, Z.gtb_ltb.
    destruct (created_at stored <? created_at incoming);
      [apply Map_get_set_same | exact Hget].
Qed.

Lemma dedup_canonical_witness :
  JS.Map_get (dedup [tie_first; tie_second]) "A" = Some tie_first
  /\ winner [tie_first; tie_second] "A" tie_first.
Proof.
  assert (Hget : JS.Map_get (dedup [tie_first; tie_second]) "A"
                 = Some tie_first) by reflexivity.
  split; [exact Hget|].
  exact (proj1 (proj2 (proj2 (proj2
           (dedup_canonical [tie_first; tie_second])))) _ _ Hget).
Defined.

Lemma dedup_rebuild (m m0 : JS.Map Event) :
  NoDup (JS.Map_keys (m0 ++ m)) ->
  (forall key e, In (key, e) m -> order_id e = Some key) ->
  fold_left dedup_step (JS.Map_values m) m0 = m0 ++ m.
Proof.
  revert m0; induction m as [|[key e] m IH]; intros m0 Hnd Hid; simpl.
  - now rewrite app_nil_r.
  - assert (Hfresh : JS.Map_get m0 key = None).
    { apply Map_get_None; intros Hin.
      rewrite Map_keys_app in Hnd; simpl in Hnd.
      apply NoDup_remove_2 in Hnd; apply Hnd, in_app_iff; now left. }
    rewrite dedup_step_cases, (Hid key e) by now left.
    rewrite Hfresh, (Map_set_absent _ _ _ Hfresh), IH.
    + now rewrite <- app_assoc.
    + now rewrite <- app_assoc.
    + intros key' e' Hin; apply Hid; now right.
Qed.

(** C9: the deduplicator run on the records of its own output, in their
    iteration order, rebuilds the same map. *)
Theorem dedup_idempotent (events : list Event) :
  dedup (JS.Map_values (dedup events)) = dedup events.
Proof.
  destruct (dedup_invariant events) as (Hnd & _ & Hwin).
  unfold dedup at 1; rewrite dedup_rebuild; trivial.
  intros key e Hin.
  apply Map_In_get in Hin; [|exact Hnd].
  now destruct (Hwin _ _ Hin) as (_ & _ & _ & Hid & _).
Qed.

(** ** The loop over the order events *)

Lemma scan_snoc (events : list Event) (e : Event) :
  scan (events ++ [e]) = scan_step (scan events) e.
Proof. unfold scan; now rewrite fold_left_app. Qed.

Lemma scan_ordersMap (events : list Event) :
  ordersMap (scan events) = dedup events.
Proof.
  induction events as [|e events IH] using rev_ind; [reflexivity|].
  now rewrite scan_snoc, dedup_snoc, <- IH.
Qed.

(** [lastOrderTs] is the greatest of 0 and the timestamps of all the
    events. *)
Lemma scan_lastOrderTs (events : list Event) :
  let last := lastOrderTs (scan events) in
  (forall e, In e events -> created_at e <= last)
  /\ 0 <= last
  /\ (last = 0 \/ exists e, In e events /\ created_at e = last).
Proof.
  induction events as [|e events (Hub & H0 & Hin)] using rev_ind; cbv zeta.
  - simpl; repeat split; [intros e [] | lia | now left].
  - rewrite scan_snoc; cbv zeta in Hub, H0, Hin.
    cbn [scan_step lastOrderTs].
    set (last := lastOrderTs (scan events)) in *.
    destruct (Z.gtb_spec (created_at e) last) as [Hgt|Hle].
    + repeat split; [|lia|right; exists e; rewrite in_app_iff; simpl; auto].
      intros e' Hin'; apply in_app_iff in Hin' as [Hin'|[<-|[]]];
        [specialize (Hub _ Hin')|]; lia.
    + repeat split; [|lia|].
      * intros e' Hin'; apply in_app_iff in Hin' as [Hin'|[<-|[]]];
          [now apply Hub | lia].
      * destruct Hin as [Hz|(e' & Hin' & Heq)]; [now left|].
        right; exists e'; rewrite in_app_iff; auto.
Qed.

(** [firstOrderTs] is [Infinity] for no event and the least timestamp
    otherwise. *)
Lemma scan_firstOrderTs (events : list Event) :
  match firstOrderTs (scan events) with
  | Some first =>
      (forall e, In e events -> first <= created_at e)
      /\ exists e, In e events /\ created_at e = first
  | None => events = []
  end.
Proof.
  induction events as [|e events IH] using rev_ind; [reflexivity|].
  rewrite scan_snoc; cbn [scan_step firstOrderTs].
  destruct (firstOrderTs (scan events)) as [first|].
  - destruct IH as (Hlb & e0 & Hin0 & Heq0).
    destruct (Z.ltb_spec (created_at e) first) as [Hlt|Hge].
    + split; [|exists e; rewrite in_app_iff; simpl; auto].
      intros e' Hin'; apply in_app_iff in Hin' as [Hin'|[<-|[]]];
        [specialize (Hlb _ Hin')|]; lia.
    + split; [|exists e0; rewrite in_app_iff; auto].
      intros e' Hin'; apply in_app_iff in Hin' as [Hin'|[<-|[]]];
        [now apply Hlb | lia].
  - subst events; simpl; split; [|exists e; auto].
    intros e' [<-|[]]; lia.
Qed.

(** The branch of [longevity] for [firstOrderTs = Infinity] is dead. *)
Lemma scan_first_finite (events : list Event) :
  0 < lastOrderTs (scan events) ->
  exists first, firstOrderTs (scan events) = Some first.
Proof.
  intros Hpos; pose proof (scan_firstOrderTs events) as H.
  destruct (firstOrderTs (scan events)) as [first|]; [eauto|].
  subst events; simpl in Hpos; lia.
Qed.

Lemma scan_positive (events : list Event) :
  0 < lastOrderTs (scan events) <-> exists e, In e events /\ 0 < created_at e.
Proof.
  destruct (scan_lastOrderTs events) as (Hub & H0 & Hin); split.
  - intros Hpos; destruct Hin as [Hz|(e & Hin & Heq)]; [lia|].
    exists e; split; [exact Hin | lia].
  - intros (e & Hin' & Hpos); specialize (Hub _ Hin'); lia.
Qed.

(** ** Liveness *)

(** An order event stamped 0 leaves [lastOrderTs] at its initial 0, which
    the report reads as no trade at all. *)
Lemma liveness_epoch_order :
  let r := computeMetrics clock_a [] [epoch_order] in
  In epoch_order [epoch_order]
  /\ lastTrade r = None
  /\ lastTrade r <> Some (created_at epoch_order)
  /\ daysSinceLast r = 0
  /\ daysSinceLast r <> (1700000000 - created_at epoch_order) / 86400.
Proof.
  cbv zeta; split; [now left|].
  repeat split; vm_compute; congruence.
Qed.

(** C10 (amended): with [now] the clock reading in seconds, when some
    order event has a positive [created_at], [lastTrade] is the greatest
    [created_at] over all the order events, whatever their status, their
    identifier or their fate in the deduplication, and [daysSinceLast] is
    [floor ((now - lastTrade) / 86400)]; when none has, [lastTrade] is
    [null] and [daysSinceLast] is 0. *)
Theorem liveness_spec (w : JS.World) (devFeeEvents orderEvents : list Event) :
  let now := JS.Date_now w / 1000 in
  let r := computeMetrics w devFeeEvents orderEvents in
  ((exists e, In e orderEvents /\ 0 < created_at e) ->
   exists last,
     lastTrade r = Some last
     /\ (forall e, In e orderEvents -> created_at e <= last)
     /\ (exists e, In e orderEvents /\ created_at e = last)
     /\ daysSinceLast r = (now - last) / 86400)
  /\ ((forall e, In e orderEvents -> created_at e <= 0) ->
      lastTrade r = None /\ daysSinceLast r = 0).
Proof.
  cbv zeta; unfold computeMetrics, computeMetricsAt.
  destruct (longevity _ _ _) as [days started].
  cbn [lastTrade daysSinceLast].
  destruct (scan_lastOrderTs orderEvents) as (Hub & H0 & Hin).
  cbv zeta in Hub, H0, Hin.
  set (last := lastOrderTs (scan orderEvents)) in *.
  split.
  - intros Hex; apply scan_positive in Hex; fold last in Hex.
    destruct (Z.gtb_spec last 0) as [_|Hle]; [|lia].
    exists last; repeat split; trivial.
    + destruct Hin as [Hz|Hin]; [lia | exact Hin].
    + now rewrite !floor_div_Zdiv.
  - intros Hnone.
    destruct (Z.gtb_spec last 0) as [Hpos|_]; [|now split].
    destruct Hin as [Hz|(e & Hin & Heq)]; [lia|].
    specialize (Hnone _ Hin); lia.
Qed.

Lemma liveness_spec_witness :
  let orders := [tie_first; epoch_order] in
  let r := computeMetrics clock_a [] orders in
  (exists e, In e orders /\ 0 < created_at e)
  /\ exists last,
       lastTrade r = Some last
       /\ (forall e, In e orders -> created_at e <= last)
       /\ (exists e, In e orders /\ created_at e = last)
       /\ daysSinceLast r = (JS.Date_now clock_a / 1000 - last) / 86400.
Proof.
  intros orders r.
  assert (Hex : exists e, In e orders /\ 0 < created_at e).
  { exists tie_first; split; [now left | reflexivity]. }
  split; [exact Hex|].
  exact (proj1 (liveness_spec clock_a [] orders) Hex).
Defined.

(** ** Longevity *)

Lemma firstDevFeeTs_spec (devFeeEvents : list Event) :
  match firstDevFeeTs devFeeEvents with
  | Some first =>
      (exists a, In a devFeeEvents /\ created_at a = first)
      /\ forall a, In a devFeeEvents -> first <= created_at a
  | None => devFeeEvents = []
  end.
Proof.
  unfold firstDevFeeTs.
  destruct devFeeEvents as [|a0 rest]; [reflexivity|].
  set (events := a0 :: rest).
  replace (JS.length events >? 0) with true
    by (unfold events, JS.length; simpl List.length; symmetry;
        apply Z.gtb_lt; lia).
  pose proof (sort_Permutation created_at events) as Hperm.
  pose proof (sort_StronglySorted created_at events) as Hsorted.
  cbv zeta.
  destruct (JS.sort _ events) as [|e0 sorted].
  - apply Permutation_nil in Hperm; unfold events in Hperm; discriminate.
  - cbn [nth_error option_map]; split.
    + exists e0; split; [|reflexivity].
      eapply Permutation_in; [exact Hperm | now left].
    + intros a Hin.
      apply (Permutation_in _ (Permutation_sym Hperm)) in Hin.
      apply StronglySorted_inv in Hsorted as [_ Hall].
      rewrite Forall_forall in Hall.
      destruct Hin as [<-|Hin]; [lia | now apply Hall].
Qed.

Lemma div_days_nonneg (z : Z) :
  (0 <= JS.div (inject_Z z) (inject_Z SECONDS_PER_DAY))%Q <-> 0 <= z.
Proof.
  assert (Hday : (0 < inject_Z SECONDS_PER_DAY)%Q) by reflexivity.
  split.
  - intros H; destruct (Z_lt_le_dec z 0) as [Hneg|Hpos]; [exfalso | exact Hpos].
    assert (Hz : (inject_Z z <= - (1))%Q).
    { change (- (1))%Q with (inject_Z (- (1))); rewrite <- Zle_Qle; lia. }
    assert (Hle : (JS.div (inject_Z z) (inject_Z SECONDS_PER_DAY)
                   <= - pow2 (- (17)))%Q).
    { apply round64_le.
      - exists (- (1)), (- (17)).
        split; [lia | split; [reflexivity | reflexivity]].
      - apply Qle_shift_div_r; [exact Hday|].
        change (- pow2 (- (17)) * inject_Z SECONDS_PER_DAY)%Q
          with (- (86400 # 131072))%Q.
        apply Qle_trans with (- (1))%Q; [exact Hz | discriminate]. }
    pose proof (pow2_pos (- (17))); lra.
  - intros H; apply div_nonneg; [exact Hday|].
    change 0%Q with (inject_Z 0); rewrite <- Zle_Qle; exact H.
Qed.

(** C3: nothing clamps the days active.  With a dev fee event stamped one
    second after the clock reading, [daysActive] is the negative double
    [-1 / 86400] and the trust score computed from it is [-1]. *)
Theorem longevity_clock_skew :
  let r := computeMetrics clock_a [skewed_anchor] [] in
  created_at skewed_anchor = JS.Date_now clock_a / 1000 + 1
  /\ daysActive r = JS.div (- (1)) 86400
  /\ (daysActive r < 0)%Q
  /\ trustScore r = - (1).
Proof.
  cbv zeta; repeat split; vm_compute; reflexivity.
Qed.

(** X22: every division of the longevity computation is by
    [SECONDS_PER_DAY = 86400]; with [now] the clock reading in seconds,
    [daysActive] is the double nearest to [(now - first) / 86400] for
    [first] the least [created_at] of the dev fee events when there is
    one, and this is non-negative exactly when [first <= now]; without a
    dev fee event it is the double nearest to [(last - first) / 86400],
    which is not negative, over the least and greatest [created_at] of all
    the order events when one of them has a positive [created_at], and 0
    otherwise. *)
Theorem longevity_branches (w : JS.World)
        (devFeeEvents orderEvents : list Event) :
  let now := JS.Date_now w / 1000 in
  let r := computeMetrics w devFeeEvents orderEvents in
  SECONDS_PER_DAY <> 0
  /\ (devFeeEvents <> [] ->
      exists first,
        (exists a, In a devFeeEvents /\ created_at a = first)
        /\ (forall a, In a devFeeEvents -> first <= created_at a)
        /\ firstActivity r = Some first
        /\ daysActive r = round64 (inject_Z (now - first) / inject_Z 86400)
        /\ ((0 <= daysActive r)%Q <-> first <= now))
  /\ (devFeeEvents = [] ->
      (exists e, In e orderEvents /\ 0 < created_at e) ->
      exists first last,
        (exists e, In e orderEvents /\ created_at e = first)
        /\ (exists e, In e orderEvents /\ created_at e = last)
        /\ (forall e, In e orderEvents -> first <= created_at e <= last)
        /\ firstActivity r = None
        /\ daysActive r = round64 (inject_Z (last - first) / inject_Z 86400)
        /\ (0 <= daysActive r)%Q)
  /\ (devFeeEvents = [] ->
      (forall e, In e orderEvents -> created_at e <= 0) ->
      firstActivity r = None /\ daysActive r = 0%Q).
Proof.
  cbv zeta; split; [discriminate|].
  unfold computeMetrics, computeMetricsAt; rewrite floor_div_Zdiv.
  set (now := JS.Date_now w / 1000).
  pose proof (firstDevFeeTs_spec devFeeEvents) as Hdev.
  destruct (scan_lastOrderTs orderEvents) as (Hub & H0 & Hin).
  pose proof (scan_firstOrderTs orderEvents) as Hfirst.
  pose proof (scan_positive orderEvents) as Hpos.
  cbv zeta in Hub, H0, Hin.
  unfold longevity.
  destruct (firstDevFeeTs devFeeEvents) as [first|].
  - cbn [firstActivity daysActive].
    destruct Hdev as [Hex Hlb].
    split; [|split; intros ->; destruct Hex as (a & [] & _)].
    intros _; exists first; repeat split; trivial.
    + intros H; apply (proj1 (div_days_nonneg _)) in H; lia.
    + intros H; apply (proj2 (div_days_nonneg _)); lia.
  - split; [contradiction|].
    set (last := lastOrderTs (scan orderEvents)) in *.
    split.
    + intros _ Hex; apply Hpos in Hex.
      destruct (Z.gtb_spec last 0) as [_|Hle]; [|lia].
      destruct (firstOrderTs (scan orderEvents)) as [first|];
        [|subst orderEvents; simpl in last; lia].
      cbn [daysActive firstActivity].
      destruct Hfirst as (Hlb & e0 & Hin0 & Heq0).
      exists first, last; repeat split; auto.
      * exists e0; auto.
      * destruct Hin as [Hz|Hin]; [lia | exact Hin].
      * apply (proj2 (div_days_nonneg _)).
        specialize (Hub _ Hin0); lia.
    + intros _ Hnone.
      destruct (Z.gtb_spec last 0) as [Hgt|_]; [|split; reflexivity].
      destruct Hin as [Hz|(e & Hin & Heq)]; [lia|].
      specialize (Hnone _ Hin); lia.
Qed.

Lemma longevity_branches_witness :
  let r := computeMetrics clock_a [future_anchor] [] in
  [future_anchor] <> []
  /\ exists first,
       (exists a, In a [future_anchor] /\ created_at a = first)
       /\ (forall a, In a [future_anchor] -> first <= created_at a)
       /\ firstActivity r = Some first
       /\ daysActive r
          = round64 (inject_Z (JS.Date_now clock_a / 1000 - first)
                     / inject_Z 86400)
       /\ ((0 <= daysActive r)%Q <-> first <= JS.Date_now clock_a / 1000).
Proof.
  intros r.
  assert (Hne : [future_anchor] <> []) by discriminate.
  split; [exact Hne|].
  exact (proj1 (proj2 (longevity_branches clock_a [future_anchor] [])) Hne).
Defined.

(** ** The loop over the canonical orders *)

Lemma included_amount_iff (e : Event) (amount : Z) :
  included_amount e = Some amount <->
  exists str, getTagValue e "amt" = Some str
              /\ JS.parseInt str = Some amount /\ 0 < amount.
Proof.
  unfold included_amount; split.
  - destruct (getTagValue e "amt") as [str|]; [|discriminate].
    destruct (JS.parseInt str) as [a|] eqn:Hp; [|discriminate].
    destruct (Z.ltb_spec 0 a); [|discriminate].
    intros [= <-]; eauto.
  - intros (str & -> & -> & Hpos).
    destruct (Z.ltb_spec 0 amount); [reflexivity | lia].
Qed.

(** One iteration: an order that is not successful changes nothing; a
    successful one is counted and its timestamp recorded, and its amount is
    added when there is one to include. *)
Lemma tally_step_spec (t : Tally) (e : Event) :
  tally_step t e
  = if is_success e then
      let extra := match included_amount e with
                   | Some amount => [amount]
                   | None => []
                   end in
      {| successfulOrders := successfulOrders t + 1;
         tally_totalVolumeSats := tally_totalVolumeSats t + sum_list extra;
         tradeAmounts := tradeAmounts t ++ extra;
         successfulTradeTimestamps :=
           successfulTradeTimestamps t ++ [created_at e] |}
    else t.
Proof.
  unfold tally_step, is_success, included_amount.
  destruct (JS.strict_eq (getTagValue e "s") "success"); [|reflexivity].
  destruct (getTagValue e "amt") as [str|]; cbn [JS.truthy].
  - destruct (String.eqb_spec str "") as [->|Hne]; cbn [negb].
    + cbn; now rewrite Z.add_0_r, app_nil_r.
    + destruct (JS.parseInt str) as [amount|].
      * rewrite Z.gtb_ltb; destruct (0 <? amount); cbn;
          now rewrite ?Z.add_0_r, ?app_nil_r.
      * cbn; now rewrite Z.add_0_r, app_nil_r.
  - cbn; now rewrite Z.add_0_r, app_nil_r.
Qed.

Lemma tally_fold (orders : list Event) (t : Tally) :
  let successes := filter is_success orders in
  fold_left tally_step orders t
  = {| successfulOrders := successfulOrders t + JS.length successes;
       tally_totalVolumeSats :=
         tally_totalVolumeSats t + sum_list (included_amounts successes);
       tradeAmounts := tradeAmounts t ++ included_amounts successes;
       successfulTradeTimestamps :=
         successfulTradeTimestamps t ++ map created_at successes |}.
Proof.
  revert t; induction orders as [|e orders IH]; intros t; cbv zeta.
  - destruct t; cbn; now rewrite !Z.add_0_r, !app_nil_r.
  - cbn [fold_left filter]; rewrite IH, tally_step_spec; cbv zeta.
    destruct (is_success e); [|reflexivity].
    cbn [successfulOrders tally_totalVolumeSats tradeAmounts
         successfulTradeTimestamps included_amounts map].
    unfold JS.length; cbn [List.length]; rewrite Nat2Z.inj_succ.
    destruct (included_amount e) as [amount|];
      rewrite <- !app_assoc; cbn [app]; f_equal;
      unfold sum_list; cbn [fold_right]; lia.
Qed.



(** ** The clock *)

(** The same events give different reports a day apart. *)
Lemma report_depends_on_clock :
  JS.Date_now clock_a <> JS.Date_now clock_b
  /\ computeMetrics clock_a [future_anchor] [tie_first]
     <> computeMetrics clock_b [future_anchor] [tie_first].
Proof.
  split; [discriminate|].
  intros H; apply (f_equal daysSinceLast) in H; vm_compute in H.
  discriminate.
Qed.

(** C1 (amended): [computeMetrics] takes the two event arrays only and
    reads the time itself, as [floor (Date.now () / 1000)]; for fixed
    arrays the report is a function of that reading, so two invocations
    whose clocks show the same second yield identical reports. *)
Theorem computeMetrics_same_second (w1 w2 : JS.World)
        (devFeeEvents orderEvents : list Event) :
  JS.Date_now w1 / 1000 = JS.Date_now w2 / 1000 ->
  computeMetrics w1 devFeeEvents orderEvents
  = computeMetrics w2 devFeeEvents orderEvents
  /\ computeMetrics w1 devFeeEvents orderEvents
     = computeMetricsAt (JS.Date_now w1 / 1000) devFeeEvents orderEvents.
Proof.
  intros Hsec; unfold computeMetrics.
  now rewrite !floor_div_Zdiv, Hsec.
Qed.

Lemma computeMetrics_same_second_witness :
  let w1 := {| JS.clock_ms := 1700000000000 |} in
  let w2 := {| JS.clock_ms := 1700000000999 |} in
  JS.Date_now w1 / 1000 = JS.Date_now w2 / 1000
  /\ computeMetrics w1 [future_anchor] [tie_first; tie_second]
     = computeMetrics w2 [future_anchor] [tie_first; tie_second].
Proof.
  intros w1 w2.
  assert (Hsec : JS.Date_now w1 / 1000 = JS.Date_now w2 / 1000)
    by reflexivity.
  split; [exact Hsec|].
  exact (proj1 (computeMetrics_same_second w1 w2 [future_anchor]
                  [tie_first; tie_second] Hsec)).
Defined.

(** * Further properties of the code *)

(** ** Tag lookup *)

Lemma find_first {A : Type} (f : A -> bool) (l : list A) (x : A) :
  find f l = Some x <->
  exists before after,
    l = before ++ x :: after /\ f x = true
    /\ forall y, In y before -> f y = false.
Proof.
  split.
  - induction l as [|y l IH]; simpl; [discriminate|].
    destruct (f y) eqn:Hy.
    + intros [= ->]; exists [], l; repeat split; trivial; intros z [].
    + intros H; destruct (IH H) as (before & after & -> & Hx & Hb).
      exists (y :: before), after; repeat split; trivial.
      intros z [<-|Hz]; auto.
  - intros (before & after & -> & Hx & Hb).
    induction before as [|y before IH]; simpl.
    + now rewrite Hx.
    + rewrite (Hb y) by now left.
      apply IH; intros z Hz; apply Hb; now right.
Qed.

Lemma strict_eq_iff (v : option string) (lit : string) :
  JS.strict_eq v lit = true <-> v = Some lit.
Proof.
  destruct v as [s|]; simpl; [|split; discriminate].
  rewrite String.eqb_eq; split; [now intros -> | now intros [= ->]].
Qed.

(** X1: the value returned for a tag name is the second element of the
    first tag of the event whose first element is that name; there is no
    value when no tag has the name or when that first tag has one element
    only. *)
Theorem getTagValue_first_match (e : Event) (name value : string) :
  getTagValue e name = Some value <->
  exists before tag after,
    tags e = before ++ tag :: after
    /\ (forall t, In t before -> nth_error t 0 <> Some name)
    /\ nth_error tag 0 = Some name
    /\ nth_error tag 1 = Some value.
Proof.
  unfold getTagValue; split.
  - destruct (find _ (tags e)) as [tag|] eqn:Hfind; [|discriminate].
    apply find_first in Hfind as (before & after & Htags & Hname & Hb).
    intros Hval; exists before, tag, after; repeat split; trivial.
    + intros t Hin Ht; apply strict_eq_iff in Ht.
      rewrite (Hb _ Hin) in Ht; discriminate.
    + now apply strict_eq_iff.
  - intros (before & tag & after & Htags & Hb & Hname & Hval).
    replace (find _ (tags e)) with (Some tag); [exact Hval|].
    symmetry; apply find_first; exists before, after; repeat split; trivial.
    + now apply strict_eq_iff.
    + intros t Hin; destruct (JS.strict_eq (nth_error t 0) name) eqn:Ht;
        [|reflexivity].
      apply strict_eq_iff in Ht; now apply Hb in Hin.
Qed.

Lemma getTagValue_first_match_witness :
  getTagValue tie_second "amt" = Some "5000"%string
  /\ exists before tag after,
       tags tie_second = before ++ tag :: after
       /\ (forall t, In t before -> nth_error t 0 <> Some "amt"%string)
       /\ nth_error tag 0 = Some "amt"%string
       /\ nth_error tag 1 = Some "5000"%string.
Proof.
  assert (H : getTagValue tie_second "amt" = Some "5000"%string)
    by reflexivity.
  split; [exact H|].
  exact (proj1 (getTagValue_first_match tie_second "amt" "5000") H).
Defined.

(** ** Trust score, continued *)

(** X2: the score never decreases when the days active, the volume or the
    number of successful orders grow, and it never exceeds 100, whatever
    the inputs. *)
Theorem calculateScore_monotone (d d' v v' n n' : Q) :
  (d <= d')%Q -> (v <= v')%Q -> (n <= n')%Q ->
  calculateScore d v n <= calculateScore d' v' n'
  /\ calculateScore d' v' n' <= 100.
Proof.
  intros Hd Hv Hn; split; [now apply score_mono | apply score_le_100].
Qed.

Lemma calculateScore_monotone_witness :
  (10 <= 20)%Q /\ (0 <= 5000)%Q /\ (3 <= 3)%Q
  /\ calculateScore 10 0 3 <= calculateScore 20 5000 3.
Proof.
  assert (Hd : (10 <= 20)%Q) by (vm_compute; discriminate).
  assert (Hv : (0 <= 5000)%Q) by (vm_compute; discriminate).
  assert (Hn : (3 <= 3)%Q) by (vm_compute; discriminate).
  split; [exact Hd|]. split; [exact Hv|]. split; [exact Hn|].
  exact (proj1 (calculateScore_monotone 10 20 0 5000 3 3 Hd Hv Hn)).
Defined.

(** X3: for a whole volume and a whole number of orders, the score is 100
    when the node has at least 100000000 sats of volume, at least 100
    successful orders and at least [365 - 2^-44] days, which is
    364.99999999999994, the double next below 365: its term rounds to the
    double next below 30 and the sum back up to 100.  The score is below
    100 when the volume or the number of orders is lower, or the days are
    at most [365 - 2^-43], the double before that one. *)
Theorem calculateScore_full (d : Q) (v n : Z) :
  ((365 - pow2 (- (44)) <= d)%Q /\ 100000000 <= v /\ 100 <= n ->
   calculateScore d (inject_Z v) (inject_Z n) = 100)
  /\ ((d <= 365 - pow2 (- (43)))%Q \/ v < 100000000 \/ n < 100 ->
      calculateScore d (inject_Z v) (inject_Z n) < 100).
Proof.
  split.
  - intros (Hd & Hv & Hn).
    apply Z.le_antisymm; [apply score_le_100|].
    change 100 with (calculateScore (365 - pow2 (- (44))) 100000000 100) at 1.
    apply score_mono; [exact Hd | |].
    + change 100000000%Q with (inject_Z 100000000); now rewrite <- Zle_Qle.
    + change 100%Q with (inject_Z 100); now rewrite <- Zle_Qle.
  - pose proof (score_term_le d 365 30 ltac:(lia)) as Td.
    pose proof (score_term_le (inject_Z v) 100000000 40 ltac:(lia)) as Tv.
    pose proof (score_term_le (inject_Z n) 100 30 ltac:(lia)) as Tn.
    intros [Hd|[Hv|Hn]].
    + apply Z.le_lt_trans with
        (Qfloor (JS.add (JS.add (score_term (365 - pow2 (- (43))) 365 30) 40)
                        30)); [|reflexivity].
      apply score_le_terms; trivial.
      apply score_term_mono; [reflexivity | discriminate | exact Hd].
    + apply Z.le_lt_trans with
        (Qfloor (JS.add (JS.add 30 (score_term 99999999 100000000 40)) 30));
        [|reflexivity].
      apply score_le_terms; trivial.
      apply score_term_mono; [reflexivity | discriminate|].
      change 99999999%Q with (inject_Z 99999999); rewrite <- Zle_Qle; lia.
    + apply Z.le_lt_trans with
        (Qfloor (JS.add (JS.add 30 40) (score_term 99 100 30)));
        [|reflexivity].
      apply score_le_terms; trivial.
      apply score_term_mono; [reflexivity | discriminate|].
      change 99%Q with (inject_Z 99); rewrite <- Zle_Qle; lia.
Qed.

Lemma share_error (x : Q) :
  (0 <= x)%Q ->
  (Qmin 1 x - pow2 (- (47)) <= Qmin 1 (round64 x)
   /\ Qmin 1 (round64 x) <= Qmin 1 x + pow2 (- (47)))%Q.
Proof.
  intros H0; pose proof (pow2_pos (- (47))) as Hu.
  destruct (Qlt_le_dec x 1) as [Hlt|Hge].
  - destruct (round64_error_128 x H0 ltac:(lra)) as [Hlo Hhi].
    destruct (Q.min_spec 1 x) as [[A1 A2]|[A1 A2]];
      destruct (Q.min_spec 1 (round64 x)) as [[B1 B2]|[B1 B2]];
      set (m := Qmin 1 x) in *; set (m' := Qmin 1 (round64 x)) in *;
      split; lra.
  - assert (H1 : (1 <= round64 x)%Q).
    { apply (round64_ge x 1); [|exact Hge].
      apply (representable_Z 1); lia. }
    pose proof (Q.min_l 1 x Hge) as A2.
    pose proof (Q.min_l 1 (round64 x) H1) as B2.
    set (m := Qmin 1 x) in *; set (m' := Qmin 1 (round64 x)) in *.
    split; lra.
Qed.

Lemma score_term_error (x cap : Q) (w : Z) :
  (0 < cap)%Q -> (0 <= x)%Q -> 0 <= w <= 100 ->
  (Qmin 1 (x / cap) * inject_Z w - inject_Z (w + 1) * pow2 (- (47))
   <= score_term x cap (inject_Z w)
   /\ score_term x cap (inject_Z w)
      <= Qmin 1 (x / cap) * inject_Z w + inject_Z (w + 1) * pow2 (- (47)))%Q.
Proof.
  intros Hcap H0 Hw; unfold score_term, JS.Math_min, JS.mul, JS.div.
  pose proof (pow2_pos (- (47))) as Hu.
  assert (Hx : (0 <= x / cap)%Q) by (apply Qle_shift_div_l; lra).
  destruct (share_error (x / cap) Hx) as [Hlo Hhi].
  destruct (Qmin_one_bounds (round64 (x / cap)) (round64_nonneg _ Hx))
    as [Hm0 Hm1].
  set (m := Qmin 1 (x / cap)) in *.
  set (m' := Qmin 1 (round64 (x / cap))) in *.
  set (u := pow2 (- (47))) in *.
  assert (Hw0 : (0 <= inject_Z w)%Q)
    by (change 0%Q with (inject_Z 0); rewrite <- Zle_Qle; lia).
  assert (Hw100 : (inject_Z w <= 100)%Q)
    by (change 100%Q with (inject_Z 100); rewrite <- Zle_Qle; lia).
  assert (H1 : ((m - u) * inject_Z w <= m' * inject_Z w)%Q)
    by (apply Qmult_le_compat_r; lra).
  assert (H2 : (m' * inject_Z w <= (m + u) * inject_Z w)%Q)
    by (apply Qmult_le_compat_r; lra).
  assert (H3 : (0 <= m' * inject_Z w)%Q) by (apply Qmult_le_0_compat; lra).
  assert (H4 : (m' * inject_Z w <= 1 * inject_Z w)%Q)
    by (apply Qmult_le_compat_r; lra).
  destruct (round64_error_128 (m' * inject_Z w) H3 ltac:(lra)) as [Rlo Rhi].
  rewrite inject_Z_plus; change (inject_Z 1) with 1%Q.
  set (W := inject_Z w) in *.
  set (t := round64 (m' * W)) in *.
  assert (E1 : ((m - u) * W == m * W - u * W)%Q) by ring.
  assert (E2 : ((m + u) * W == m * W + u * W)%Q) by ring.
  assert (E3 : ((W + 1) * u == u * W + u)%Q) by ring.
  rewrite E1 in H1; rewrite E2 in H2; rewrite E3.
  set (mW := (m * W)%Q) in *; set (uW := (u * W)%Q) in *.
  set (mW' := (m' * W)%Q) in *.
  change (pow2 (- (47))) with u in Rlo, Rhi.
  clear E1 E2 E3; clearbody t mW mW' uW u.
  split; lra.
Qed.

(** X23: the score computed in doubles against the sum of the three terms
    in exact arithmetic, for inputs that are not negative: the two sums
    differ by at most [2^-40], so the score is the floor of the exact sum
    unless that sum lies within [2^-40] of an integer, and it is never
    more than one away from it.  It is one below at [(0, 250000, 3)] and
    one above at 364.99999999999994 days with full volume and count. *)
Theorem calculateScore_accuracy (d v n : Q) :
  (0 <= d)%Q -> (0 <= v)%Q -> (0 <= n)%Q ->
  Qfloor (exact_score d v n - pow2 (- (40))) <= calculateScore d v n
  /\ calculateScore d v n <= Qfloor (exact_score d v n + pow2 (- (40)))
  /\ Qfloor (exact_score d v n) - 1 <= calculateScore d v n
     <= Qfloor (exact_score d v n) + 1
  /\ (calculateScore 0 250000 3 = 0 /\ Qfloor (exact_score 0 250000 3) = 1)
  /\ (calculateScore (365 - pow2 (- (44))) 100000000 100 = 100
      /\ Qfloor (exact_score (365 - pow2 (- (44))) 100000000 100) = 99).
Proof.
  intros Hd Hv Hn.
  assert (Hsum : (exact_score d v n - pow2 (- (40))
                  <= JS.add (JS.add (score_term d 365 30)
                                    (score_term v 100000000 40))
                            (score_term n 100 30)
                  /\ JS.add (JS.add (score_term d 365 30)
                                    (score_term v 100000000 40))
                            (score_term n 100 30)
                     <= exact_score d v n + pow2 (- (40)))%Q).
  { destruct (score_term_error d 365 30 ltac:(lra) Hd ltac:(lia)) as [D1 D2].
    destruct (score_term_error v 100000000 40 ltac:(lra) Hv ltac:(lia))
      as [V1 V2].
    destruct (score_term_error n 100 30 ltac:(lra) Hn ltac:(lia)) as [N1 N2].
    pose proof (score_term_le d 365 30 ltac:(lia)) as Dle.
    pose proof (score_term_le v 100000000 40 ltac:(lia)) as Vle.
    pose proof (score_term_le n 100 30 ltac:(lia)) as Nle.
    pose proof (score_term_nonneg d 365 30 ltac:(lra) ltac:(lra) Hd) as D0.
    pose proof (score_term_nonneg v 100000000 40 ltac:(lra) ltac:(lra) Hv)
      as V0.
    pose proof (score_term_nonneg n 100 30 ltac:(lra) ltac:(lra) Hn) as N0.
    change (inject_Z 30) with 30%Q in *.
    change (inject_Z 40) with 40%Q in *.
    change (inject_Z (30 + 1)) with 31%Q in *.
    change (inject_Z (40 + 1)) with 41%Q in *.
    set (td := score_term d 365 30) in *.
    set (tv := score_term v 100000000 40) in *.
    set (tn := score_term n 100 30) in *.
    unfold JS.add.
    destruct (round64_error_128 (td + tv) ltac:(lra) ltac:(lra)) as [A1 A2].
    assert (A0 : (0 <= round64 (td + tv))%Q) by (apply round64_nonneg; lra).
    assert (A70 : (round64 (td + tv) <= 70)%Q).
    { apply (round64_le _ 70); [apply (representable_Z 70); lia | lra]. }
    destruct (round64_error_128 (round64 (td + tv) + tn) ltac:(lra)
                ltac:(lra)) as [B1 B2].
    assert (Hu : pow2 (- (40)) == 128 * pow2 (- (47))) by reflexivity.
    pose proof (pow2_pos (- (47))) as Hpos.
    unfold exact_score; rewrite Hu.
    set (u := pow2 (- (47))) in *.
    split; lra. }
  destruct Hsum as [Hlo Hhi].
  assert (Hbelow : Qfloor (exact_score d v n - pow2 (- (40)))
                   <= calculateScore d v n)
    by (rewrite score_sum; now apply Qfloor_resp_le).
  assert (Habove : calculateScore d v n
                   <= Qfloor (exact_score d v n + pow2 (- (40))))
    by (rewrite score_sum; now apply Qfloor_resp_le).
  split; [exact Hbelow|]. split; [exact Habove|].
  split.
  - assert (Qfloor (exact_score d v n) - 1
            <= Qfloor (exact_score d v n - pow2 (- (40)))).
    { rewrite <- (Qfloor_Z (Qfloor (exact_score d v n) - 1)).
      apply Qfloor_resp_le.
      pose proof (Qfloor_le (exact_score d v n)) as Hf.
      unfold Z.sub; rewrite inject_Z_plus.
      change (inject_Z (- (1))) with (- (1))%Q.
      assert (pow2 (- (40)) <= 1)%Q by discriminate.
      lra. }
    assert (Qfloor (exact_score d v n + pow2 (- (40)))
            <= Qfloor (exact_score d v n) + 1).
    { assert (Hlt : (exact_score d v n + pow2 (- (40))
                     < inject_Z (Qfloor (exact_score d v n) + 1 + 1))%Q).
      { pose proof (Qlt_floor (exact_score d v n)) as Hf.
        rewrite (inject_Z_plus (_ + 1) 1).
        change (inject_Z 1) with 1%Q.
        rewrite inject_Z_plus in *; change (inject_Z 1) with 1%Q in *.
        assert (pow2 (- (40)) <= 1)%Q by discriminate.
        lra. }
      pose proof (Qfloor_le (exact_score d v n + pow2 (- (40)))) as Hf.
      assert (Hz : (inject_Z (Qfloor (exact_score d v n + pow2 (- (40))))
                    < inject_Z (Qfloor (exact_score d v n) + 1 + 1))%Q)
        by (eapply Qle_lt_trans; eassumption).
      rewrite <- Zlt_Qlt in Hz; lia. }
    lia.
  - repeat split; vm_compute; reflexivity.
Qed.

Lemma calculateScore_accuracy_witness :
  (0 <= 200)%Q /\ (0 <= 50000000)%Q /\ (0 <= 10)%Q
  /\ Qfloor (exact_score 200 50000000 10) - 1
     <= calculateScore 200 50000000 10
     <= Qfloor (exact_score 200 50000000 10) + 1.
Proof.
  assert (Hd : (0 <= 200)%Q) by (vm_compute; discriminate).
  assert (Hv : (0 <= 50000000)%Q) by (vm_compute; discriminate).
  assert (Hn : (0 <= 10)%Q) by (vm_compute; discriminate).
  split; [exact Hd|]. split; [exact Hv|]. split; [exact Hn|].
  exact (proj1 (proj2 (proj2
           (calculateScore_accuracy 200 50000000 10 Hd Hv Hn)))).
Defined.

(** ** Trade statistics, continued *)

Lemma sum_list_Permutation (l l' : list Z) :
  Permutation l l' -> sum_list l = sum_list l'.
Proof. induction 1; simpl; lia. Qed.

Lemma sum_list_bounds (l : list Z) (lo hi : Z) :
  (forall x, In x l -> lo <= x <= hi) ->
  JS.length l * lo <= sum_list l <= JS.length l * hi.
Proof.
  unfold JS.length; induction l as [|x l IH]; intros Hb; [simpl; lia|].
  cbn [List.length sum_list fold_right]; rewrite Nat2Z.inj_succ.
  fold (sum_list l).
  specialize (Hb x (or_introl eq_refl)) as Hx.
  assert (Hl : forall y, In y l -> lo <= y <= hi)
    by (intros y Hy; apply Hb; now right).
  specialize (IH Hl); lia.
Qed.

Lemma ascending_sort_length (l : list Z) :
  JS.length (ascending_sort l) = JS.length l.
Proof.
  unfold JS.length; f_equal.
  apply Permutation_length, ascending_sort_Permutation.
Qed.

Lemma ascending_sort_perm (l l' : list Z) :
  Permutation l l' -> ascending_sort l = ascending_sort l'.
Proof.
  intros Hp; apply ascending_unique;
    try apply ascending_sort_StronglySorted.
  now rewrite !ascending_sort_Permutation.
Qed.

Lemma safe_amounts_perm (l l' : list Z) :
  Permutation l l' -> safe_amounts l -> safe_amounts l'.
Proof.
  intros Hp [Hl Hsum]; split.
  - intros x Hx; apply Hl.
    eapply Permutation_in; [symmetry; exact Hp | exact Hx].
  - now rewrite <- (sum_list_Permutation _ _ Hp).
Qed.

Lemma computeTradeStats_perm (amounts amounts' : list Z) :
  Permutation amounts amounts' -> safe_amounts amounts ->
  computeTradeStats amounts = computeTradeStats amounts'.
Proof.
  intros Hp Hsafe; unfold computeTradeStats.
  fold (ascending_sort amounts); fold (ascending_sort amounts').
  fold (double_sum amounts); fold (double_sum amounts').
  rewrite (double_sum_exact _ Hsafe).
  rewrite (double_sum_exact _ (safe_amounts_perm _ _ Hp Hsafe)).
  rewrite (ascending_sort_perm _ _ Hp), (sum_list_Permutation _ _ Hp).
  unfold JS.length at 1 3; now rewrite (Permutation_length Hp).
Qed.

Lemma at_index_le (s : list Z) (i j : Z) :
  StronglySorted Z.le s -> 0 <= i <= j -> j < JS.length s ->
  JS.at_index s i <= JS.at_index s j.
Proof.
  intros Hs Hij Hj; unfold JS.at_index, JS.length in *.
  apply ascending_nth_le; [exact Hs | lia].
Qed.

Lemma computeTradeStats_sorted (amounts : list Z) :
  amounts <> [] ->
  let s := ascending_sort amounts in
  let len := JS.length amounts in
  JS.length s = len /\ 0 < len
  /\ computeTradeStats amounts
     = {| min := JS.at_index s 0;
          max := JS.at_index s (len - 1);
          mean := JS.div (double_sum amounts) (inject_Z len);
          median :=
            if len mod 2 =? 0
            then (JS.at_index s (len / 2 - 1) + JS.at_index s (len / 2)) / 2
            else JS.at_index s (len / 2) |}.
Proof.
  intros Hne s len.
  assert (Hlen : JS.length s = len).
  { unfold len, s, JS.length; f_equal.
    apply Permutation_length, ascending_sort_Permutation. }
  assert (Hpos : 0 < len).
  { unfold len, JS.length; destruct amounts; [congruence | simpl; lia]. }
  repeat split; trivial.
  unfold computeTradeStats; fold (ascending_sort amounts); fold s.
  rewrite Hlen; fold len.
  destruct (Z.eqb_spec len 0) as [H0|_]; [lia|].
  now rewrite !floor_div_Zdiv.
Qed.

(** The amounts lie between the first and the last element of their
    ascending sort. *)
Lemma ascending_sort_extrema (amounts : list Z) :
  let s := ascending_sort amounts in
  forall x, In x amounts ->
            JS.at_index s 0 <= x <= JS.at_index s (JS.length amounts - 1).
Proof.
  intros s x Hx.
  pose proof (ascending_sort_StronglySorted amounts) as Hs; fold s in Hs.
  pose proof (ascending_sort_length amounts) as Hlen; fold s in Hlen.
  apply (Permutation_in _ (Permutation_sym
           (ascending_sort_Permutation amounts))) in Hx.
  fold s in Hx.
  destruct (In_nth _ _ 0 Hx) as (i & Hi & <-).
  rewrite <- (at_index_nth s i), <- Hlen.
  unfold JS.length.
  split; apply at_index_le; trivial; unfold JS.length; lia.
Qed.

Lemma sum_list_ge_elem (l : list Z) :
  (forall x, In x l -> 0 < x) ->
  0 <= sum_list l /\ forall y, In y l -> y <= sum_list l.
Proof.
  induction l as [|x l IH]; intros Hpos; simpl; [split; [lia | intros y []]|].
  destruct IH as [H0 Hle]; [intros y Hy; apply Hpos; now right|].
  fold (sum_list l).
  specialize (Hpos x (or_introl eq_refl)) as Hx.
  split; [lia|].
  intros y [<-|Hy]; [lia | specialize (Hle _ Hy); lia].
Qed.

Lemma sum_list_elem_le (l : list Z) :
  (forall x, In x l -> 0 <= x) -> forall y, In y l -> y <= sum_list l.
Proof.
  induction l as [|x l IH]; intros Hl y Hy; [destruct Hy|].
  assert (Hl' : forall z, In z l -> 0 <= z)
    by (intros z Hz; apply Hl; now right).
  pose proof (sum_list_nonneg l Hl') as Hrest.
  pose proof (Hl x (or_introl eq_refl)) as Hx.
  cbn [sum_list fold_right]; fold (sum_list l).
  destruct Hy as [<-|Hy]; [lia | specialize (IH Hl' _ Hy); lia].
Qed.

Lemma tradeStats_order (amounts : list Z) :
  amounts <> [] ->
  let r := computeTradeStats amounts in
  min r <= median r <= max r
  /\ (safe_amounts amounts ->
      (inject_Z (min r) <= mean r)%Q /\ (mean r <= inject_Z (max r))%Q)
  /\ In (min r) amounts /\ In (max r) amounts.
Proof.
  intros Hne r.
  destruct (computeTradeStats_sorted amounts Hne) as (Hlen & Hpos & Hr).
  cbv zeta in Hlen, Hpos, Hr.
  pose proof (ascending_sort_StronglySorted amounts) as Hs.
  pose proof (ascending_sort_extrema amounts) as Hb; cbv zeta in Hb.
  pose proof (ascending_sort_Permutation amounts) as Hperm.
  set (s := ascending_sort amounts) in *.
  set (len := JS.length amounts) in *.
  assert (Hidx : forall i j, 0 <= i <= j -> j < len ->
                             JS.at_index s i <= JS.at_index s j).
  { intros i j Hij Hj; apply at_index_le; trivial; lia. }
  assert (Hin : forall i, 0 <= i < len -> In (JS.at_index s i) amounts).
  { intros i Hi; eapply Permutation_in; [exact Hperm|].
    unfold JS.at_index; apply nth_In; unfold JS.length in Hlen; lia. }
  pose proof (sum_list_bounds amounts _ _ Hb) as Hsum; fold len in Hsum.
  assert (Hlenq : (0 < inject_Z len)%Q)
    by (change 0%Q with (inject_Z 0); rewrite <- Zlt_Qlt; exact Hpos).
  unfold r; rewrite Hr; cbn [min max mean median].
  split; [|split; [|split]].
  - destruct (Z.eqb_spec (len mod 2) 0) as [Heven|Hodd].
    + assert (Hhalf : len = 2 * (len / 2))
        by (pose proof (Z_div_mod_eq_full len 2); lia).
      pose proof (Hidx 0 (len / 2 - 1) ltac:(lia) ltac:(lia)).
      pose proof (Hidx (len / 2 - 1) (len / 2) ltac:(lia) ltac:(lia)).
      pose proof (Hidx (len / 2) (len - 1) ltac:(lia) ltac:(lia)).
      set (a := JS.at_index s (len / 2 - 1)) in *.
      set (b := JS.at_index s (len / 2)) in *.
      pose proof (Z_div_mod_eq_full (a + b) 2).
      pose proof (Z.mod_pos_bound (a + b) 2 ltac:(lia)).
      lia.
    + pose proof (Z.mod_pos_bound len 2 ltac:(lia)).
      pose proof (Z_div_mod_eq_full len 2).
      split; apply Hidx; lia.
  - intros Hsafe; rewrite (double_sum_exact amounts Hsafe).
    destruct Hsafe as [Hnn Htotal]; unfold JS.MAX_SAFE_INTEGER in Htotal.
    pose proof (Hnn _ (Hin 0 ltac:(lia))) as Hmin0.
    pose proof (sum_list_elem_le amounts Hnn _ (Hin (len - 1) ltac:(lia)))
      as Hmaxle.
    pose proof (Hidx 0 (len - 1) ltac:(lia) ltac:(lia)) as Hminmax.
    split.
    + apply round64_ge; [apply representable_Z; lia|].
      apply Qle_shift_div_l; [exact Hlenq|].
      rewrite <- inject_Z_mult, <- Zle_Qle; lia.
    + apply round64_le; [apply representable_Z; lia|].
      apply Qle_shift_div_r; [exact Hlenq|].
      rewrite <- inject_Z_mult, <- Zle_Qle; lia.
  - apply Hin; lia.
  - apply Hin; lia.
Qed.

(** X4: the statistics of a non-empty list of amounts that are not
    negative and add up to a safe integer are ordered,
    [min <= median <= max] and [min <= mean <= max], and they do not depend
    on the order of the amounts.  Past the safe range the doubles add up
    differently in a different order: [2^53, 1, 1] and [1, 1, 2^53] have
    different means. *)
Theorem computeTradeStats_ordered (amounts amounts' : list Z) :
  amounts <> [] -> Permutation amounts amounts' -> safe_amounts amounts ->
  let r := computeTradeStats amounts in
  min r <= median r <= max r
  /\ (inject_Z (min r) <= mean r)%Q /\ (mean r <= inject_Z (max r))%Q
  /\ computeTradeStats amounts' = r
  /\ mean (computeTradeStats [9007199254740992; 1; 1])
     <> mean (computeTradeStats [1; 1; 9007199254740992]).
Proof.
  intros Hne Hp Hsafe r.
  destruct (tradeStats_order amounts Hne) as (Ho & Hmean & _).
  destruct (Hmean Hsafe) as [Hlo Hhi].
  split; [exact Ho|]. split; [exact Hlo|]. split; [exact Hhi|].
  split; [symmetry; now apply computeTradeStats_perm|].
  vm_compute; discriminate.
Qed.

Lemma computeTradeStats_ordered_witness :
  let r := computeTradeStats [1000; 10; 10; 10] in
  [1000; 10; 10; 10] <> []
  /\ Permutation [1000; 10; 10; 10] [10; 10; 10; 1000]
  /\ safe_amounts [1000; 10; 10; 10]
  /\ min r <= median r <= max r
  /\ computeTradeStats [10; 10; 10; 1000] = r.
Proof.
  intros r.
  assert (Hne : [1000; 10; 10; 10] <> ([] : list Z)) by discriminate.
  assert (Hp : Permutation [1000; 10; 10; 10] [10; 10; 10; 1000]).
  { apply (Permutation_cons_app [10; 10; 10] [] 1000); reflexivity. }
  assert (Hsafe : safe_amounts [1000; 10; 10; 10]).
  { split; [|discriminate].
    intros x [<-|[<-|[<-|[<-|[]]]]]; discriminate. }
  destruct (computeTradeStats_ordered _ _ Hne Hp Hsafe)
    as (Ho & _ & _ & Heq & _).
  split; [exact Hne|]. split; [exact Hp|]. split; [exact Hsafe|].
  split; [exact Ho | exact Heq].
Defined.

(** ** Rolling windows and activity consistency, continued *)

Lemma count_from_Permutation (lo : Z) (l l' : list Z) :
  Permutation l l' -> count_from lo l = count_from lo l'.
Proof. induction 1; simpl; lia. Qed.

Lemma count_from_le_length (lo : Z) (l : list Z) :
  0 <= count_from lo l <= JS.length l.
Proof.
  unfold JS.length; induction l as [|t l IH]; [simpl; lia|].
  cbn [count_from List.length]; rewrite Nat2Z.inj_succ.
  destruct (Z_le_dec lo t); lia.
Qed.

Lemma count_from_positive (lo : Z) (l : list Z) :
  0 < count_from lo l -> exists ts, In ts l /\ lo <= ts.
Proof.
  induction l as [|t l IH]; simpl; [lia|].
  destruct (Z_le_dec lo t) as [Hle|_]; [eauto|].
  intros H; destruct (IH ltac:(lia)) as (ts & Hin & Hts); eauto.
Qed.

Lemma computeRollingWindows_perm (l l' : list Z) (now : Z) :
  Permutation l l' ->
  computeRollingWindows l now = computeRollingWindows l' now.
Proof.
  intros Hp; unfold computeRollingWindows.
  now rewrite !filter_count_from, !(count_from_Permutation _ _ _ Hp).
Qed.

(** The day buckets of the timestamps of the window. *)
Lemma bucket_In (timestamps : list Z) (now d : Z) :
  In d (map (fun ts => JS.floor_div ts SECONDS_PER_DAY)
            (filter (fun ts => ts >=? now - 30 * SECONDS_PER_DAY) timestamps))
  <-> exists ts, In ts timestamps /\ now - 30 * 86400 <= ts /\ d = ts / 86400.
Proof.
  rewrite in_map_iff; unfold SECONDS_PER_DAY; split.
  - intros (ts & <- & Hin); rewrite filter_In, Z.geb_le in Hin.
    exists ts; rewrite floor_div_Zdiv; tauto.
  - intros (ts & Hin & Hge & ->); exists ts.
    rewrite floor_div_Zdiv, filter_In, Z.geb_le; auto.
Qed.

Lemma activity_unfold (timestamps : list Z) (now : Z) :
  let buckets :=
    map (fun ts => JS.floor_div ts SECONDS_PER_DAY)
        (filter (fun ts => ts >=? now - 30 * SECONDS_PER_DAY) timestamps) in
  let days := ascending_sort (JS.Set_from buckets) in
  let st := fold_left gap_step days
              {| walk_maxGap := 0;
                 walk_prevDay := (now - 30 * 86400) / 86400 |} in
  computeActivityConsistency timestamps now
  = if JS.length days =? 0
    then {| activeDays := 0; maxGap := 30 |}
    else {| activeDays := JS.length days;
            maxGap := Z.max (walk_maxGap st)
                            (Z.max 0 (now / 86400 - walk_prevDay st)) |}.
Proof.
  cbv zeta; unfold computeActivityConsistency.
  fold (ascending_sort
          (JS.Set_from
             (map (fun ts => JS.floor_div ts SECONDS_PER_DAY)
                  (filter (fun ts => ts >=? now - 30 * SECONDS_PER_DAY)
                          timestamps)))).
  now rewrite ascending_sort_length, !floor_div_Zdiv.
Qed.

Lemma Set_from_perm (l l' : list Z) :
  Permutation l l' ->
  ascending_sort (JS.Set_from l) = ascending_sort (JS.Set_from l').
Proof.
  intros Hp; apply ascending_sort_perm, NoDup_Permutation;
    try apply Set_from_NoDup.
  intros d; rewrite !Set_from_In; split; apply Permutation_in;
    [exact Hp | now symmetry].
Qed.

Lemma computeActivityConsistency_perm (l l' : list Z) (now : Z) :
  Permutation l l' ->
  computeActivityConsistency l now = computeActivityConsistency l' now.
Proof.
  intros Hp; rewrite !activity_unfold; cbv zeta.
  assert (Hb : Permutation
                 (map (fun ts => JS.floor_div ts SECONDS_PER_DAY)
                      (filter (fun ts => ts >=? now - 30 * SECONDS_PER_DAY) l))
                 (map (fun ts => JS.floor_div ts SECONDS_PER_DAY)
                      (filter (fun ts => ts >=? now - 30 * SECONDS_PER_DAY) l'))).
  { apply Permutation_map.
    induction Hp; simpl;
      repeat match goal with
             | |- context [if ?c then _ else _] => destruct c
             end; eauto using Permutation. }
  now rewrite (Set_from_perm _ _ Hb).
Qed.

Lemma day_gaps_bound (lo hi prev : Z) (days : list Z) :
  lo <= prev -> (forall d, In d days -> lo <= d <= hi) ->
  forall g, In g (day_gaps prev days) -> g <= Z.max 0 (hi - lo - 1).
Proof.
  revert prev; induction days as [|d days IH]; intros prev Hprev Hb g;
    simpl; [intros []|].
  specialize (Hb d (or_introl eq_refl)) as Hd.
  intros [<-|Hg]; [lia|].
  eapply IH; [| |exact Hg]; [lia|].
  intros d' Hd'; apply Hb; now right.
Qed.

Lemma last_bounds (lo hi prev : Z) (days : list Z) :
  lo <= prev <= hi -> (forall d, In d days -> lo <= d <= hi) ->
  lo <= last days prev <= hi.
Proof.
  revert prev; induction days as [|d days IH]; intros prev Hprev Hb;
    [exact Hprev|].
  rewrite last_cons; apply IH; [apply Hb; now left|].
  intros d' Hd'; apply Hb; now right.
Qed.

Lemma NoDup_range_length (lo : Z) (n : nat) (l : list Z) :
  NoDup l -> (forall d, In d l -> lo <= d < lo + Z.of_nat n) ->
  (List.length l <= n)%nat.
Proof.
  intros Hnd Hb.
  assert (H : (List.length l
               <= List.length (map (fun i => (lo + Z.of_nat i)%Z)
                                   (seq 0 n)))%nat);
    [|now rewrite length_map, length_seq in H].
  apply NoDup_incl_length; [exact Hnd|].
  intros d Hd; specialize (Hb _ Hd).
  apply in_map_iff; exists (Z.to_nat (d - lo)); split; [lia|].
  apply in_seq; lia.
Qed.

Lemma activity_range (timestamps : list Z) (now : Z) :
  let r := computeActivityConsistency timestamps now in
  0 <= activeDays r <= last30d (computeRollingWindows timestamps now)
  /\ 0 <= maxGap r
  /\ ((forall ts, In ts timestamps -> ts <= now) ->
      activeDays r <= 31 /\ maxGap r <= 30).
Proof.
  intros r.
  pose proof (activity_unfold timestamps now) as Hr; cbv zeta in Hr.
  fold r in Hr.
  set (buckets :=
         map (fun ts => JS.floor_div ts SECONDS_PER_DAY)
             (filter (fun ts => ts >=? now - 30 * SECONDS_PER_DAY) timestamps))
    in *.
  set (days := ascending_sort (JS.Set_from buckets)) in *.
  set (start := (now - 30 * 86400) / 86400) in *.
  assert (Hdays : forall d, In d days <-> In d buckets).
  { intros d; unfold days; rewrite <- (Set_from_In buckets d); split;
      apply Permutation_in;
      [apply ascending_sort_Permutation
      |symmetry; apply ascending_sort_Permutation]. }
  assert (Hnd : NoDup days).
  { eapply Permutation_NoDup;
      [symmetry; apply ascending_sort_Permutation | apply Set_from_NoDup]. }
  assert (Hcount : JS.length days
                   <= last30d (computeRollingWindows timestamps now)).
  { unfold computeRollingWindows; cbn [last30d].
    unfold JS.length; apply inj_le.
    assert (Hl : (List.length days <= List.length buckets)%nat).
    { apply NoDup_incl_length; [exact Hnd|].
      intros d Hd; now apply Hdays. }
    unfold buckets in Hl; now rewrite length_map in Hl. }
  destruct (gap_walk days {| walk_maxGap := 0; walk_prevDay := start |})
    as (Hprev & Hmono & Hub & Hin).
  cbn [walk_maxGap walk_prevDay] in Hprev, Hmono, Hub, Hin.
  set (st := fold_left gap_step days _) in *.
  assert (Hlen0 : 0 <= JS.length days) by (unfold JS.length; lia).
  split; [|split].
  - rewrite Hr; destruct (JS.length days =? 0); cbn [activeDays]; lia.
  - rewrite Hr; destruct (JS.length days =? 0); cbn [maxGap]; lia.
  - intros Hpast.
    assert (Htoday : now / 86400 = start + 30).
    { unfold start.
      replace (now - 30 * 86400) with (now + (-30) * 86400) by lia.
      rewrite Z.div_add by lia; lia. }
    assert (Hrange : forall d, In d days -> start <= d <= start + 30).
    { intros d Hd; apply Hdays, bucket_In in Hd as (ts & Hin' & Hge & ->).
      specialize (Hpast _ Hin'); rewrite <- Htoday; unfold start.
      split; apply Z.div_le_mono; lia. }
    assert (Hsize : JS.length days <= 31).
    { unfold JS.length.
      pose proof (NoDup_range_length start 31 days Hnd) as Hn.
      apply inj_le in Hn; [exact Hn|].
      intros d Hd; specialize (Hrange _ Hd); lia. }
    rewrite Hr; destruct (JS.length days =? 0); cbn [activeDays maxGap];
      [lia|].
    split; [exact Hsize|].
    pose proof (last_bounds start (start + 30) start days ltac:(lia) Hrange)
      as Hlast.
    rewrite Hprev, Htoday.
    assert (Hwalk : walk_maxGap st <= 29).
    { destruct Hin as [->|Hin]; [lia|].
      pose proof (day_gaps_bound start (start + 30) start days
                    ltac:(lia) Hrange _ Hin).
      lia. }
    lia.
Qed.

(** X5: the active days are at most the trades of the 30-day window and
    the longest gap is never negative; when no timestamp is later than
    [now] there are at most 31 active days (the window of 30 days and one
    second touches 31 calendar days, and 31 are reached) and the longest gap
    is at most 30; the order of the timestamps does not matter. *)
Theorem activity_bounds (timestamps timestamps' : list Z) (now : Z) :
  Permutation timestamps timestamps' ->
  let r := computeActivityConsistency timestamps now in
  0 <= activeDays r <= last30d (computeRollingWindows timestamps now)
  /\ 0 <= maxGap r
  /\ ((forall ts, In ts timestamps -> ts <= now) ->
      activeDays r <= 31 /\ maxGap r <= 30)
  /\ computeActivityConsistency timestamps' now = r
  /\ activeDays
       (computeActivityConsistency
          (map (fun i => 86400 * Z.of_nat i) (seq 0 31)) (86400 * 30)) = 31.
Proof.
  intros Hp r.
  destruct (activity_range timestamps now) as (Ha & Hg & Hb).
  repeat split; trivial; try apply Ha; try (now apply Hb).
  symmetry; now apply computeActivityConsistency_perm.
Qed.

Lemma activity_bounds_witness :
  let now := 3456000 in
  let timestamps := [now - 86400 * 5; now; now - 3] in
  let r := computeActivityConsistency timestamps now in
  (forall ts, In ts timestamps -> ts <= now)
  /\ activeDays r <= 31 /\ maxGap r <= 30.
Proof.
  intros now timestamps r.
  assert (Hpast : forall ts, In ts timestamps -> ts <= now).
  { intros ts [<-|[<-|[<-|[]]]]; discriminate. }
  split; [exact Hpast|].
  destruct (activity_bounds timestamps timestamps now (Permutation_refl _))
    as (_ & _ & Hb & _).
  exact (Hb Hpast).
Defined.

(** ** Order of arrival *)

Lemma winner_In (events : list Event) (key : string) (e : Event) :
  winner events key e -> In e events /\ order_id e = Some key.
Proof.
  intros (before & after & -> & Hid & _); split; [|exact Hid].
  apply in_app_iff; right; now left.
Qed.

Lemma NoTies_perm (events events' : list Event) :
  Permutation events events' -> NoTies events -> NoTies events'.
Proof.
  intros Hp Hnt e1 e2 key H1 H2; apply Hnt;
    eapply Permutation_in; try eassumption; now symmetry.
Qed.

Lemma dedup_get_perm (events events' : list Event) :
  Permutation events events' -> NoTies events ->
  forall key, JS.Map_get (dedup events) key = JS.Map_get (dedup events') key.
Proof.
  intros Hp Hnt key.
  destruct (dedup_invariant events) as (_ & Hkeys & Hwin).
  destruct (dedup_invariant events') as (_ & Hkeys' & Hwin').
  destruct (JS.Map_get (dedup events) key) as [e|] eqn:Hget;
    destruct (JS.Map_get (dedup events') key) as [e'|] eqn:Hget';
    trivial.
  - pose proof (Hwin _ _ Hget) as Hw; pose proof (Hwin' _ _ Hget') as Hw'.
    destruct (winner_In _ _ _ Hw) as [Hin Hid].
    destruct (winner_In _ _ _ Hw') as [Hin' Hid'].
    assert (Hin2 : In e' events)
      by (eapply Permutation_in; [symmetry; exact Hp | exact Hin']).
    assert (Hin3 : In e events')
      by (eapply Permutation_in; [exact Hp | exact Hin]).
    pose proof (winner_bound _ _ _ Hw _ Hin2 Hid').
    pose proof (winner_bound _ _ _ Hw' _ Hin3 Hid).
    f_equal; apply (Hnt e e' key); trivial; lia.
  - destruct (winner_In _ _ _ (Hwin _ _ Hget)) as [Hin Hid].
    apply Map_get_None in Hget'; exfalso; apply Hget', Hkeys'.
    exists e; split; [eapply Permutation_in; eassumption | exact Hid].
  - destruct (winner_In _ _ _ (Hwin' _ _ Hget')) as [Hin Hid].
    apply Map_get_None in Hget; exfalso; apply Hget, Hkeys.
    exists e'; split; [|exact Hid].
    eapply Permutation_in; [symmetry; exact Hp | exact Hin].
Qed.

(** Two maps with the same lookups hold the same entries. *)
Lemma Map_same_entries {V : Type} (m m' : JS.Map V) :
  NoDup (JS.Map_keys m) -> NoDup (JS.Map_keys m') ->
  (forall key, JS.Map_get m key = JS.Map_get m' key) ->
  Permutation m m'.
Proof.
  intros Hnd Hnd' Hget.
  apply NoDup_Permutation.
  - eapply NoDup_map_inv; exact Hnd.
  - eapply NoDup_map_inv; exact Hnd'.
  - intros [key v]; split; intros Hin.
    + apply Map_get_In; rewrite <- Hget; now apply Map_In_get.
    + apply Map_get_In; rewrite Hget; now apply Map_In_get.
Qed.

Lemma dedup_values_perm (events events' : list Event) :
  Permutation events events' -> NoTies events ->
  Permutation (JS.Map_values (dedup events)) (JS.Map_values (dedup events')).
Proof.
  intros Hp Hnt; apply Permutation_map, Map_same_entries.
  - apply dedup_invariant.
  - apply dedup_invariant.
  - now apply dedup_get_perm.
Qed.

(** X6: when no two different events share an order identifier and a
    timestamp, the record the deduplication keeps for each identifier, and
    the number of records, do not depend on the order in which the events
    are iterated. *)
Theorem dedup_order_independent (events events' : list Event) :
  Permutation events events' -> NoTies events ->
  (forall key,
     JS.Map_get (dedup events) key = JS.Map_get (dedup events') key)
  /\ JS.Map_size (dedup events) = JS.Map_size (dedup events').
Proof.
  intros Hp Hnt; split; [now apply dedup_get_perm|].
  unfold JS.Map_size, JS.length; f_equal.
  rewrite <- !(length_map snd).
  apply Permutation_length; now apply dedup_values_perm.
Qed.

Lemma NoTies_two_updates :
  NoTies [tie_first; epoch_order].
Proof.
  intros e1 e2 key [<-|[<-|[]]] [<-|[<-|[]]]; trivial; discriminate.
Qed.

Lemma dedup_order_independent_witness :
  Permutation [tie_first; epoch_order] [epoch_order; tie_first]
  /\ NoTies [tie_first; epoch_order]
  /\ JS.Map_size (dedup [tie_first; epoch_order])
     = JS.Map_size (dedup [epoch_order; tie_first]).
Proof.
  assert (Hp : Permutation [tie_first; epoch_order] [epoch_order; tie_first])
    by apply perm_swap.
  split; [exact Hp|]. split; [exact NoTies_two_updates|].
  exact (proj2 (dedup_order_independent _ _ Hp NoTies_two_updates)).
Defined.

Lemma included_amounts_perm (l l' : list Event) :
  Permutation l l' ->
  Permutation (included_amounts l) (included_amounts l').
Proof.
  induction 1 as [|x l l' Hp IH|x y l|l l' l'' _ IH1 _ IH2]; simpl.
  - constructor.
  - destruct (included_amount x); [now constructor | exact IH].
  - destruct (included_amount x), (included_amount y);
      try reflexivity; apply perm_swap.
  - now rewrite IH1.
Qed.

Lemma filter_perm {A : Type} (f : A -> bool) (l l' : list A) :
  Permutation l l' -> Permutation (filter f l) (filter f l').
Proof.
  induction 1 as [|x l l' Hp IH|x y l|l l' l'' _ IH1 _ IH2]; simpl.
  - constructor.
  - destruct (f x); [now constructor | exact IH].
  - destruct (f x), (f y); try reflexivity; apply perm_swap.
  - now rewrite IH1.
Qed.

(** The tally of the canonical orders, by its fields. *)
Lemma tally_fields (orders : list Event) :
  let successes := filter is_success orders in
  successfulOrders (tally orders) = JS.length successes
  /\ tally_totalVolumeSats (tally orders)
     = sum_list (included_amounts successes)
  /\ tradeAmounts (tally orders) = included_amounts successes
  /\ successfulTradeTimestamps (tally orders) = map created_at successes.
Proof.
  unfold tally; rewrite tally_fold; cbv zeta; cbn.
  repeat split; lia.
Qed.

Lemma scan_last_perm (events events' : list Event) :
  Permutation events events' ->
  lastOrderTs (scan events) = lastOrderTs (scan events').
Proof.
  intros Hp.
  destruct (scan_lastOrderTs events) as (Hub & H0 & Hin).
  destruct (scan_lastOrderTs events') as (Hub' & H0' & Hin').
  cbv zeta in *.
  assert (lastOrderTs (scan events) <= lastOrderTs (scan events')).
  { destruct Hin as [->|(e & Hin & <-)]; [exact H0'|].
    apply Hub'; eapply Permutation_in; eassumption. }
  assert (lastOrderTs (scan events') <= lastOrderTs (scan events)).
  { destruct Hin' as [->|(e & Hin' & <-)]; [exact H0|].
    apply Hub; eapply Permutation_in; [symmetry|]; eassumption. }
  lia.
Qed.

Lemma scan_first_perm (events events' : list Event) :
  Permutation events events' ->
  firstOrderTs (scan events) = firstOrderTs (scan events').
Proof.
  intros Hp.
  pose proof (scan_firstOrderTs events) as H.
  pose proof (scan_firstOrderTs events') as H'.
  destruct (firstOrderTs (scan events)) as [f|],
           (firstOrderTs (scan events')) as [f'|].
  - destruct H as (Hlb & e & Hin & He), H' as (Hlb' & e' & Hin' & He').
    f_equal.
    assert (f' <= f).
    { rewrite <- He; apply Hlb'; eapply Permutation_in; eassumption. }
    assert (f <= f').
    { rewrite <- He'; apply Hlb.
      eapply Permutation_in; [symmetry|]; eassumption. }
    lia.
  - subst events'; symmetry in Hp; apply Permutation_nil in Hp; subst events.
    destruct H as (_ & e & [] & _).
  - subst events; apply Permutation_nil in Hp.
    subst events'; destruct H' as (_ & e & [] & _).
  - reflexivity.
Qed.

Lemma firstDevFeeTs_perm (events events' : list Event) :
  Permutation events events' ->
  firstDevFeeTs events = firstDevFeeTs events'.
Proof.
  intros Hp.
  pose proof (firstDevFeeTs_spec events) as H.
  pose proof (firstDevFeeTs_spec events') as H'.
  destruct (firstDevFeeTs events) as [f|], (firstDevFeeTs events') as [f'|].
  - destruct H as ((e & Hin & He) & Hlb), H' as ((e' & Hin' & He') & Hlb').
    f_equal.
    assert (f' <= f).
    { rewrite <- He; apply Hlb'; eapply Permutation_in; eassumption. }
    assert (f <= f').
    { rewrite <- He'; apply Hlb.
      eapply Permutation_in; [symmetry|]; eassumption. }
    lia.
  - subst events'; symmetry in Hp; apply Permutation_nil in Hp; subst events.
    destruct H as ((e & [] & _) & _).
  - subst events; apply Permutation_nil in Hp.
    subst events'; destruct H' as ((e & [] & _) & _).
  - reflexivity.
Qed.

Lemma included_amounts_positive (orders : list Event) :
  forall amount, In amount (included_amounts orders) -> 0 < amount.
Proof.
  induction orders as [|e orders IH]; simpl; [intros a []|].
  destruct (included_amount e) as [a|] eqn:Ha; [|exact IH].
  intros amount [<-|Hin]; [|now apply IH].
  apply included_amount_iff in Ha as (_ & _ & _ & Hpos); exact Hpos.
Qed.

Lemma report_totalVolume (w : JS.World)
      (devFeeEvents orderEvents : list Event) :
  totalVolumeSats (computeMetrics w devFeeEvents orderEvents)
  = sum_list (included_amounts
                (filter is_success (JS.Map_values (dedup orderEvents)))).
Proof.
  unfold computeMetrics, computeMetricsAt.
  destruct (longevity _ _ _) as [days started]; cbn [totalVolumeSats].
  rewrite scan_ordersMap.
  now destruct (tally_fields (JS.Map_values (dedup orderEvents)))
    as (_ & Hv & _).
Qed.

Lemma longevity_fields (now : Z) (firstDevFee : option Z) (st st' : OrderScan) :
  lastOrderTs st = lastOrderTs st' -> firstOrderTs st = firstOrderTs st' ->
  longevity now firstDevFee st = longevity now firstDevFee st'.
Proof. intros Hl Hf; unfold longevity; now rewrite Hl, Hf. Qed.

(** X7: the report is a function of the two collections as multisets,
    as long as no two different order events share an order identifier and
    a timestamp and the total volume is a safe integer: reordering the dev
    fee events and the order events then leaves every field of the report
    unchanged. *)
Theorem computeMetrics_multiset (w : JS.World)
        (devFeeEvents devFeeEvents' orderEvents orderEvents' : list Event) :
  Permutation devFeeEvents devFeeEvents' ->
  Permutation orderEvents orderEvents' ->
  NoTies orderEvents ->
  totalVolumeSats (computeMetrics w devFeeEvents orderEvents)
  <= JS.MAX_SAFE_INTEGER ->
  computeMetrics w devFeeEvents orderEvents
  = computeMetrics w devFeeEvents' orderEvents'.
Proof.
  intros Hdev Hord Hnt Hsafe; rewrite report_totalVolume in Hsafe.
  unfold computeMetrics, computeMetricsAt.
  set (now := JS.floor_div (JS.Date_now w) 1000).
  rewrite (longevity_fields now _ (scan orderEvents) (scan orderEvents')
             (scan_last_perm _ _ Hord) (scan_first_perm _ _ Hord)).
  rewrite (firstDevFeeTs_perm _ _ Hdev), (scan_last_perm _ _ Hord).
  destruct (longevity _ _ _) as [days started].
  rewrite !scan_ordersMap.
  pose proof (dedup_values_perm _ _ Hord Hnt) as Hvals.
  pose proof (filter_perm is_success _ _ Hvals) as Hsucc.
  destruct (tally_fields (JS.Map_values (dedup orderEvents)))
    as (Hn & Hv & Ha & Ht).
  destruct (tally_fields (JS.Map_values (dedup orderEvents')))
    as (Hn' & Hv' & Ha' & Ht').
  cbv zeta in *.
  rewrite Hn, Hv, Ha, Ht, Hn', Hv', Ha', Ht'.
  set (successes := filter is_success (JS.Map_values (dedup orderEvents)))
    in *.
  set (successes' := filter is_success (JS.Map_values (dedup orderEvents')))
    in *.
  pose proof (included_amounts_perm _ _ Hsucc) as Hamounts.
  assert (Hsafe' : safe_amounts (included_amounts successes)).
  { split; [|exact Hsafe].
    intros x Hx; apply included_amounts_positive in Hx; lia. }
  rewrite (computeTradeStats_perm _ _ Hamounts Hsafe').
  rewrite (computeRollingWindows_perm _ _ now
             (Permutation_map created_at Hsucc)).
  rewrite (computeActivityConsistency_perm _ _ now
             (Permutation_map created_at Hsucc)).
  rewrite (sum_list_Permutation _ _ Hamounts).
  unfold JS.Map_size, JS.length.
  rewrite (Permutation_length Hsucc), (Permutation_length Hamounts),
    (Permutation_length Hdev), (Permutation_length Hord).
  rewrite <- !(length_map snd (dedup _)).
  fold (JS.Map_values (dedup orderEvents)).
  fold (JS.Map_values (dedup orderEvents')).
  now rewrite (Permutation_length Hvals).
Qed.

Lemma computeMetrics_multiset_witness :
  Permutation [tie_first; epoch_order] [epoch_order; tie_first]
  /\ NoTies [tie_first; epoch_order]
  /\ totalVolumeSats
       (computeMetrics clock_a [future_anchor] [tie_first; epoch_order])
     <= JS.MAX_SAFE_INTEGER
  /\ computeMetrics clock_a [future_anchor] [tie_first; epoch_order]
     = computeMetrics clock_a [future_anchor] [epoch_order; tie_first].
Proof.
  assert (Hp : Permutation [tie_first; epoch_order] [epoch_order; tie_first])
    by apply perm_swap.
  assert (Hsafe : totalVolumeSats
                    (computeMetrics clock_a [future_anchor]
                       [tie_first; epoch_order])
                  <= JS.MAX_SAFE_INTEGER) by (vm_compute; discriminate).
  split; [exact Hp|]. split; [exact NoTies_two_updates|].
  split; [exact Hsafe|].
  exact (computeMetrics_multiset clock_a _ _ _ _ (Permutation_refl _) Hp
           NoTies_two_updates Hsafe).
Defined.

(** ** The report as a whole *)

Lemma dedup_size_le (events : list Event) :
  JS.Map_size (dedup events) <= JS.length events.
Proof.
  destruct (dedup_invariant events) as (Hnd & Hkeys & _).
  unfold JS.Map_size, JS.length; apply inj_le.
  rewrite <- (length_map fst (dedup events)).
  rewrite <- (length_map Some (map fst (dedup events))).
  rewrite <- (length_map order_id events).
  apply NoDup_incl_length.
  - apply Finite.Injective_map_NoDup; [|exact Hnd].
    intros x y [= ->]; reflexivity.
  - intros k Hk; apply in_map_iff in Hk as (key & <- & Hin).
    apply Hkeys in Hin as (e & Hin & Hid).
    rewrite <- Hid; now apply in_map.
Qed.

Lemma filter_length_le {A : Type} (f : A -> bool) (l : list A) :
  JS.length (filter f l) <= JS.length l.
Proof.
  unfold JS.length; apply inj_le.
  induction l as [|x l IH]; simpl; [lia|].
  destruct (f x); simpl; lia.
Qed.

(** X8: the counts of the report are consistent: the successful trades
    are at most the unique orders, which are at most the order events
    received; the three windows count at most the successful trades; and the
    active days of the last 30 days are at most the trades of that window. *)
Theorem report_counts (w : JS.World) (devFeeEvents orderEvents : list Event) :
  let r := computeMetrics w devFeeEvents orderEvents in
  0 <= successfulTrades r <= uniqueOrders r
  /\ uniqueOrders r <= totalOrderEvents r
  /\ 0 <= trades7d r <= trades30d r
  /\ trades30d r <= trades90d r <= successfulTrades r
  /\ 0 <= activeDays30d r <= trades30d r.
Proof.
  cbv zeta; unfold computeMetrics, computeMetricsAt.
  set (now := JS.floor_div (JS.Date_now w) 1000).
  destruct (longevity _ _ _) as [days started].
  cbn [successfulTrades uniqueOrders totalOrderEvents trades7d trades30d
       trades90d activeDays30d].
  rewrite scan_ordersMap.
  destruct (tally_fields (JS.Map_values (dedup orderEvents)))
    as (Hn & _ & _ & Ht); cbv zeta in Hn, Ht.
  rewrite Hn, Ht.
  set (successes := filter is_success (JS.Map_values (dedup orderEvents))).
  set (timestamps := map created_at successes).
  assert (Hlen : JS.length timestamps = JS.length successes)
    by (unfold timestamps, JS.length; now rewrite length_map).
  pose proof (filter_length_le is_success (JS.Map_values (dedup orderEvents)))
    as Hsucc; fold successes in Hsucc.
  assert (Hvals : JS.length (JS.Map_values (dedup orderEvents))
                  = JS.Map_size (dedup orderEvents))
    by (unfold JS.Map_values, JS.Map_size, JS.length; now rewrite length_map).
  pose proof (dedup_size_le orderEvents) as Hsize.
  unfold computeRollingWindows, SECONDS_PER_DAY;
    cbn [last7d last30d last90d]; rewrite !filter_count_from.
  pose proof (count_from_le_length (now - 7 * 86400) timestamps).
  pose proof (count_from_le_length (now - 90 * 86400) timestamps).
  pose proof (count_from_antitone (now - 30 * 86400) (now - 7 * 86400)
                timestamps ltac:(lia)).
  pose proof (count_from_antitone (now - 90 * 86400) (now - 30 * 86400)
                timestamps ltac:(lia)).
  destruct (activity_range timestamps now) as (Hactive & _).
  unfold computeRollingWindows, SECONDS_PER_DAY in Hactive;
    cbn [last30d] in Hactive; rewrite filter_count_from in Hactive.
  assert (0 <= JS.length successes) by (unfold JS.length; lia).
  repeat split; lia.
Qed.



Lemma longevity_nonneg (now : Z) (firstDevFee : option Z)
      (events : list Event) :
  (forall first, firstDevFee = Some first -> first <= now) ->
  (0 <= fst (longevity now firstDevFee (scan events)))%Q.
Proof.
  intros Hpast; unfold longevity.
  destruct firstDevFee as [first|]; cbn [fst].
  - apply (proj2 (div_days_nonneg _)); specialize (Hpast _ eq_refl); lia.
  - destruct (scan_lastOrderTs events) as (Hub & _ & _).
    pose proof (scan_firstOrderTs events) as Hfirst.
    cbv zeta in Hub.
    destruct (lastOrderTs (scan events) >? 0); [|cbn; lra].
    destruct (firstOrderTs (scan events)) as [first|]; [|cbn; lra].
    destruct Hfirst as (_ & e & Hin & <-).
    cbn [fst]; apply (proj2 (div_days_nonneg _)).
    specialize (Hub _ Hin); lia.
Qed.

(** X10: the trust score of a report is never above 100, and it is not
    negative when there is no dev fee event or one of them is dated at or
    before [now]; with only dev fee events dated after [now] it can be
    negative. *)
Theorem report_trustScore_bounds (w : JS.World)
        (devFeeEvents orderEvents : list Event) :
  let now := JS.Date_now w / 1000 in
  let r := computeMetrics w devFeeEvents orderEvents in
  trustScore r <= 100
  /\ (devFeeEvents = [] \/ (exists a, In a devFeeEvents /\ created_at a <= now)
      -> 0 <= trustScore r)
  /\ trustScore
       (computeMetrics clock_a
          [{| id := "later"; created_at := 1800000000; tags := [] |}] []) < 0.
Proof.
  cbv zeta; unfold computeMetrics, computeMetricsAt.
  rewrite floor_div_Zdiv.
  set (now := JS.Date_now w / 1000).
  pose proof (longevity_nonneg now (firstDevFeeTs devFeeEvents) orderEvents)
    as Hdays.
  destruct (longevity now _ _) as [days started]; cbn [fst] in Hdays.
  cbn [trustScore].
  split; [apply score_le_100|].
  split; [|vm_compute; reflexivity].
  intros Hpast.
  destruct (tally_fields (JS.Map_values (ordersMap (scan orderEvents))))
    as (Hn & Hv & _ & _); cbv zeta in Hn, Hv.
  apply score_nonneg.
  - apply Hdays; intros first Hfirst.
    pose proof (firstDevFeeTs_spec devFeeEvents) as Hspec.
    rewrite Hfirst in Hspec; destruct Hspec as [(a0 & Hin0 & _) Hlb].
    destruct Hpast as [->|(a & Hin & Hle)]; [destruct Hin0|].
    specialize (Hlb _ Hin); lia.
  - rewrite Hv.
    destruct (sum_list_ge_elem _ (included_amounts_positive
                (filter is_success
                   (JS.Map_values (ordersMap (scan orderEvents)))))) as [H0 _].
    change 0%Q with (inject_Z 0); now rewrite <- Zle_Qle.
  - rewrite Hn; change 0%Q with (inject_Z 0); rewrite <- Zle_Qle.
    unfold JS.length; lia.
Qed.

Lemma report_trustScore_bounds_witness :
  let r := computeMetrics clock_a [] [tie_second] in
  ([] = ([] : list Event)
   \/ exists a, In a [] /\ created_at a <= JS.Date_now clock_a / 1000)
  /\ 0 <= trustScore r.
Proof.
  intros r.
  assert (H : [] = ([] : list Event)
              \/ exists a : Event,
                   In a [] /\ created_at a <= JS.Date_now clock_a / 1000)
    by now left.
  split; [exact H|].
  exact (proj1 (proj2 (report_trustScore_bounds clock_a [] [tie_second])) H).
Defined.

(** X11: liveness agrees with the windows: a trade counted in the 7-day
    window makes [daysSinceLast] at most 7, which [getActivityStatus] labels
    ACTIVE, and a trade counted in the 30-day window makes it at most 30, so
    never INACTIVE; when no order event is dated after [now],
    [daysSinceLast] is not negative. *)
Theorem report_liveness_consistent (w : JS.World)
        (devFeeEvents orderEvents : list Event) :
  let now := JS.Date_now w / 1000 in
  let r := computeMetrics w devFeeEvents orderEvents in
  (0 < trades7d r ->
   daysSinceLast r <= 7
   /\ UI.label (UI.getActivityStatus (daysSinceLast r)) = "ACTIVE"%string)
  /\ (0 < trades30d r ->
      daysSinceLast r <= 30
      /\ UI.label (UI.getActivityStatus (daysSinceLast r))
         <> "INACTIVE"%string)
  /\ ((forall e, In e orderEvents -> created_at e <= now) ->
      0 <= daysSinceLast r).
Proof.
  cbv zeta; unfold computeMetrics, computeMetricsAt.
  rewrite floor_div_Zdiv.
  set (now := JS.Date_now w / 1000).
  destruct (longevity _ _ _) as [days started].
  cbn [trades7d trades30d daysSinceLast].
  rewrite scan_ordersMap.
  destruct (tally_fields (JS.Map_values (dedup orderEvents)))
    as (_ & _ & _ & Ht); cbv zeta in Ht; rewrite Ht.
  destruct (scan_lastOrderTs orderEvents) as (Hub & H0 & Hlast).
  cbv zeta in Hub, H0, Hlast.
  set (last := lastOrderTs (scan orderEvents)) in *.
  unfold computeRollingWindows, SECONDS_PER_DAY; cbn [last7d last30d].
  rewrite !filter_count_from, floor_div_Zdiv.
  assert (Hrecent : forall W,
            0 < count_from (now - W * 86400)
                  (map created_at
                     (filter is_success
                        (JS.Map_values (dedup orderEvents)))) ->
            now - W * 86400 <= last).
  { intros W Hc; apply count_from_positive in Hc as (ts & Hin & Hts).
    apply in_map_iff in Hin as (e & <- & Hin).
    apply filter_In in Hin as [Hin _].
    apply in_map_iff in Hin as ([key e'] & Heq & Hin); simpl in Heq; subst e'.
    destruct (dedup_invariant orderEvents) as (Hnd & _ & Hwin).
    apply Map_In_get in Hin; [|exact Hnd].
    destruct (winner_In _ _ _ (Hwin _ _ Hin)) as [Hin' _].
    specialize (Hub _ Hin'); lia. }
  assert (Hdays : forall W, 0 <= W -> now - W * 86400 <= last ->
                    (if last >? 0 then (now - last) / 86400 else 0) <= W).
  { intros W HW Hle; destruct (last >? 0); [|exact HW].
    apply Z.div_le_upper_bound; lia. }
  split; [|split].
  - intros Hc; specialize (Hdays 7 ltac:(lia) (Hrecent 7 Hc)).
    split; [exact Hdays|].
    unfold UI.getActivityStatus.
    destruct (Z.gtb_spec (if last >? 0 then (now - last) / 86400 else 0) 30);
      [lia|].
    destruct (Z.gtb_spec (if last >? 0 then (now - last) / 86400 else 0) 7);
      [lia | reflexivity].
  - intros Hc; specialize (Hdays 30 ltac:(lia) (Hrecent 30 Hc)).
    split; [exact Hdays|].
    unfold UI.getActivityStatus.
    destruct (Z.gtb_spec (if last >? 0 then (now - last) / 86400 else 0) 30);
      [lia|].
    destruct (_ >? 7); discriminate.
  - intros Hpast.
    destruct (Z.gtb_spec last 0) as [Hgt|_]; [|lia].
    apply Z.div_pos; [|lia].
    destruct Hlast as [Hz|(e & Hin & He)]; [lia|].
    specialize (Hpast _ Hin); lia.
Qed.

Lemma report_liveness_consistent_witness :
  let r := computeMetrics clock_a [] [tie_second] in
  0 < trades7d r
  /\ daysSinceLast r <= 7
  /\ UI.label (UI.getActivityStatus (daysSinceLast r)) = "ACTIVE"%string.
Proof.
  intros r.
  assert (H : 0 < trades7d r) by reflexivity.
  split; [exact H|].
  exact (proj1 (report_liveness_consistent clock_a [] [tie_second]) H).
Defined.

(** ** [ui.js]: relative time *)

Ltac decide_comparisons :=
  repeat match goal with
         | |- context [?a =? ?b] =>
             destruct (Z.eqb_spec a b); try lia
         | |- context [?a <? ?b] =>
             destruct (Z.ltb_spec a b); try lia
         | |- context [?a >=? ?b] =>
             destruct (Z.geb_spec a b); try lia
         | |- context [?a <=? ?b] =>
             destruct (Z.leb_spec a b); try lia
         end; cbn [andb].

(** X12: the wording of a relative time, by the age in seconds: a
    timestamp after [now] is 'in the future'; below one day the age is
    given in hours, 2 to 23 when in the plural; then in days (2 to 6), weeks
    (2 to 4), months of 30 days (2 to 12) and, from 365 days on, in years of
    365 days, always with the plural 'years', also for one. *)
Theorem formatRelativeTime_cases (timestamp now : Z) :
  let age := now - timestamp in
  let out := UI.formatRelativeTime timestamp now in
  let text n unit := (JSString.Number_toString n ++ unit)%string in
  (age < 0 -> out = "in the future"%string)
  /\ (0 <= age < 3600 -> out = "less than an hour ago"%string)
  /\ (3600 <= age < 7200 -> out = "1 hour ago"%string)
  /\ (7200 <= age < 86400 ->
      out = text (age / 3600) " hours ago"%string /\ 2 <= age / 3600 <= 23)
  /\ (86400 <= age < 2 * 86400 -> out = "1 day ago"%string)
  /\ (2 * 86400 <= age < 7 * 86400 ->
      out = text (age / 86400) " days ago"%string /\ 2 <= age / 86400 <= 6)
  /\ (7 * 86400 <= age < 14 * 86400 -> out = "1 week ago"%string)
  /\ (14 * 86400 <= age < 30 * 86400 ->
      out = text (age / 86400 / 7) " weeks ago"%string
      /\ 2 <= age / 86400 / 7 <= 4)
  /\ (30 * 86400 <= age < 60 * 86400 -> out = "1 month ago"%string)
  /\ (60 * 86400 <= age < 365 * 86400 ->
      out = text (age / 86400 / 30) " months ago"%string
      /\ 2 <= age / 86400 / 30 <= 12)
  /\ (365 * 86400 <= age ->
      out = text (age / 86400 / 365) " years ago"%string
      /\ 1 <= age / 86400 / 365).
Proof.
  cbv zeta; unfold UI.formatRelativeTime; rewrite !floor_div_Zdiv.
  set (age := now - timestamp).
  set (days := age / 86400).
  assert (Hdays : 86400 * days <= age < 86400 * days + 86400)
    by (unfold days; Z.div_mod_to_equations; lia).
  assert (Hhours : 0 <= age -> days = 0 ->
                   Z.rem age 86400 / 3600 = age / 3600).
  { intros H0 Hd; rewrite Z.rem_small by lia; reflexivity. }
  assert (Hh : 3600 * (age / 3600) <= age < 3600 * (age / 3600) + 3600)
    by (Z.div_mod_to_equations; lia).
  assert (Hw : 7 * (days / 7) <= days < 7 * (days / 7) + 7)
    by (Z.div_mod_to_equations; lia).
  assert (Hm : 30 * (days / 30) <= days < 30 * (days / 30) + 30)
    by (Z.div_mod_to_equations; lia).
  assert (Hy : 365 * (days / 365) <= days < 365 * (days / 365) + 365)
    by (Z.div_mod_to_equations; lia).
  repeat match goal with |- _ /\ _ => split end; intros Hage;
    try (destruct (Z.ltb_spec age 0); [lia|]);
    try (destruct (Z.eqb_spec days 0);
         [rewrite Hhours by lia|]; try lia);
    decide_comparisons; try split; try reflexivity; try lia.
Qed.

Lemma formatRelativeTime_cases_witness :
  365 * 86400 <= 31536000 - 0
  /\ UI.formatRelativeTime 0 31536000 = "1 years ago"%string.
Proof.
  assert (H : 365 * 86400 <= 31536000 - 0) by discriminate.
  split; [exact H|].
  destruct (formatRelativeTime_cases 0 31536000)
    as (_ & _ & _ & _ & _ & _ & _ & _ & _ & _ & Hyears).
  exact (proj1 (Hyears H)).
Defined.

(** ** [Map], continued *)

Section MapAppend.
Context {V : Type}.
Implicit Types (m : JS.Map V) (k : string) (v : V).

Lemma Map_get_app m1 m2 k :
  JS.Map_get (m1 ++ m2) k
  = match JS.Map_get m1 k with
    | Some v => Some v
    | None => JS.Map_get m2 k
    end.
Proof.
  induction m1 as [|[k' v'] m1 IH]; simpl; [reflexivity|].
  destruct (String.eqb k' k); [reflexivity | exact IH].
Qed.

Lemma Map_set_app_l m1 m2 k v v0 :
  JS.Map_get m1 k = Some v0 ->
  JS.Map_set (m1 ++ m2) k v = JS.Map_set m1 k v ++ m2.
Proof.
  induction m1 as [|[k' v'] m1 IH]; simpl; [discriminate|].
  destruct (String.eqb k' k); [reflexivity|].
  intros H; now rewrite IH.
Qed.

Lemma Map_set_app_r m1 m2 k v v0 :
  JS.Map_get m1 k = None -> JS.Map_get m2 k = Some v0 ->
  JS.Map_set (m1 ++ m2) k v = m1 ++ JS.Map_set m2 k v.
Proof.
  intros H1 H2; induction m1 as [|[k' v'] m1 IH]; simpl in *; [reflexivity|].
  destruct (String.eqb k' k); [discriminate|].
  now rewrite IH.
Qed.
End MapAppend.

(** ** [ui.js]: the document tree *)

Lemma Node_forest_ind (P : UI.Node -> Prop) :
  (forall data, P (UI.Text data)) ->
  (forall i tokens children,
     Forall P children -> P (UI.Element i tokens children)) ->
  forall node, P node.
Proof.
  intros HText HElement; fix IH 1; intros [data|i tokens children].
  - apply HText.
  - apply HElement.
    induction children as [|child rest IHrest]; constructor;
      [apply IH | exact IHrest].
Qed.


(** The class list [getElementById] finds is the first one listed under
    the id. *)
Lemma get_elements (doc : UI.Node) (id : string) :
  JS.Map_get (elements doc) id
  = option_map UI.classList (UI.getElementById doc id).
Proof.
  induction doc as [data|i tokens children IH] using Node_forest_ind;
    [reflexivity|].
  cbn [elements UI.getElementById JS.Map_get].
  destruct (String.eqb i id); [reflexivity|].
  induction IH as [|child rest Hchild _ IHrest]; [reflexivity|].
  cbn [flat_map UI.first_of]; rewrite Map_get_app, Hchild.
  destruct (UI.getElementById child id); [reflexivity | exact IHrest].
Qed.

Lemma get_forest (children : list UI.Node) (id : string) :
  JS.Map_get (flat_map elements children) id
  = option_map UI.classList
      (UI.first_of (fun child => UI.getElementById child id) children).
Proof.
  induction children as [|child rest IH]; [reflexivity|].
  cbn [flat_map UI.first_of]; rewrite Map_get_app, get_elements.
  destruct (UI.getElementById child id); [reflexivity | exact IH].
Qed.

(** [change] fails exactly when [getElementById] finds nothing. *)
Lemma change_None (doc : UI.Node) (id : string) (f : UI.Node -> UI.Node) :
  UI.change doc id f = None <-> UI.getElementById doc id = None.
Proof.
  induction doc as [data|i tokens children IH] using Node_forest_ind;
    [split; reflexivity|].
  cbn [UI.change UI.getElementById].
  destruct (String.eqb i id); [split; discriminate|].
  induction IH as [|child rest Hchild _ IHrest]; [split; reflexivity|].
  cbn [UI.change_first UI.first_of].
  destruct Hchild as [Hc1 Hc2], IHrest as [Hr1 Hr2].
  destruct (UI.change child id f) as [child'|].
  - destruct (UI.getElementById child id); [split; discriminate|].
    specialize (Hc2 eq_refl); discriminate.
  - rewrite (Hc1 eq_refl).
    destruct (UI.change_first _ rest); cbn [option_map] in *.
    + split; [discriminate|].
      intros H; specialize (Hr2 H); discriminate.
    + split; [intros _; now apply Hr1 | reflexivity].
Qed.

Lemma change_first_None (children : list UI.Node) (id : string)
      (f : UI.Node -> UI.Node) :
  UI.change_first (fun child => UI.change child id f) children = None
  <-> UI.first_of (fun child => UI.getElementById child id) children = None.
Proof.
  induction children as [|child rest IH]; [split; reflexivity|].
  cbn [UI.change_first UI.first_of].
  destruct (change_None child id f) as [Hc1 Hc2], IH as [Hr1 Hr2].
  destruct (UI.change child id f) as [child'|].
  - destruct (UI.getElementById child id); [split; discriminate|].
    specialize (Hc2 eq_refl); discriminate.
  - rewrite (Hc1 eq_refl).
    destruct (UI.change_first _ rest); cbn [option_map] in *.
    + split; [discriminate|].
      intros H; specialize (Hr2 H); discriminate.
    + split; [intros _; now apply Hr1 | reflexivity].
Qed.

(** After a change that keeps the id, [getElementById] finds the changed
    element. *)
Lemma get_change_same (doc doc' : UI.Node) (id : string)
      (f : UI.Node -> UI.Node) :
  (forall i tokens children,
     exists tokens' children',
       f (UI.Element i tokens children) = UI.Element i tokens' children') ->
  UI.change doc id f = Some doc' ->
  UI.getElementById doc' id = option_map f (UI.getElementById doc id).
Proof.
  intros Hf; revert doc'.
  induction doc as [data|i tokens children IH] using Node_forest_ind;
    intros doc'; [discriminate|].
  cbn [UI.change UI.getElementById].
  destruct (String.eqb i id) eqn:Hi.
  - intros [= <-]; cbn [option_map].
    destruct (Hf i tokens children) as (tokens' & children' & ->).
    cbn [UI.getElementById]; now rewrite Hi.
  - destruct (UI.change_first _ children) as [children'|] eqn:Hc;
      [|discriminate].
    intros [= <-]; cbn [UI.getElementById]; rewrite Hi.
    clear Hi; revert children' Hc.
    induction IH as [|child rest Hchild _ IHrest]; intros children';
      [discriminate|].
    cbn [UI.change_first UI.first_of].
    destruct (UI.change child id f) as [child'|] eqn:Hchange.
    + intros [= <-]; cbn [UI.first_of].
      rewrite (Hchild _ eq_refl).
      destruct (UI.getElementById child id) eqn:Hget; [reflexivity|].
      apply (change_None child id f) in Hget; congruence.
    + apply change_None in Hchange.
      destruct (UI.change_first _ rest) as [rest'|]; [|discriminate].
      intros [= <-]; cbn [UI.first_of]; rewrite Hchange.
      now apply IHrest.
Qed.

(** Toggling a class changes one entry of the list of elements. *)
Lemma elements_toggle (doc doc' : UI.Node) (id : string) (force : bool) :
  UI.change doc id (UI.toggle_hidden force) = Some doc' ->
  exists tokens,
    JS.Map_get (elements doc) id = Some tokens
    /\ elements doc'
       = JS.Map_set (elements doc) id
           (UI.classList_toggle tokens "hidden" force).
Proof.
  revert doc'.
  induction doc as [data|i tokens children IH] using Node_forest_ind;
    intros doc'; [discriminate|].
  cbn [UI.change elements JS.Map_get JS.Map_set].
  destruct (String.eqb_spec i id) as [->|Hi].
  - intros [= <-]; exists tokens; split; reflexivity.
  - destruct (UI.change_first _ children) as [children'|] eqn:Hc;
      [|discriminate].
    intros [= <-]; cbn [elements].
    enough (exists tokens0,
              JS.Map_get (flat_map elements children) id = Some tokens0
              /\ flat_map elements children'
                 = JS.Map_set (flat_map elements children) id
                     (UI.classList_toggle tokens0 "hidden" force))
      as (tokens0 & Hget & Hset)
      by (exists tokens0; split; [exact Hget | now rewrite Hset]).
    clear Hi; revert children' Hc.
    induction IH as [|child rest Hchild _ IHrest]; intros children';
      [discriminate|].
    cbn [UI.change_first flat_map].
    destruct (UI.change child id (UI.toggle_hidden force)) as [child'|]
      eqn:Hchange.
    + intros [= <-]; cbn [flat_map].
      destruct (Hchild _ eq_refl) as (tokens0 & Hget & ->).
      exists tokens0; split.
      * now rewrite Map_get_app, Hget.
      * symmetry; eapply Map_set_app_l; exact Hget.
    + apply change_None in Hchange.
      destruct (UI.change_first _ rest) as [rest'|]; [|discriminate].
      intros [= <-]; cbn [flat_map].
      destruct (IHrest _ eq_refl) as (tokens0 & Hget & ->).
      assert (Hnone : JS.Map_get (elements child) id = None)
        by (now rewrite get_elements, Hchange).
      exists tokens0; split.
      * now rewrite Map_get_app, Hnone.
      * symmetry; eapply Map_set_app_r; eassumption.
Qed.

Lemma classes_setVisible (doc : UI.Node) (id id' : string) (show : bool) :
  JS.Map_get (elements (UI.setVisible doc id show)) id'
  = if String.eqb id id'
    then option_map
           (fun tokens => UI.classList_toggle tokens "hidden" (negb show))
           (JS.Map_get (elements doc) id')
    else JS.Map_get (elements doc) id'.
Proof.
  unfold UI.setVisible.
  destruct (UI.change doc id _) as [doc'|] eqn:Hc.
  - destruct (elements_toggle _ _ _ _ Hc) as (tokens & Hget & ->).
    destruct (String.eqb_spec id id') as [<-|Hne].
    + now rewrite Map_get_set_same, Hget.
    + apply Map_get_set_other; congruence.
  - apply change_None in Hc.
    destruct (String.eqb_spec id id') as [<-|Hne]; [|reflexivity].
    now rewrite get_elements, Hc.
Qed.

Lemma ids_setVisible (doc : UI.Node) (id : string) (show : bool) :
  map fst (elements (UI.setVisible doc id show)) = map fst (elements doc).
Proof.
  unfold UI.setVisible.
  destruct (UI.change doc id _) as [doc'|] eqn:Hc; [|reflexivity].
  destruct (elements_toggle _ _ _ _ Hc) as (tokens & Hget & ->).
  eapply (Map_set_present (V := list string)); exact Hget.
Qed.

(** *** The tree without its class lists *)

Lemma skeleton_toggle (doc doc' : UI.Node) (id : string) (force : bool) :
  UI.change doc id (UI.toggle_hidden force) = Some doc' ->
  skeleton doc' = skeleton doc.
Proof.
  revert doc'.
  induction doc as [data|i tokens children IH] using Node_forest_ind;
    intros doc'; [discriminate|].
  cbn [UI.change].
  destruct (String.eqb i id); [intros [= <-]; reflexivity|].
  destruct (UI.change_first _ children) as [children'|] eqn:Hc;
    [|discriminate].
  intros [= <-]; cbn [skeleton]; f_equal.
  revert children' Hc.
  induction IH as [|child rest Hchild _ IHrest]; intros children';
    [discriminate|].
  cbn [UI.change_first].
  destruct (UI.change child id _) as [child'|].
  - intros [= <-]; cbn [map]; now rewrite (Hchild _ eq_refl).
  - destruct (UI.change_first _ rest) as [rest'|]; [|discriminate].
    intros [= <-]; cbn [map]; now rewrite (IHrest _ eq_refl).
Qed.

Lemma get_skeleton (doc : UI.Node) (id : string) :
  UI.getElementById (skeleton doc) id
  = option_map skeleton (UI.getElementById doc id).
Proof.
  induction doc as [data|i tokens children IH] using Node_forest_ind;
    [reflexivity|].
  cbn [skeleton UI.getElementById].
  destruct (String.eqb i id); [reflexivity|].
  induction IH as [|child rest Hchild _ IHrest]; [reflexivity|].
  cbn [map UI.first_of]; rewrite Hchild.
  destruct (UI.getElementById child id); [reflexivity | exact IHrest].
Qed.

Lemma skeleton_texts (node : UI.Node) :
  Forall is_text (UI.childNodes (skeleton node))
  <-> Forall is_text (UI.childNodes node).
Proof.
  destruct node as [data|i tokens children]; cbn [skeleton UI.childNodes];
    [reflexivity|].
  rewrite Forall_map; split; apply Forall_impl; intros [data|j tk ch];
    trivial.
Qed.

(** Showing or hiding an element changes no child list. *)
Lemma holds_text_setVisible (doc : UI.Node) (id id' : string) (show : bool) :
  holds_text doc id' -> holds_text (UI.setVisible doc id show) id'.
Proof.
  unfold UI.setVisible.
  destruct (UI.change doc id _) as [doc'|] eqn:Hc; [|trivial].
  intros Hdoc el' Hel'.
  pose proof (get_skeleton doc' id') as Hsk.
  rewrite Hel', (skeleton_toggle _ _ _ _ Hc), get_skeleton in Hsk.
  destruct (UI.getElementById doc id') as [el|] eqn:Hel; [|discriminate].
  injection Hsk as Hsk.
  apply skeleton_texts; rewrite <- Hsk; apply skeleton_texts.
  now apply Hdoc.
Qed.

Lemma texts_no_elements (nodes : list UI.Node) :
  Forall is_text nodes -> flat_map elements nodes = [].
Proof.
  induction 1 as [|[data|i tokens children] rest Hnode _ IH];
    [reflexivity | exact IH | destruct Hnode].
Qed.

(** Setting the text of an element that holds only text adds and removes
    no element. *)
Lemma elements_setText (doc : UI.Node) (id text : string) :
  holds_text doc id -> elements (UI.setText doc id text) = elements doc.
Proof.
  unfold UI.setText, holds_text.
  destruct (UI.change doc id _) as [doc'|] eqn:Hc; [|reflexivity].
  revert doc' Hc.
  induction doc as [data|i tokens children IH] using Node_forest_ind;
    intros doc'; [discriminate|].
  cbn [UI.change UI.getElementById].
  destruct (String.eqb i id).
  - intros [= <-] Htexts; cbn [UI.set_textContent elements].
    rewrite (texts_no_elements children (Htexts _ eq_refl)).
    now destruct (String.eqb text "").
  - destruct (UI.change_first _ children) as [children'|] eqn:Hchange;
      [|discriminate].
    intros [= <-] Htexts; cbn [elements]; f_equal.
    revert children' Hchange Htexts.
    induction IH as [|child rest Hchild _ IHrest]; intros children';
      [discriminate|].
    cbn [UI.change_first UI.first_of].
    destruct (UI.change child id _) as [child'|] eqn:Hcc.
    + intros [= <-] Htexts; cbn [flat_map]; f_equal.
      apply Hchild; [reflexivity|].
      intros el Hel; apply Htexts; now rewrite Hel.
    + apply change_None in Hcc; rewrite Hcc.
      destruct (UI.change_first _ rest) as [rest'|]; [|discriminate].
      intros [= <-] Htexts; cbn [flat_map]; f_equal.
      now apply IHrest.
Qed.

Lemma append_empty (s : string) : (s ++ "")%string = s.
Proof. induction s as [|c s IH]; simpl; [reflexivity | now rewrite IH]. Qed.

Lemma textContent_set (text : string) (el : UI.Node) :
  UI.textContent (UI.set_textContent text el) = text.
Proof.
  destruct el as [data|i tokens children]; [reflexivity|].
  cbn [UI.set_textContent UI.textContent].
  destruct (String.eqb_spec text "") as [->|_]; [reflexivity|].
  apply append_empty.
Qed.

(** After [setText] the element found under the id has the text. *)
Lemma text_setText (doc : UI.Node) (id text : string) :
  UI.getElementById doc id <> None ->
  option_map UI.textContent (UI.getElementById (UI.setText doc id text) id)
  = Some text.
Proof.
  intros Hpresent; unfold UI.setText.
  destruct (UI.change doc id _) as [doc'|] eqn:Hc.
  - assert (Hid : forall i tokens children,
              exists tokens' children',
                UI.set_textContent text (UI.Element i tokens children)
                = UI.Element i tokens' children')
      by (intros i tokens children; cbn; eauto).
    rewrite (get_change_same _ _ _ _ Hid Hc).
    destruct (UI.getElementById doc id); [|contradiction].
    cbn [option_map]; now rewrite textContent_set.
  - apply change_None in Hc; contradiction.
Qed.

Lemma present_elements (doc : UI.Node) (id : string) :
  UI.getElementById doc id <> None <-> In id (map fst (elements doc)).
Proof.
  assert (H : forall l : list (string * list string),
             JS.Map_get l id <> None <-> In id (map fst l)).
  { induction l as [|[k v] l IH]; simpl; [tauto|].
    destruct (String.eqb_spec k id) as [->|Hne].
    - split; [now left | discriminate].
    - rewrite IH; tauto. }
  rewrite <- H, get_elements.
  destruct (UI.getElementById doc id); cbn; split; congruence.
Qed.

Lemma present_setVisible (doc : UI.Node) (id id' : string) (show : bool) :
  UI.getElementById doc id' <> None ->
  UI.getElementById (UI.setVisible doc id show) id' <> None.
Proof.
  rewrite !present_elements, ids_setVisible; trivial.
Qed.

(** [shown] and [hidden] read from the list of elements. *)
Lemma shown_elements (doc : UI.Node) (id : string) :
  shown doc id
  <-> exists tokens, JS.Map_get (elements doc) id = Some tokens
                     /\ ~ In "hidden"%string tokens.
Proof.
  unfold shown; rewrite get_elements; split.
  - intros (el & -> & Hel); now exists (UI.classList el).
  - destruct (UI.getElementById doc id) as [el|]; cbn [option_map].
    + intros (tokens & [= <-] & Hel); now exists el.
    + intros (tokens & [=] & _).
Qed.

Lemma hidden_elements (doc : UI.Node) (id : string) :
  hidden doc id
  <-> forall tokens, JS.Map_get (elements doc) id = Some tokens ->
                     In "hidden"%string tokens.
Proof.
  unfold hidden; rewrite get_elements; split.
  - destruct (UI.getElementById doc id) as [el|]; cbn [option_map].
    + intros H tokens [= <-]; now apply H.
    + intros _ tokens [=].
  - intros H el Hel; apply H; now rewrite Hel.
Qed.

(** ** [ui.js]: the sections of the page *)

Lemma toggle_hidden_In (tokens : list string) (force : bool) :
  In "hidden"%string (UI.classList_toggle tokens "hidden" force)
  <-> force = true.
Proof.
  unfold UI.classList_toggle; destruct force.
  - split; [reflexivity | intros _].
    destruct (existsb (String.eqb "hidden") tokens) eqn:E.
    + apply existsb_exists in E as (t & Hin & Heq).
      apply String.eqb_eq in Heq; now subst.
    + apply in_app_iff; right; now left.
  - split; [|discriminate].
    intros Hin; apply filter_In in Hin as [_ Hne].
    now rewrite String.eqb_refl in Hne.
Qed.

Lemma present_classes (doc : UI.Node) (id : string) :
  (exists el, UI.getElementById doc id = Some el) ->
  exists tokens, JS.Map_get (elements doc) id = Some tokens.
Proof.
  intros (el & Hel); exists (UI.classList el).
  now rewrite get_elements, Hel.
Qed.

Ltac page_elements :=
  unfold UI.showStatus, UI.showError, UI.showListening, UI.hideMessages;
  cbv zeta;
  rewrite ?elements_setText by (repeat apply holds_text_setVisible; assumption);
  rewrite ?classes_setVisible;
  cbn [String.eqb Ascii.eqb Bool.eqb andb].

Ltac section_shown :=
  let tokens := fresh "tokens" in
  let Htokens := fresh "Htokens" in
  intros Hpresent; apply present_classes in Hpresent as (tokens & Htokens);
  apply shown_elements; page_elements; rewrite Htokens;
  eexists; split; [reflexivity|];
  rewrite toggle_hidden_In; discriminate.

Ltac section_hidden :=
  let tokens := fresh "tokens" in
  apply hidden_elements; page_elements; intros tokens;
  match goal with
  | |- context [JS.Map_get ?m ?k] => destruct (JS.Map_get m k)
  end; cbn [option_map]; [|discriminate];
  match goal with
  | |- context [UI.classList_toggle ?t ?k ?f] =>
      let Htoggle := fresh "Htoggle" in
      pose proof (proj2 (toggle_hidden_In t f) eq_refl) as Htoggle;
      set (UI.classList_toggle t k f) in *;
      intros [= <-]; exact Htoggle
  end.

Ltac message_text :=
  intros (el & Hel);
  unfold UI.showStatus, UI.showError, UI.showListening; cbv zeta;
  apply text_setText; repeat apply present_setVisible; congruence.

Ltac classes_kept :=
  rewrite <- !get_elements; page_elements; reflexivity.

(** X13: on a page whose two message elements hold only text, after
    [showStatus] or [showListening] the status section is shown and the
    error section hidden, after [showError] it is the other way round,
    after [hideMessages] both are hidden, so the two are never shown
    together; [showStatus] and [showError] hide the report, while
    [showListening] and [hideMessages] leave the class list of the report
    section as it is; the message becomes the text of its element, which
    is [status-text] for [showStatus] and [showListening] and
    [error-message] for [showError]. *)
Theorem page_sections (doc : UI.Node) (message : string) :
  holds_text doc "status-text" -> holds_text doc "error-message" ->
  let present id := exists el, UI.getElementById doc id = Some el in
  let text d id := option_map UI.textContent (UI.getElementById d id) in
  let classes d id := option_map UI.classList (UI.getElementById d id) in
  ((present "status-section"%string ->
    shown (UI.showStatus doc message) "status-section")
   /\ hidden (UI.showStatus doc message) "error-section"
   /\ hidden (UI.showStatus doc message) "report-section"
   /\ (present "status-text"%string ->
       text (UI.showStatus doc message) "status-text"%string = Some message))
  /\ (hidden (UI.showError doc message) "status-section"
      /\ (present "error-section"%string ->
          shown (UI.showError doc message) "error-section")
      /\ hidden (UI.showError doc message) "report-section"
      /\ (present "error-message"%string ->
          text (UI.showError doc message) "error-message"%string
          = Some message))
  /\ ((present "status-section"%string ->
       shown (UI.showListening doc message) "status-section")
      /\ hidden (UI.showListening doc message) "error-section"
      /\ classes (UI.showListening doc message) "report-section"%string
         = classes doc "report-section"%string
      /\ (present "status-text"%string ->
          text (UI.showListening doc message) "status-text"%string
          = Some message))
  /\ (hidden (UI.hideMessages doc) "status-section"
      /\ hidden (UI.hideMessages doc) "error-section"
      /\ classes (UI.hideMessages doc) "report-section"%string
         = classes doc "report-section"%string).
Proof.
  intros Hstatus Herror; cbv zeta.
  repeat match goal with |- _ /\ _ => split end.
  all: first [section_shown | section_hidden | message_text | classes_kept].
Qed.

Lemma plain_page_texts :
  holds_text plain_page "status-text"
  /\ holds_text plain_page "error-message".
Proof.
  split; intros el; cbn; intros [= <-]; repeat constructor.
Qed.

Lemma page_sections_witness :
  holds_text plain_page "status-text"
  /\ holds_text plain_page "error-message"
  /\ (exists el, UI.getElementById plain_page "status-section" = Some el)
  /\ shown (UI.showStatus plain_page "Connecting") "status-section".
Proof.
  destruct plain_page_texts as [Hstatus Herror].
  assert (H : exists el,
             UI.getElementById plain_page "status-section" = Some el)
    by (cbn; eauto).
  split; [exact Hstatus|]. split; [exact Herror|]. split; [exact H|].
  destruct (page_sections plain_page "Connecting" Hstatus Herror)
    as ((Hshown & _) & _).
  exact (Hshown H).
Defined.

(** X14: on a page whose two message elements hold only text, the
    functions that show and hide the sections add and remove no element,
    and they leave the class list of every element other than the three
    sections as it was.  When [status-text] holds an element, [showStatus]
    removes it with the old text. *)
Theorem page_frame (doc : UI.Node) (message id : string) :
  (holds_text doc "status-text" -> holds_text doc "error-message" ->
   ~ In id ["status-section"; "error-section"; "report-section"]%string ->
   forall update,
     In update [(fun d => UI.showStatus d message);
                (fun d => UI.showListening d message);
                (fun d => UI.showError d message);
                UI.hideMessages] ->
     map fst (elements (update doc)) = map fst (elements doc)
     /\ option_map UI.classList (UI.getElementById (update doc) id)
        = option_map UI.classList (UI.getElementById doc id))
  /\ (UI.getElementById dotted_page "dot" <> None
      /\ UI.getElementById (UI.showStatus dotted_page message) "dot" = None).
Proof.
  split; [|split; [discriminate|]].
  - intros Hstatus Herror Hid update Hupdate.
    assert (Hne : forall id', In id' ["status-section"; "error-section";
                                      "report-section"]%string ->
                              String.eqb id' id = false).
    { intros id' Hin; apply String.eqb_neq; intros ->; contradiction. }
    simpl in Hupdate.
    destruct Hupdate as [<-|[<-|[<-|[<-|[]]]]];
      rewrite <- !get_elements;
      unfold UI.showStatus, UI.showError, UI.showListening, UI.hideMessages;
      cbv zeta;
      rewrite ?elements_setText
        by (repeat apply holds_text_setVisible; assumption);
      rewrite ?ids_setVisible, ?classes_setVisible;
      rewrite ?Hne by (simpl; tauto); split; reflexivity.
  - unfold UI.showStatus, UI.setText; cbn.
    now destruct (String.eqb message "").
Qed.

Lemma page_frame_witness :
  holds_text plain_page "status-text"
  /\ holds_text plain_page "error-message"
  /\ ~ In "analyze-btn"%string
        ["status-section"; "error-section"; "report-section"]%string
  /\ option_map UI.classList
       (UI.getElementById (UI.showError plain_page "x") "analyze-btn")
     = Some ["btn"]%string.
Proof.
  destruct plain_page_texts as [Hstatus Herror].
  assert (H : ~ In "analyze-btn"%string
                ["status-section"; "error-section"; "report-section"]%string).
  { simpl; intros [H|[H|[H|[]]]]; discriminate. }
  split; [exact Hstatus|]. split; [exact Herror|]. split; [exact H|].
  exact (proj2 (proj1 (page_frame plain_page "x" "analyze-btn")
                  Hstatus Herror H (fun d => UI.showError d "x")
                  (or_intror (or_intror (or_introl eq_refl))))).
Defined.

(** ** [app.js]: the relay list *)

Lemma split_nonempty (sep : ascii) (s : string) : JSString.split sep s <> [].
Proof.
  destruct s as [|c r]; simpl; [discriminate|].
  destruct (Ascii.eqb c sep); [discriminate|].
  destruct (JSString.split sep r); discriminate.
Qed.

Lemma split_app (sep : ascii) (a b : string) :
  JSString.split sep (a ++ String sep b)
  = JSString.split sep a ++ JSString.split sep b.
Proof.
  induction a as [|c a IH]; simpl.
  - now rewrite Ascii.eqb_refl.
  - destruct (Ascii.eqb c sep); [now rewrite IH|].
    rewrite IH.
    pose proof (split_nonempty sep a) as Hne.
    destruct (JSString.split sep a); [contradiction | reflexivity].
Qed.

Lemma split_sep_free (sep : ascii) (s : string) :
  Forall (fun piece =>
            JSString.all_chars (fun c => negb (Ascii.eqb c sep)) piece = true)
         (JSString.split sep s).
Proof.
  induction s as [|c r IH]; simpl; [repeat constructor|].
  destruct (Ascii.eqb c sep) eqn:E; [constructor; [reflexivity | exact IH]|].
  destruct (JSString.split sep r) as [|piece pieces];
    [repeat constructor; simpl; now rewrite E|].
  inversion IH as [|? ? Hp Hps]; subst.
  constructor; [simpl; now rewrite E, Hp | exact Hps].
Qed.

Lemma trimStart_keeps (p : ascii -> bool) (s : string) :
  JSString.all_chars p s = true ->
  JSString.all_chars p (JS.trimStart s) = true.
Proof.
  induction s as [|c r IH]; simpl; [reflexivity|].
  intros H; apply andb_prop in H as [Hc Hr].
  destruct (JS.isStrWhiteSpaceChar c); [now apply IH|].
  simpl; now rewrite Hc, Hr.
Qed.

Lemma trimEnd_keeps (p : ascii -> bool) (s : string) :
  JSString.all_chars p s = true ->
  JSString.all_chars p (JSString.trimEnd s) = true.
Proof.
  induction s as [|c r IH]; simpl; [reflexivity|].
  intros H; apply andb_prop in H as [Hc Hr]; specialize (IH Hr).
  destruct (JSString.trimEnd r) as [|c' r'].
  - destruct (JS.isStrWhiteSpaceChar c); simpl; [reflexivity|].
    now rewrite Hc.
  - cbn [JSString.all_chars] in *; now rewrite Hc.
Qed.

(** What [trimStart] returns is empty or starts with a black character. *)
Lemma trimStart_head (s : string) :
  match JS.trimStart s with
  | EmptyString => True
  | String c _ => JS.isStrWhiteSpaceChar c = false
  end.
Proof.
  induction s as [|c r IH]; simpl; [exact I|].
  destruct (JS.isStrWhiteSpaceChar c) eqn:E; [exact IH | exact E].
Qed.

Lemma trimEnd_idempotent (s : string) :
  JSString.trimEnd (JSString.trimEnd s) = JSString.trimEnd s.
Proof.
  induction s as [|c r IH]; [reflexivity|].
  cbn [JSString.trimEnd].
  destruct (JSString.trimEnd r) as [|c' r'] eqn:E.
  - destruct (JS.isStrWhiteSpaceChar c) eqn:Hc; [reflexivity|].
    simpl; now rewrite Hc.
  - cbn [JSString.trimEnd] in *; now rewrite IH.
Qed.

(** [trimEnd] keeps the first character of a string that starts with a
    black one. *)
Lemma trimEnd_head (c : ascii) (r : string) :
  JS.isStrWhiteSpaceChar c = false ->
  exists r', JSString.trimEnd (String c r) = String c r'.
Proof.
  intros Hc; cbn [JSString.trimEnd].
  destruct (JSString.trimEnd r); [rewrite Hc|]; eauto.
Qed.

Lemma trim_idempotent (s : string) :
  JSString.trim (JSString.trim s) = JSString.trim s.
Proof.
  unfold JSString.trim.
  pose proof (trimStart_head s) as Hhead.
  destruct (JS.trimStart s) as [|c r]; [reflexivity|].
  destruct (trimEnd_head c r Hhead) as (r' & Hr').
  rewrite Hr'; cbn [JS.trimStart]; rewrite Hhead, <- Hr'.
  apply trimEnd_idempotent.
Qed.

(** X15: every relay [parseRelays] returns starts with [wss://], carries
    no white space at either end and no comma; the relays of two lists
    joined by a comma are the relays of the first followed by those of the
    second; the empty string gives no relay. *)
Theorem parseRelays_spec (a b : string) :
  Forall (fun r => JSString.startsWith r "wss://" = true
                   /\ JSString.trim r = r
                   /\ comma_free r = true)
         (App.parseRelays a)
  /\ App.parseRelays (a ++ String "," b)
     = App.parseRelays a ++ App.parseRelays b
  /\ App.parseRelays "" = [].
Proof.
  unfold App.parseRelays; split; [|split; [|reflexivity]].
  - apply Forall_forall; intros r Hr.
    apply filter_In in Hr as [Hin Hok].
    apply andb_prop in Hok as [_ Hwss].
    apply in_map_iff in Hin as (piece & <- & Hpiece).
    split; [exact Hwss|]. split; [apply trim_idempotent|].
    pose proof (split_sep_free "," a) as Hfree.
    rewrite Forall_forall in Hfree; specialize (Hfree _ Hpiece).
    unfold comma_free, JSString.trim.
    now apply trimEnd_keeps, trimStart_keeps.
  - now rewrite split_app, map_app, filter_app.
Qed.

(** ** [nostr.js]: the public key, continued *)

Lemma lower_idempotent (c : ascii) :
  JSString.lower (JSString.lower c) = JSString.lower c.
Proof. destruct c as [[] [] [] [] [] [] [] []]; reflexivity. Qed.

Lemma lower_hex (c : ascii) :
  JSString.isHexDigit c = true ->
  JSString.isHexDigit (JSString.lower c) = true
  /\ JS.isStrWhiteSpaceChar (JSString.lower c) = false
  /\ JS.isStrWhiteSpaceChar c = false
  /\ Ascii.eqb c "n" = false.
Proof.
  destruct c as [[] [] [] [] [] [] [] []]; try discriminate;
    intros _; repeat split; reflexivity.
Qed.

Lemma toLowerCase_idempotent (s : string) :
  JSString.toLowerCase (JSString.toLowerCase s) = JSString.toLowerCase s.
Proof.
  induction s as [|c r IH]; simpl; [reflexivity|].
  now rewrite lower_idempotent, IH.
Qed.

Lemma toLowerCase_length (s : string) :
  String.length (JSString.toLowerCase s) = String.length s.
Proof. induction s as [|c r IH]; simpl; [reflexivity | now rewrite IH]. Qed.

Lemma toLowerCase_hex (s : string) :
  JSString.all_chars JSString.isHexDigit s = true ->
  JSString.all_chars JSString.isHexDigit (JSString.toLowerCase s) = true.
Proof.
  induction s as [|c r IH]; simpl; [reflexivity|].
  intros H; apply andb_prop in H as [Hc Hr].
  destruct (lower_hex c Hc) as (-> & _); now rewrite IH.
Qed.

Lemma trim_hex (s : string) :
  JSString.all_chars JSString.isHexDigit s = true -> JSString.trim s = s.
Proof.
  intros H; unfold JSString.trim.
  assert (Hstart : JS.trimStart s = s).
  { destruct s as [|c r]; [reflexivity|]; simpl in *.
    apply andb_prop in H as [Hc _].
    destruct (lower_hex c Hc) as (_ & _ & -> & _); reflexivity. }
  rewrite Hstart; clear Hstart.
  induction s as [|c r IH]; [reflexivity|].
  simpl in H; apply andb_prop in H as [Hc Hr].
  cbn [JSString.trimEnd]; rewrite (IH Hr).
  destruct r; [|reflexivity].
  destruct (lower_hex c Hc) as (_ & _ & -> & _); reflexivity.
Qed.

Lemma hex_not_npub (s : string) :
  Pubkey.isHex64 s = true -> JSString.startsWith s "npub1" = false.
Proof.
  unfold Pubkey.isHex64, JSString.startsWith; intros H.
  apply andb_prop in H as [Hlen Hhex].
  destruct s as [|c r]; [discriminate|].
  simpl in Hhex; apply andb_prop in Hhex as [Hc _].
  destruct (lower_hex c Hc) as (_ & _ & _ & Hn).
  cbn [String.prefix].
  destruct (ascii_dec "n" c) as [<-|_]; [discriminate | reflexivity].
Qed.

(** X16: an input that is, once trimmed, 64 hexadecimal digits is
    accepted whatever [nip19.decode] does, and the key returned is the
    trimmed input in lower case: again 64 hexadecimal digits, unchanged by
    lower-casing, and parsed to itself. *)
Theorem parsePubkey_hex (nip19_decode : string -> option (string * string))
        (input : string) :
  Pubkey.isHex64 (JSString.trim input) = true ->
  let key := JSString.toLowerCase (JSString.trim input) in
  Pubkey.parsePubkey nip19_decode input = Pubkey.Returns key
  /\ Pubkey.isHex64 key = true
  /\ JSString.toLowerCase key = key
  /\ Pubkey.parsePubkey nip19_decode key = Pubkey.Returns key.
Proof.
  intros Hhex key.
  assert (Hkey : Pubkey.isHex64 key = true).
  { unfold Pubkey.isHex64, key in *.
    apply andb_prop in Hhex as [Hlen Hall].
    now rewrite toLowerCase_length, Hlen, toLowerCase_hex. }
  assert (Hlow : JSString.toLowerCase key = key)
    by apply toLowerCase_idempotent.
  assert (Htrim : JSString.trim key = key).
  { apply trim_hex; unfold Pubkey.isHex64 in Hkey.
    now apply andb_prop in Hkey as [_ Hall]. }
  repeat split; trivial.
  - unfold Pubkey.parsePubkey; cbv zeta.
    now rewrite (hex_not_npub _ Hhex), Hhex.
  - unfold Pubkey.parsePubkey; cbv zeta.
    now rewrite Htrim, (hex_not_npub _ Hkey), Hkey, Hlow.
Qed.

Lemma parsePubkey_hex_witness :
  let input :=
    "  82341F882B6EABCD2BA7F1EF90AAD961CF074AF15B9EF44A09F9D2A8FBFBE6A2 "%string
  in
  Pubkey.isHex64 (JSString.trim input) = true
  /\ Pubkey.parsePubkey (fun _ => None) input
     = Pubkey.Returns
         "82341f882b6eabcd2ba7f1ef90aad961cf074af15b9ef44a09f9d2a8fbfbe6a2".
Proof.
  intros input.
  assert (H : Pubkey.isHex64 (JSString.trim input) = true) by reflexivity.
  split; [exact H|].
  exact (proj1 (parsePubkey_hex (fun _ => None) input H)).
Defined.

(** X17: an input that starts, once trimmed, with [npub1] is never
    accepted as hexadecimal: the key is the data of the decoded entity when
    its type is [npub], the call throws 'Invalid npub format' when
    [nip19.decode] throws, and it throws the other message when the entity
    has another type. *)
Theorem parsePubkey_npub (nip19_decode : string -> option (string * string))
        (input : string) :
  JSString.startsWith (JSString.trim input) "npub1" = true ->
  Pubkey.parsePubkey nip19_decode input
  = match nip19_decode (JSString.trim input) with
    | Some (type, data) =>
        if String.eqb type "npub" then Pubkey.Returns data
        else Pubkey.Throws
               "Invalid pubkey format. Use npub1... or 64 character hex."
    | None => Pubkey.Throws "Invalid npub format"
    end.
Proof.
  intros Hnpub; unfold Pubkey.parsePubkey; cbv zeta; rewrite Hnpub.
  destruct (Pubkey.isHex64 (JSString.trim input)) eqn:Hhex; [|reflexivity].
  rewrite (hex_not_npub _ Hhex) in Hnpub; discriminate.
Qed.

Lemma parsePubkey_npub_witness :
  JSString.startsWith (JSString.trim " npub1abc") "npub1" = true
  /\ Pubkey.parsePubkey (fun _ => Some ("nsec", "00")%string) " npub1abc"
     = Pubkey.Throws
         "Invalid pubkey format. Use npub1... or 64 character hex.".
Proof.
  assert (H : JSString.startsWith (JSString.trim " npub1abc") "npub1" = true)
    by reflexivity.
  split; [exact H|].
  exact (parsePubkey_npub (fun _ => Some ("nsec", "00")%string)
           " npub1abc" H).
Defined.

(** ** [app.js]: the events delivered *)

Lemma deliver_fold (ds : list App.Delivered) (current : App.CurrentEvents) :
  fold_left App.deliver ds current
  = {| App.devFeeEvents :=
         App.devFeeEvents current
         ++ map App.event
              (filter (fun d => App.kind d =? App.DEV_FEE_EVENT_KIND) ds);
       App.orderEvents :=
         App.orderEvents current
         ++ map App.event
              (filter (fun d => negb (App.kind d =? App.DEV_FEE_EVENT_KIND))
                      ds) |}.
Proof.
  revert current; induction ds as [|d ds IH]; intros current.
  - destruct current; simpl; now rewrite !app_nil_r.
  - cbn [fold_left filter]; rewrite IH.
    unfold App.deliver, App.onEvent, App.eventType.
    destruct (App.kind d =? App.DEV_FEE_EVENT_KIND);
      cbn [String.eqb Ascii.eqb Bool.eqb negb App.devFeeEvents
           App.orderEvents map];
      now rewrite <- !app_assoc.
Qed.

(** X18: after any sequence of deliveries into the empty collections,
    the dev fee collection holds, in order of arrival, the events of kind
    8383 and the order collection every other event, whatever its kind, with
    nothing dropped and no duplicate removed; [updateMetrics] computes a
    report as soon as one event has arrived, and its two counts add up to
    the number of deliveries. *)
Theorem deliveries_partition (w : JS.World) (ds : list App.Delivered) :
  let current := fold_left App.deliver ds App.noEvents in
  App.devFeeEvents current
  = map App.event (filter (fun d => App.kind d =? 8383) ds)
  /\ App.orderEvents current
     = map App.event (filter (fun d => negb (App.kind d =? 8383)) ds)
  /\ (ds = [] -> App.updateMetrics w current = None)
  /\ (ds <> [] ->
      exists r, App.updateMetrics w current = Some r
                /\ devFeeCount r + totalOrderEvents r = JS.length ds).
Proof.
  cbv zeta; rewrite deliver_fold; cbn [App.noEvents App.devFeeEvents
    App.orderEvents app]; fold App.DEV_FEE_EVENT_KIND.
  split; [reflexivity|]. split; [reflexivity|].
  split; [intros ->; reflexivity|].
  intros Hne; unfold App.updateMetrics; cbn [App.devFeeEvents App.orderEvents].
  set (dev := map App.event
                  (filter (fun d => App.kind d =? App.DEV_FEE_EVENT_KIND) ds)).
  set (orders :=
         map App.event
             (filter (fun d => negb (App.kind d =? App.DEV_FEE_EVENT_KIND))
                     ds)).
  assert (Hlen : JS.length dev + JS.length orders = JS.length ds).
  { unfold dev, orders, JS.length; rewrite !length_map.
    clear; induction ds as [|d ds IH]; [reflexivity|].
    cbn [filter]; destruct (App.kind d =? App.DEV_FEE_EVENT_KIND);
      cbn [negb List.length]; lia. }
  assert (Hsome : (JS.length dev =? 0) && (JS.length orders =? 0) = false).
  { destruct (Z.eqb_spec (JS.length dev) 0) as [H0|]; [|reflexivity].
    destruct (Z.eqb_spec (JS.length orders) 0) as [H1|]; [|reflexivity].
    exfalso; apply Hne, length_zero_iff; lia. }
  rewrite Hsome; eexists; split; [reflexivity|].
  unfold computeMetrics, computeMetricsAt.
  destruct (longevity _ _ _); cbn [devFeeCount totalOrderEvents]; exact Hlen.
Qed.

Lemma deliveries_partition_witness :
  let ds := [{| App.kind := 38383; App.event := tie_first |};
             {| App.kind := 1; App.event := epoch_order |};
             {| App.kind := 8383; App.event := future_anchor |}] in
  ds <> []
  /\ exists r,
       App.updateMetrics clock_a (fold_left App.deliver ds App.noEvents)
       = Some r
       /\ devFeeCount r + totalOrderEvents r = JS.length ds.
Proof.
  intros ds.
  assert (H : ds <> []) by discriminate.
  split; [exact H|].
  exact (proj2 (proj2 (proj2 (deliveries_partition clock_a ds))) H).
Defined.

(** ** Deduplication as events arrive *)

(** X20: more events never remove an order from the map and never
    replace its record by an older one: every identifier present stays
    present, the timestamp of its record does not decrease, and the number
    of unique orders does not decrease. *)
Theorem dedup_extension (events more : list Event) (key : string)
        (record : Event) :
  JS.Map_get (dedup events) key = Some record ->
  (exists record',
     JS.Map_get (dedup (events ++ more)) key = Some record'
     /\ created_at record <= created_at record')
  /\ JS.Map_size (dedup events) <= JS.Map_size (dedup (events ++ more)).
Proof.
  intros Hget.
  destruct (dedup_invariant events) as (Hnd & Hkeys & Hwin).
  destruct (dedup_invariant (events ++ more)) as (Hnd' & Hkeys' & Hwin').
  split.
  - destruct (winner_In _ _ _ (Hwin _ _ Hget)) as [Hin Hid].
    assert (Hin' : In record (events ++ more))
      by (apply in_app_iff; now left).
    destruct (JS.Map_get (dedup (events ++ more)) key) as [record'|] eqn:Hget'.
    + exists record'; split; [reflexivity|].
      eapply winner_bound; eauto.
    + apply Map_get_None in Hget'; exfalso; apply Hget', Hkeys'; eauto.
  - unfold JS.Map_size, JS.length; apply inj_le.
    rewrite <- !(length_map fst).
    apply NoDup_incl_length; [exact Hnd|].
    intros k Hk; apply Hkeys in Hk as (e & Hin & Hid).
    apply Hkeys'; exists e; split; [apply in_app_iff; now left | exact Hid].
Qed.

Lemma dedup_extension_witness :
  JS.Map_get (dedup [tie_first]) "A" = Some tie_first
  /\ JS.Map_size (dedup [tie_first])
     <= JS.Map_size (dedup ([tie_first] ++ [epoch_order; tie_second])).
Proof.
  assert (H : JS.Map_get (dedup [tie_first]) "A" = Some tie_first)
    by reflexivity.
  split; [exact H|].
  exact (proj2 (dedup_extension [tie_first] [epoch_order; tie_second]
                  "A" tie_first H)).
Defined.

(** ** The colour of the score *)

(** X21: a report without a successful trade has no volume either, its
    trust score is at most the 30 points of age, and [getScoreClass] gives
    it the red class, however old the node is. *)
Theorem report_no_trades_red (w : JS.World)
        (devFeeEvents orderEvents : list Event) :
  let r := computeMetrics w devFeeEvents orderEvents in
  successfulTrades r = 0 ->
  totalVolumeSats r = 0
  /\ trustScore r <= 30
  /\ UI.getScoreClass (trustScore r) = "score-red"%string.
Proof.
  cbv zeta; unfold computeMetrics, computeMetricsAt.
  destruct (longevity _ _ _) as [days started].
  cbn [successfulTrades totalVolumeSats trustScore].
  destruct (tally_fields (JS.Map_values (ordersMap (scan orderEvents))))
    as (Hn & Hv & _ & _); cbv zeta in Hn, Hv.
  rewrite Hn, Hv; intros Hzero.
  apply length_zero_iff in Hzero; rewrite Hzero.
  cbn [included_amounts sum_list fold_right JS.length List.length Z.of_nat].
  assert (Hscore : calculateScore days (inject_Z 0) (inject_Z 0) <= 30).
  { change 30 with (Qfloor (JS.add (JS.add 30 0) 0)).
    apply score_le_terms.
    - apply (score_term_le days 365 30); lia.
    - vm_compute; discriminate.
    - vm_compute; discriminate. }
  split; [reflexivity|]. split; [exact Hscore|].
  unfold UI.getScoreClass.
  destruct (Z.geb_spec (calculateScore days (inject_Z 0) (inject_Z 0)) 70);
    [lia|].
  destruct (Z.geb_spec (calculateScore days (inject_Z 0) (inject_Z 0)) 40);
    [lia | reflexivity].
Qed.

Lemma report_no_trades_red_witness :
  let r := computeMetrics clock_a [epoch_order] [tie_first] in
  successfulTrades r = 0
  /\ trustScore r = 30
  /\ UI.getScoreClass (trustScore r) = "score-red"%string.
Proof.
  intros r.
  assert (H : successfulTrades r = 0) by reflexivity.
  split; [exact H|]. split; [reflexivity|].
  exact (proj2 (proj2 (report_no_trades_red clock_a [epoch_order]
                         [tie_first] H))).
Defined.
